(** * Smooth Path: a shallow embedding of [smooth-path.c]

    The GIMP plug-in recomputes the Bezier control points of a stroke so
    that consecutive segments join smoothly (cubic spline interpolation).
    This development embeds the numerical core of the plug-in,
    [angle_between], [triagonal_solve] and [set_bezier_path], together
    with [smooth_path] and [run] that drive it, and proves properties of
    them.

    Modelling conventions.
    - A [gdouble] is an exact rational number ([Qc], rationals in lowest
      terms, with Leibniz equality).  Rounding, infinities, NaN and signed
      zeros are outside this model, and nothing is assumed in it on the
      value of [atan2] where both its arguments are zero.
    - In the module [Binary64], [triagonal_solve] and [angle_between] are
      embedded once more on IEEE 754 binary64 numbers, for what rounding
      and the two zeros of the machine do to them.
    - A [GArray] of doubles and the raw [ctlpts] buffer are lists.  Every
      indexed read or write is checked: an index outside the array makes
      the computation return [None] (undefined behaviour in C).
    - Loops are state-passing iterations ([for_range], [for_downto0]) in
      the option monad.
    - [svals], a global in the source, is passed explicitly.
    - [atan2] (libm) and [G_PI] (glib) are not part of the repository and
      are taken as parameters of the development.
    - The calls of the GIMP library that read and write a stroke are the
      input and the output of [set_bezier_path].  A stroke of [n] anchors
      has [6 * n] scalars: per anchor the incoming control point, the
      anchor position and the outgoing control point.
    - [smooth_path] and [run] work on the list of strokes of the path;
      the dialog of the plug-in is a parameter of [run]. *)

From stdpp Require Import base option list numbers.
From Stdlib Require Import QArith Qcanon Lia Lqa.
From Stdlib Require Import Floats.

Open Scope Qc_scope.

(** ** Doubles and arrays *)

Abbreviation gdouble := Qc (only parsing).

(** A floating-point literal of the source, read as an exact rational. *)
Definition lit (q : Q) : gdouble := Q2Qc q.
Arguments lit q%_Q.

Abbreviation GArray := (list Qc) (only parsing).

(** [g_array_index (a, gdouble, i)] used as an rvalue. *)
Definition g_array_index (a : GArray) (i : nat) : option gdouble := a !! i.

(** [g_array_index (a, gdouble, i) = v], and [ctlpts[i] = v]. *)
Definition g_array_store (a : GArray) (i : nat) (v : gdouble) : option GArray :=
  if decide (i < length a)%nat then Some (<[i := v]> a) else None.

Definition g_array_append_val (a : GArray) (v : gdouble) : GArray := a ++ [v].

Definition g_array_prepend_val (a : GArray) (v : gdouble) : GArray := v :: a.

(** Arrays are created with [clear_ = TRUE]: growing zero-fills. *)
Definition g_array_set_size (a : GArray) (n : nat) : GArray :=
  take n a ++ replicate (n - length a) 0.

Definition g_array_remove_index (a : GArray) (i : nat) : option GArray :=
  if decide (i < length a)%nat then Some (delete i a) else None.

(** ** Loops *)

(** [for (i = lo; k iterations; i++) st = body i st]. *)
Fixpoint for_up {St : Type} (k lo : nat) (body : nat -> St -> option St)
  (st : St) : option St :=
  match k with
  | O => Some st
  | S k' => st' ← body lo st; for_up k' (S lo) body st'
  end.

(** [for (i = lo; i < hi; i++)]. *)
Definition for_range {St : Type} (lo hi : nat) (body : nat -> St -> option St)
  (st : St) : option St :=
  for_up (hi - lo) lo body st.

(** [for (i = k - 1; i >= 0; i--)]. *)
Fixpoint for_downto0 {St : Type} (k : nat) (body : nat -> St -> option St)
  (st : St) : option St :=
  match k with
  | O => Some st
  | S i => st' ← body i st; for_downto0 i body st'
  end.

(** ** Settings *)

Record SmoothVals := {
  smooth_specified : Z;
  ang_min : gdouble;
  ang_max : gdouble
}.

(** A C truth value as an [int], and an [int] used as a condition. *)
Definition c_bool (b : bool) : Z := if b then 1%Z else 0%Z.
Definition c_truth (z : Z) : bool := negb (z =? 0)%Z.

(** The comparisons [a < b] and [a > b] on doubles. *)
Definition double_lt (a b : gdouble) : bool := bool_decide (a < b).
Definition double_gt (a b : gdouble) : bool := bool_decide (b < a).

(** The glib macro [ABS(a)] is [((a) < 0) ? -(a) : (a)]. *)
Definition ABS (a : gdouble) : gdouble := if double_lt a 0 then - a else a.

(** ** triagonal_solve *)

Definition triagonal_solve (asb asd : GArray) : option (GArray * GArray) :=
  let x := lit 1.0 in
  asc ← for_range 0 (length asb)
          (fun _ asc => Some (g_array_append_val asc x)) [];
  c0 ← g_array_index asc 0;
  asc ← g_array_store asc 0 (c0 * lit 0.25);
  d0 ← g_array_index asd 0;
  asd ← g_array_store asd 0 (d0 * lit 0.25);
  '(asc, asd) ← for_range 1 (length asb) (fun i '(asc, asd) =>
      cp ← g_array_index asc (i - 1);
      let id := lit 4.0 - cp in
      ci ← g_array_index asc i;
      asc ← g_array_store asc i (ci / id);
      di ← g_array_index asd i;
      dp ← g_array_index asd (i - 1);
      asd ← g_array_store asd i ((di - dp) / id);
      Some (asc, asd)) (asc, asd);
  dl ← g_array_index asd (length asb - 1);
  asb ← g_array_store asb (length asb - 1) dl;
  asb ← for_downto0 (length asb - 1) (fun i asb =>
      di ← g_array_index asd i;
      ci ← g_array_index asc i;
      bn ← g_array_index asb (i + 1);
      g_array_store asb i (di - ci * bn)) asb;
  Some (asb, asd).

(** ** One axis of set_bezier_path

    The source runs the same block twice, "First for x" on [acx] and
    "Now for y" on [acy], reusing the work arrays [asd] and [asb]. *)

(** The first half of the block (source lines 211 to 227 for x): the
    spline node values of the interior anchors, left in [asb].  The third
    component lists the lengths of [asb] at the calls of
    [triagonal_solve]. *)
Definition axis_solve (ac asd asb : GArray)
  : option (GArray * GArray * list nat) :=
  let asd := g_array_set_size asd (length ac - 2) in
  let asb := g_array_set_size asb (length ac - 2) in
  if decide (length asd = 1%nat) then
    a1 ← g_array_index ac 1;
    a0 ← g_array_index ac 0;
    a2 ← g_array_index ac 2;
    asb ← g_array_store asb 0 (lit 1.50 * a1 - lit 0.25 * a0 - lit 0.25 * a2);
    Some (asb, asd, [])
  else
    a1 ← g_array_index ac 1;
    a0 ← g_array_index ac 0;
    asd ← g_array_store asd 0 (lit 6 * a1 - a0);
    asd ← for_range 1 (length ac - 3) (fun n asd =>
        v ← g_array_index ac (n + 1);
        g_array_store asd n (lit 6 * v)) asd;
    al ← g_array_index ac (length ac - 2);
    al' ← g_array_index ac (length ac - 1);
    asd ← g_array_store asd (length ac - 3) (lit 6 * al - al');
    '(asb', asd') ← triagonal_solve asb asd;
    Some (asb', asd', [length asb]).

(** The second half of the block (source lines 228 to 239 for x): the end
    anchors are put around the node values and the two control arrays are
    filled. *)
Definition axis_controls (ac asb : GArray)
  : option (GArray * GArray * GArray) :=
  a0 ← g_array_index ac 0;
  let asb := g_array_prepend_val asb a0 in
  al ← g_array_index ac (length ac - 1);
  let asb := g_array_append_val asb al in
  '(acon1, acon2) ← for_range 1 (length ac) (fun n '(acon1, acon2) =>
      bp ← g_array_index asb (n - 1);
      bn ← g_array_index asb n;
      let h := lit 2 * bp / lit 3 + bn / lit 3 in
      let acon1 := g_array_append_val acon1 h in
      let h := bp / lit 3 + lit 2 * bn / lit 3 in
      let acon2 := g_array_append_val acon2 h in
      Some (acon1, acon2)) ([], []);
  Some (asb, acon1, acon2).

Definition axis_pass (ac asd asb : GArray)
  : option (GArray * GArray * GArray * GArray * list nat) :=
  '(asb, asd, calls) ← axis_solve ac asd asb;
  '(asb, acon1, acon2) ← axis_controls ac asb;
  Some (asd, asb, acon1, acon2, calls).

(** "Remove first two and last two control points if closed", for one of
    the four control arrays. *)
Definition strip_padding (closed : bool) (acon : GArray) : option GArray :=
  if closed then
    acon ← g_array_remove_index acon (length acon - 1);
    g_array_remove_index acon 0
  else Some acon.

(** A stroke as [gimp_vectors_stroke_get_points] returns it and as
    [gimp_vectors_stroke_new_from_points] takes it: [num_points] is the
    length of [ctlpts]. *)
Record Stroke := {
  ctlpts : list gdouble;
  closed : bool
}.

Definition num_points (s : Stroke) : nat := length (ctlpts s).

(** The four control arrays of a stroke and the solver calls made. *)
Record Controls := {
  aconx1 : GArray;
  aconx2 : GArray;
  acony1 : GArray;
  acony2 : GArray;
  solver_calls : list nat
}.

(** Source lines 181 to 282: from the anchor arrays to the stripped
    control arrays. *)
Definition bezier_controls (s : Stroke) : option Controls :=
  let ctl := ctlpts s in
  let np := num_points s in
  let len := (np / 6)%nat in
  let acx := g_array_set_size [] len in
  let acy := g_array_set_size [] len in
  '(acx, acy) ← for_range 0 (length acx) (fun n '(acx, acy) =>
      vx ← ctl !! (n * 6 + 2)%nat;
      acx ← g_array_store acx n vx;
      vy ← ctl !! (n * 6 + 3)%nat;
      acy ← g_array_store acy n vy;
      Some (acx, acy)) (acx, acy);
  '(acx, acy) ←
    (if closed s then
       v ← ctl !! (np - 4)%nat; let acx := g_array_prepend_val acx v in
       v ← ctl !! (np - 3)%nat; let acy := g_array_prepend_val acy v in
       v ← ctl !! 2%nat; let acx := g_array_append_val acx v in
       v ← ctl !! 3%nat; let acy := g_array_append_val acy v in
       v ← ctl !! 8%nat; let acx := g_array_append_val acx v in
       v ← ctl !! 9%nat; let acy := g_array_append_val acy v in
       Some (acx, acy)
     else Some (acx, acy));
  '(asd, asb, x1, x2, callsx) ← axis_pass acx [] [];
  '(_, _, y1, y2, callsy) ← axis_pass acy asd asb;
  x1 ← strip_padding (closed s) x1;
  x2 ← strip_padding (closed s) x2;
  y1 ← strip_padding (closed s) y1;
  y2 ← strip_padding (closed s) y2;
  Some {| aconx1 := x1; aconx2 := x2; acony1 := y1; acony2 := y2;
          solver_calls := callsx ++ callsy |}.

(** [if (c) { ctlpts[i] = ax[k]; ctlpts[j] = ay[k]; }] *)
Definition store_pair (c : bool) (ctl : list gdouble) (i : nat) (ax : GArray)
  (j : nat) (ay : GArray) (k : nat) : option (list gdouble) :=
  if c then
    vx ← g_array_index ax k;
    ctl ← g_array_store ctl i vx;
    vy ← g_array_index ay k;
    g_array_store ctl j vy
  else Some ctl.

(** ** A stand-in for the C library, and sample inputs

    The development is parametric in [atan2] and [G_PI].  To run the model
    on sample inputs the two are instantiated here. *)

(** The value of the [double] constant [G_PI]. *)
Definition G_PI_double : gdouble :=
  lit (884279719003555 # 281474976710656).

(** A rational stand-in for [atan2], in units of [G_PI_double]: the angle
    is interpolated linearly in the ratio of the smaller to the larger
    coordinate within each octant, so it is exact on the axes and the
    diagonals, and it is 0 at the origin. *)
Definition atan2_approx (y x : gdouble) : gdouble :=
  let pi := G_PI_double in
  let ax := ABS x in
  let ay := ABS y in
  let phi :=
    if bool_decide (x = 0) && bool_decide (y = 0) then 0
    else if double_lt ax ay then pi / lit 2 - pi / lit 4 * (ax / ay)
    else pi / lit 4 * (ay / ax) in
  if double_lt x 0 then (if double_lt y 0 then - (pi - phi) else pi - phi)
  else (if double_lt y 0 then - phi else phi).

(** The initial value of [svals] in the source, all corners smoothed. *)
Definition svals_default : SmoothVals :=
  {| smooth_specified := 0; ang_min := lit 60.0; ang_max := lit 120.0 |}.

(** Settings that only smooth corners between 170 and 180 degrees. *)
Definition svals_blunt : SmoothVals :=
  {| smooth_specified := 1; ang_min := lit 170; ang_max := lit 180 |}.

(** A stroke from the anchor positions, every control point on its
    anchor. *)
Definition stroke_of_anchors (cl : bool) (anchors : list (Q * Q)) : Stroke :=
  {| ctlpts := anchors ≫= (fun '(x, y) =>
                 [lit x; lit y; lit x; lit y; lit x; lit y]);
     closed := cl |}.

(** Four open anchors in a right-angled zig-zag. *)
Definition zigzag : Stroke :=
  stroke_of_anchors false [(0, 0); (10, 0); (10, 10); (0, 10)]%Q.

(** A closed triangle. *)
Definition triangle : Stroke :=
  stroke_of_anchors true [(0, 0); (10, 0); (10, 10)]%Q.

(** Four open anchors on a line with uniform spacing. *)
Definition on_a_line : Stroke :=
  stroke_of_anchors false [(1, 2); (3, 5); (5, 8); (7, 11)]%Q.

(** Two anchors. *)
Definition two_anchors : Stroke :=
  stroke_of_anchors false [(0, 0); (10, 0)]%Q.

(** The scalars of a stroke as plain fractions. *)
Definition scalars (s : option Stroke) : option (list Q) :=
  s ≫= fun s => Some (map this (ctlpts s)).

(** The stroke with its list of anchors rotated by one position: the first
    record of 6 scalars goes to the end. *)
Definition rotate_anchors (s : Stroke) : Stroke :=
  {| ctlpts := drop 6 (ctlpts s) ++ take 6 (ctlpts s); closed := closed s |}.

(** The initial angles of [svals] with the restriction to corners switched
    on: corners between 60 and 120 degrees are smoothed. *)
Definition svals_corners : SmoothVals :=
  {| smooth_specified := 1; ang_min := lit 60.0; ang_max := lit 120.0 |}.


(** The anchors of [zigzag] with control points away from the anchors. *)
Definition zigzag_handles : Stroke :=
  {| ctlpts := map lit [-2; 1; 0; 0; 3; 1;
                        8; -1; 10; 0; 11; 2;
                        12; 9; 10; 10; 9; 12;
                        1; 11; 0; 10; -3; 9]%Q;
     closed := false |}.

(** The x coordinates of the anchors of [zigzag]. *)
Definition zigzag_x : list Qc := map lit [0; 10; 10; 0]%Q.

(** * The solver and the corner test on binary64 doubles

    Exact rationals leave out what the machine does to a [gdouble].  Here
    [triagonal_solve] and [angle_between] are embedded once more with
    IEEE 754 binary64 numbers (Rocq's primitive floats) for [gdouble]:
    every operation rounds to nearest, overflows to an infinity, yields
    NaN and keeps the sign of a zero as the machine does. *)
Module Binary64.

Local Open Scope float_scope.

(** ** Arrays of doubles *)

Definition g_array_index (a : list float) (i : nat) : option float := a !! i.

Definition g_array_store (a : list float) (i : nat) (v : float)
  : option (list float) :=
  if decide (i < length a)%nat then Some (<[i := v]> a) else None.

Definition g_array_append_val (a : list float) (v : float) : list float :=
  a ++ [v].

(** ** triagonal_solve *)

Definition triagonal_solve (asb asd : list float)
  : option (list float * list float) :=
  let x := 1.0 in
  asc ← for_range 0 (length asb)
          (fun _ asc => Some (g_array_append_val asc x)) [];
  c0 ← g_array_index asc 0;
  asc ← g_array_store asc 0 (c0 * 0.25);
  d0 ← g_array_index asd 0;
  asd ← g_array_store asd 0 (d0 * 0.25);
  '(asc, asd) ← for_range 1 (length asb) (fun i '(asc, asd) =>
      cp ← g_array_index asc (i - 1);
      let id := 4.0 - cp in
      ci ← g_array_index asc i;
      asc ← g_array_store asc i (ci / id);
      di ← g_array_index asd i;
      dp ← g_array_index asd (i - 1);
      asd ← g_array_store asd i ((di - dp) / id);
      Some (asc, asd)) (asc, asd);
  dl ← g_array_index asd (length asb - 1);
  asb ← g_array_store asb (length asb - 1) dl;
  asb ← for_downto0 (length asb - 1) (fun i asb =>
      di ← g_array_index asd i;
      ci ← g_array_index asc i;
      bn ← g_array_index asb (i + 1);
      g_array_store asb i (di - ci * bn)) asb;
  Some (asb, asd).

(** ** angle_between *)

Record SmoothVals := {
  smooth_specified : Z;
  ang_min : float;
  ang_max : float
}.

(** The double that glib's [G_PI] denotes, the one nearest to pi. *)
Definition G_PI : float := 0x1.921fb54442d18p+1.

Definition rad_to_deg (angle : float) : float :=
  angle * 360.0 / (2.0 * G_PI).

(** The glib macro [ABS(a)] is [((a) < 0) ? -(a) : (a)]. *)
Definition ABS (a : float) : float := if a <? 0 then - a else a.

Section Angle.

(** [atan2] of the C library. *)
Variable atan2 : float -> float -> float.

(** The value [ret] of [angle_between]. *)
Definition corner_angle (vax vay vbx vby vcx vcy : float) : float :=
  let v1x := vbx - vax in
  let v1y := vby - vay in
  let v2x := vcx - vbx in
  let v2y := vcy - vby in
  180 - ABS (rad_to_deg (atan2 ((- v1y) * v2x + v1x * v2y)
                               (v1x * v2x + v1y * v2y))).

(** The comparisons on [ret] at the end of [angle_between]. *)
Definition in_range (svals : SmoothVals) (ret : float) : bool :=
  if ang_min svals <? ang_max svals then
    (ret <? ang_max svals) && (ang_min svals <? ret)
  else
    (ret <? ang_max svals) || (ang_min svals <? ret).

Definition angle_between (svals : SmoothVals)
  (vax vay vbx vby vcx vcy : float) : Z :=
  if decide (smooth_specified svals = 0%Z) then (-1)%Z
  else c_bool (in_range svals (corner_angle vax vay vbx vby vcx vcy)).

End Angle.

(** ** The system of the solver, and a stand-in for [atan2] *)

(** Entry [(i, j)] of the matrix: 4 on the main diagonal, 1 next to it. *)
Definition tridiag_entry (i j : nat) : float :=
  if decide (i = j) then 4
  else if decide (i = S j \/ j = S i) then 1 else 0.

(** The product of the square matrix [A] with the vector [x], every row
    summed from its last term to its first. *)
Definition mat_vec (A : nat -> nat -> float) (x : list float) : list float :=
  let n := length x in
  map (fun i =>
         foldr add 0 (map (fun j => A i j * default 0 (x !! j)) (seq 0 n)))
      (seq 0 n).

(** Whether every entry of [a] lies within the relative tolerance [tol] of
    the entry of [b] at its place.  A comparison with NaN is false. *)
Definition within_rel (tol : float) (a b : list float) : bool :=
  bool_decide (length a = length b) &&
  forallb (fun p => abs (p.1 - p.2) <=? tol * abs p.2) (zip a b).

(** Whether the solver, run on [rhs], returns an [x] whose product with the
    matrix is within [tol] of [rhs]. *)
Definition solves_within (tol : float) (rhs : list float) : option bool :=
  '(x, _) ← triagonal_solve (replicate (length rhs) 0) rhs;
  Some (within_rel tol (mat_vec tridiag_entry x) rhs).

(** A stand-in for [atan2] that has the values C99 (F.10.1.4) prescribes
    where an argument is a zero: [atan2 (±0, -0) = ±pi],
    [atan2 (±0, +0) = ±0], [atan2 (±0, x) = ±pi] for [x < 0] and [±0] for
    [x > 0], [atan2 (y, ±0) = ±pi/2].  Elsewhere the angle is interpolated
    within the octant. *)
Definition atan2_approx (y x : float) : float :=
  let ax := abs x in
  let ay := abs y in
  let phi :=
    if is_zero x && is_zero y then 0
    else if ax <? ay then G_PI / 2 - G_PI / 4 * (ax / ay)
    else G_PI / 4 * (ay / ax) in
  let r := if get_sign x then G_PI - phi else phi in
  if get_sign y then - r else r.


(** The default tolerance of a round-trip test, the double nearest to
    [1e-9]. *)
Definition tolerance : float := 0x1.12e0be826d695p-30.


(** Settings under which a corner is smoothed when its angle is below 90
    or above 180 degrees: [ang_max] is not above [ang_min], so the two
    comparisons are joined by "or". *)
Definition svals_sharp : SmoothVals :=
  {| smooth_specified := 1; ang_min := 180; ang_max := 90 |}.

End Binary64.

Section Smoothing.

(** [atan2] of the C library and glib's [G_PI]. *)
Variable atan2 : gdouble -> gdouble -> gdouble.
Variable G_PI : gdouble.

Definition rad_to_deg (angle : gdouble) : gdouble :=
  angle * lit 360.0 / (lit 2.0 * G_PI).

(** The value [ret] of [angle_between].  A rational zero has no sign:
    where a neighbouring point lies on the corner, both arguments of
    [atan2] are zero, and the source hands [atan2] zeros with sign bits,
    which [Binary64.corner_angle] has and this definition has not. *)
Definition corner_angle (vax vay vbx vby vcx vcy : gdouble) : gdouble :=
  let v1x := vbx - vax in
  let v1y := vby - vay in
  let v2x := vcx - vbx in
  let v2y := vcy - vby in
  lit 180 - ABS (rad_to_deg (atan2 (- v1y * v2x + v1x * v2y)
                                   (v1x * v2x + v1y * v2y))).

(** The comparisons on [ret] at the end of [angle_between]. *)
Definition in_range (svals : SmoothVals) (ret : gdouble) : bool :=
  if double_gt (ang_max svals) (ang_min svals) then
    double_lt ret (ang_max svals) && double_gt ret (ang_min svals)
  else
    double_lt ret (ang_max svals) || double_gt ret (ang_min svals).

Definition angle_between (svals : SmoothVals)
  (vax vay vbx vby vcx vcy : gdouble) : Z :=
  if decide (smooth_specified svals = 0%Z) then (-1)%Z
  else c_bool (in_range svals (corner_angle vax vay vbx vby vcx vcy)).

(** [angle_between] applied to six entries of [ctlpts], as a condition. *)
Definition ctl_angle (svals : SmoothVals) (ctl : list gdouble)
  (i1 i2 i3 i4 i5 i6 : nat) : option bool :=
  vax ← ctl !! i1; vay ← ctl !! i2;
  vbx ← ctl !! i3; vby ← ctl !! i4;
  vcx ← ctl !! i5; vcy ← ctl !! i6;
  Some (c_truth (angle_between svals vax vay vbx vby vcx vcy)).

(** [b && e] with C's short-circuit evaluation. *)
Definition c_and (b : bool) (e : option bool) : option bool :=
  if b then e else Some false.

(** The first statement of the body of the loop over "the interior
    points" (source lines 295 to 313): the outgoing control point of
    anchor [n].  [np] is [num_points] and [len] the number of anchors. *)
Definition update_con1 (svals : SmoothVals) (closed : bool) (c : Controls)
  (np : nat) (n : nat) (ctl : list gdouble) : option (list gdouble) :=
  let x1 := aconx1 c in
  let y1 := acony1 c in
  if decide (n = 0)%nat then
    t ← c_and closed (ctl_angle svals ctl (np - 4) (np - 3) 2 3 8 9);
    if (t : bool) then store_pair true ctl (n * 6 + 4) x1 (n * 6 + 5) y1 n
    else store_pair (negb closed && (smooth_specified svals =? 0)%Z)
           ctl (n * 6 + 4) x1 (n * 6 + 5) y1 n
  else
    t ← ctl_angle svals ctl (n * 6 - 4) (n * 6 - 3)
          (n * 6 + 2) (n * 6 + 3) (n * 6 + 8) (n * 6 + 9);
    store_pair t ctl (n * 6 + 4) x1 (n * 6 + 5) y1 n.

(** The second statement of the body (source lines 314 to 333): the
    incoming control point of anchor [n + 1]. *)
Definition update_con2 (svals : SmoothVals) (closed : bool) (c : Controls)
  (np len : nat) (n : nat) (ctl : list gdouble) : option (list gdouble) :=
  let x2 := aconx2 c in
  let y2 := acony2 c in
  if decide (n = len - 2)%nat then
    t ← c_and closed (ctl_angle svals ctl (np - 10) (np - 9)
                        (np - 4) (np - 3) 2 3);
    if (t : bool) then store_pair true ctl (n * 6 + 6) x2 (n * 6 + 7) y2 n
    else store_pair (negb closed && (smooth_specified svals =? 0)%Z)
           ctl (n * 6 + 6) x2 (n * 6 + 7) y2 n
  else
    t ← ctl_angle svals ctl (n * 6 + 2) (n * 6 + 3)
          (n * 6 + 8) (n * 6 + 9) (n * 6 + 14) (n * 6 + 15);
    store_pair t ctl (n * 6 + 6) x2 (n * 6 + 7) y2 n.

(** Source lines 284 to 345: the update of [ctlpts]. *)
Definition update_ctlpts (svals : SmoothVals) (closed : bool)
  (c : Controls) (ctl : list gdouble) : option (list gdouble) :=
  let np := length ctl in
  let len := (np / 6)%nat in
  let x1 := aconx1 c in let x2 := aconx2 c in
  let y1 := acony1 c in let y2 := acony2 c in
  ctl ←
    (if closed then
       t ← ctl_angle svals ctl (np - 4) (np - 3) 2 3 8 9;
       store_pair t ctl 0 x2 1 y2 (length x2 - 1)
     else Some ctl);
  ctl ← for_range 0 (len - 1) (fun n ctl =>
      ctl ← update_con1 svals closed c np n ctl;
      update_con2 svals closed c np len n ctl) ctl;
  if closed then
    t ← ctl_angle svals ctl (np - 10) (np - 9) (np - 4) (np - 3) 2 3;
    store_pair t ctl (np - 2) x1 (np - 1) y1 (length x1 - 1)
  else Some ctl.

(** The stroke handed to [gimp_vectors_stroke_new_from_points]. *)
Definition set_bezier_path (svals : SmoothVals) (s : Stroke) : option Stroke :=
  if decide (num_points s < 18)%nat then Some s
  else
    c ← bezier_controls s;
    ctl ← update_ctlpts svals (closed s) c (ctlpts s);
    Some {| ctlpts := ctl; closed := closed s |}.

(** ** smooth_path

    The strokes of the old vectors object, as
    [gimp_vectors_stroke_get_points] returns them in the order of
    [gimp_vectors_get_strokes], are the input; the strokes that
    [set_bezier_path] adds to the new vectors object, in the order of the
    calls, are the output.  The calls that create the new object, put it
    in the place of the old one and name it are outside the model. *)
Definition smooth_path (svals : SmoothVals) (strokes : list Stroke)
  : option (list Stroke) :=
  for_range 0 (length strokes) (fun n new_vectors =>
      s ← strokes !! n;
      out ← set_bezier_path svals s;
      Some (new_vectors ++ [out])) [].

(** ** run *)

(** GIMP's [GimpPDBStatusType]. *)
Inductive GimpPDBStatusType :=
  | GIMP_PDB_EXECUTION_ERROR
  | GIMP_PDB_CALLING_ERROR
  | GIMP_PDB_PASS_THROUGH
  | GIMP_PDB_SUCCESS
  | GIMP_PDB_CANCEL.

(** The values of GIMP's [GimpRunMode]. *)
Definition GIMP_RUN_INTERACTIVE : Z := 0.
Definition GIMP_RUN_NONINTERACTIVE : Z := 1.
Definition GIMP_RUN_WITH_LAST_VALS : Z := 2.

(** The parameters that [run] reads besides the image and the path:
    [param[0]] and [param[3]] to [param[5]].  [run] reads [param[0]] to
    [param[2]] before it looks at [nparams]: the parameter array is taken
    to hold them. *)
Record Params := {
  p_run_mode : Z;
  p_smooth : Z;
  p_angle_min : gdouble;
  p_angle_max : gdouble
}.

(** What [run] reads and writes: the global [svals], the settings that
    GIMP keeps under [PLUG_IN_PROC] between runs, the strokes of the path
    and the number of calls of [gimp_displays_flush]. *)
Record PlugIn := {
  pi_svals : SmoothVals;
  pi_data : option SmoothVals;
  pi_strokes : list Stroke;
  pi_flushes : nat
}.

(** [gimp_get_data (PLUG_IN_PROC, &svals)] overwrites [svals] when
    settings are kept under the name. *)
Definition gimp_get_data (st : PlugIn) : PlugIn :=
  match pi_data st with
  | Some v => {| pi_svals := v; pi_data := pi_data st;
                 pi_strokes := pi_strokes st; pi_flushes := pi_flushes st |}
  | None => st
  end.

(** Source lines 522 to 537, what [run] does after the [switch].  The
    undo group that is opened and closed around [smooth_path] is not part
    of the state. *)
Definition run_finish (run_mode : Z) (status : GimpPDBStatusType)
  (st : PlugIn) : option (GimpPDBStatusType * PlugIn) :=
  match status with
  | GIMP_PDB_SUCCESS =>
    new ← smooth_path (pi_svals st) (pi_strokes st);
    let flushes :=
      if decide (run_mode <> GIMP_RUN_NONINTERACTIVE)
      then S (pi_flushes st) else pi_flushes st in
    let data :=
      if decide (run_mode = GIMP_RUN_INTERACTIVE)
      then Some (pi_svals st) else pi_data st in
    Some (status, {| pi_svals := pi_svals st; pi_data := data;
                     pi_strokes := new; pi_flushes := flushes |})
  | _ => Some (status, st)
  end.

(** [run]: the result is the status left in [values[0]] and the state.
    [smooth_dialog] stands for the dialog: from the settings shown it
    gives the settings as the user leaves them and whether OK was
    pressed. *)
Definition run (smooth_dialog : SmoothVals -> SmoothVals * bool)
  (nparams : Z) (param : Params) (st : PlugIn)
  : option (GimpPDBStatusType * PlugIn) :=
  let status := GIMP_PDB_SUCCESS in
  let run_mode := p_run_mode param in
  if decide (run_mode = GIMP_RUN_INTERACTIVE) then
    let st := gimp_get_data st in
    let '(sv, ok) := smooth_dialog (pi_svals st) in
    let st := {| pi_svals := sv; pi_data := pi_data st;
                 pi_strokes := pi_strokes st; pi_flushes := pi_flushes st |} in
    if negb ok then Some (status, st)
    else run_finish run_mode status st
  else if decide (run_mode = GIMP_RUN_NONINTERACTIVE) then
    let status :=
      if decide (nparams <> 6%Z) then GIMP_PDB_CALLING_ERROR else status in
    let st :=
      match status with
      | GIMP_PDB_SUCCESS =>
        {| pi_svals := {| smooth_specified := p_smooth param;
                          ang_min := p_angle_min param;
                          ang_max := p_angle_max param |};
           pi_data := pi_data st; pi_strokes := pi_strokes st;
           pi_flushes := pi_flushes st |}
      | _ => st
      end in
    run_finish run_mode status st
  else if decide (run_mode = GIMP_RUN_WITH_LAST_VALS) then
    run_finish run_mode GIMP_PDB_PASS_THROUGH st
  else run_finish run_mode status st.


(** ** The linear system and the sweeps of the solver *)

(** Entry [(i, j)] of the matrix of the system: 4 on the main diagonal and
    1 on the two diagonals next to it. *)
Definition tridiag_entry (i j : nat) : gdouble :=
  if decide (i = j) then lit 4
  else if decide (i = S j \/ j = S i) then 1 else 0.

(** The sum of a list of doubles. *)
Definition sum_doubles (l : list gdouble) : gdouble := foldr Qcplus 0 l.

(** The product of the square matrix [A] with the vector [x]. *)
Definition mat_vec (A : nat -> nat -> gdouble) (x : list gdouble)
  : list gdouble :=
  let n := length x in
  map (fun i =>
         sum_doubles (map (fun j => A i j * default 0 (x !! j)) (seq 0 n)))
      (seq 0 n).

(** The value of [asc[i]] after the forward sweep. *)
Fixpoint sweep_c (i : nat) : gdouble :=
  match i with
  | O => lit 1.0 * lit 0.25
  | S j => lit 1.0 / (lit 4.0 - sweep_c j)
  end.

(** The value of [asd[i]] after the forward sweep on the right-hand side
    [rhs]. *)
Fixpoint sweep_d (rhs : list gdouble) (i : nat) : gdouble :=
  match i with
  | O => default 0 (rhs !! O) * lit 0.25
  | S j => (default 0 (rhs !! S j) - sweep_d rhs j) / (lit 4.0 - sweep_c j)
  end.

(** [X p] when [p] lies in the range [k .. k + m - 1] and 0 elsewhere. *)
Definition window (X : nat -> gdouble) (k m p : nat) : gdouble :=
  if decide (k <= p < k + m)%nat then X p else 0.

(** The right-hand side that [axis_solve] builds in [asd] from the anchor
    values [ac]. *)
Definition axis_rhs (ac : list gdouble) : list gdouble :=
  let m := length ac in
  let A j := default 0 (ac !! j) in
  map (fun i =>
         if decide (i = m - 3)%nat then lit 6 * A (m - 2)%nat - A (m - 1)%nat
         else if decide (i = 0)%nat then lit 6 * A 1%nat - A 0%nat
         else lit 6 * A (i + 1)%nat)
      (seq 0 (m - 2)).

(** ** Anchors of a stroke *)

(** Scalar [off] of anchor record [i], 0 when there is no such scalar. *)
Definition scalar (ctl : list gdouble) (i off : nat) : gdouble :=
  default 0 (ctl !! (i * 6 + off)%nat).

(** The anchor values of one axis ([off] is 2 for x and 3 for y) as
    [bezier_controls] hands them to [axis_pass]: for a closed stroke the
    last anchor comes first and the first two anchors come again at the
    end. *)
Definition axis_values (cl : bool) (ctl : list gdouble) (off : nat)
  : list gdouble :=
  let len := (length ctl / 6)%nat in
  let a := map (fun i => scalar ctl i off) (seq 0 len) in
  if cl then
    default 0 (ctl !! (length ctl - 6 + off)%nat)
      :: a ++ [scalar ctl 0 off] ++ [scalar ctl 1 off]
  else a.

(** A control array without its first and last entry when the stroke is
    closed. *)
Definition stripped (cl : bool) (acon : list gdouble) : list gdouble :=
  if cl then delete 0%nat (delete (length acon - 1)%nat acon) else acon.

(** ** What the update of [ctlpts] computes *)

(** The number of entries of each control array of a stroke. *)
Definition control_count (s : Stroke) : nat :=
  if closed s then (num_points s / 6)%nat else (num_points s / 6 - 1)%nat.

(** The corner test of [angle_between] on anchors [p], [i] and [q] of
    [ctl], as a condition. *)
Definition corner_test (svals : SmoothVals) (ctl : list gdouble)
  (p i q : nat) : bool :=
  c_truth (angle_between svals (scalar ctl p 2) (scalar ctl p 3)
             (scalar ctl i 2) (scalar ctl i 3)
             (scalar ctl q 2) (scalar ctl q 3)).

(** Whether the controls of anchor [i] of a stroke of [n] anchors are
    replaced: the corner test with the neighbours of [i], taken around the
    cycle when the stroke is closed; at the two ends of an open stroke,
    whether [smooth_specified] is off. *)
Definition smoothed (svals : SmoothVals) (cl : bool) (ctl : list gdouble)
  (n i : nat) : bool :=
  if cl then corner_test svals ctl ((i + n - 1) mod n) i ((i + 1) mod n)
  else if decide (i = 0 \/ i = n - 1)%nat then (smooth_specified svals =? 0)%Z
  else corner_test svals ctl (i - 1) i (i + 1).

(** Entry [j] of [ctlpts] after the update, for a stroke of [n] anchors:
    scalars 4 and 5 of anchor [i] come from [aconx1] and [acony1] at [i],
    scalars 0 and 1 from [aconx2] and [acony2] at the segment before [i],
    scalars 2 and 3 stay. *)
Definition expected (svals : SmoothVals) (cl : bool) (c : Controls)
  (ctl : list gdouble) (n j : nat) : option gdouble :=
  let i := (j / 6)%nat in
  let r := (j mod 6)%nat in
  let out := (cl || bool_decide (i < n - 1)%nat) && smoothed svals cl ctl n i in
  let inc := (cl || bool_decide (0 < i)%nat) && smoothed svals cl ctl n i in
  if decide (r = 4)%nat then if out then aconx1 c !! i else ctl !! j
  else if decide (r = 5)%nat then if out then acony1 c !! i else ctl !! j
  else if decide (r = 0)%nat then
    if inc then aconx2 c !! ((i + n - 1) mod n)%nat else ctl !! j
  else if decide (r = 1)%nat then
    if inc then acony2 c !! ((i + n - 1) mod n)%nat else ctl !! j
  else ctl !! j.

(** [ctl'] holds the final values below index [b] and the original values
    from [b] on. *)
Definition updated_below (svals : SmoothVals) (cl : bool) (c : Controls)
  (ctl : list gdouble) (n b : nat) (ctl' : list gdouble) : Prop :=
  length ctl' = length ctl /\
  forall j, (j < length ctl)%nat ->
    ctl' !! j = if decide (j < b)%nat then expected svals cl c ctl n j
                else ctl !! j.

(** The value of [(gdouble) i] for a non-negative integer [i]. *)
Fixpoint nat_to_double (i : nat) : gdouble :=
  match i with
  | O => 0
  | S j => nat_to_double j + 1
  end.

(** ** Rotation of the anchor list *)

(** Two arrays of the same length whose entries differ by at most [tol]. *)
Definition close_to (tol : gdouble) (a b : list gdouble) : bool :=
  bool_decide (length a = length b) &&
  forallb (fun p => bool_decide (ABS (p.1 - p.2) <= tol)) (zip a b).

(** Whether smoothing the stroke with its anchor list rotated by one
    position gives, within [tol], the rotated result of smoothing the
    stroke. *)
Definition rotation_consistent (svals : SmoothVals) (tol : gdouble)
  (s : Stroke) : option bool :=
  o ← set_bezier_path svals s;
  o' ← set_bezier_path svals (rotate_anchors s);
  Some (close_to tol (ctlpts o') (ctlpts (rotate_anchors o))).

(** ** Spline nodes and their Bezier control points *)

(** Entry [i] of an array, 0 outside of it. *)
Definition entry (l : list gdouble) (i : nat) : gdouble := default 0 (l !! i).

(** [b] holds the spline node values for the anchor values [ac]: its two
    end values are the end anchors, and around every interior anchor [k]
    [b (k - 1) + 4 * b k + b (k + 1) = 6 * a k]. *)
Definition spline_nodes (ac b : list gdouble) : Prop :=
  length b = length ac /\
  entry b 0 = entry ac 0 /\
  entry b (length ac - 1) = entry ac (length ac - 1) /\
  forall k, (1 <= k <= length ac - 2)%nat ->
    entry b (k - 1) + lit 4 * entry b k + entry b (k + 1)
    = lit 6 * entry ac k.

(** [c1] and [c2] hold, per segment, the two inner Bezier control values
    at one third and two thirds between consecutive nodes of [b]. *)
Definition bezier_of_nodes (b c1 c2 : list gdouble) : Prop :=
  length c1 = (length b - 1)%nat /\ length c2 = (length b - 1)%nat /\
  forall j, (j < length b - 1)%nat ->
    c1 !! j = Some (lit 2 * entry b j / lit 3 + entry b (S j) / lit 3) /\
    c2 !! j = Some (entry b j / lit 3 + lit 2 * entry b (S j) / lit 3).

(** ** Moving a stroke *)



(** ** Affine maps of the plane and the direction of a stroke *)

(** The map [(x, y) |-> (xx x + xy y + tx, yx x + yy y + ty)]. *)
Record Affine := {
  m_xx : gdouble; m_xy : gdouble; m_tx : gdouble;
  m_yx : gdouble; m_yy : gdouble; m_ty : gdouble
}.

(** Every point of [ctlpts] mapped by [m]: a point has its x coordinate
    at an even position and its y coordinate right after it. *)
Definition affine_map (m : Affine) (ctl : list gdouble) : list gdouble :=
  imap (fun j v =>
          if Nat.even j then m_xx m * v + m_xy m * entry ctl (S j) + m_tx m
          else m_yx m * entry ctl (j - 1) + m_yy m * v + m_ty m) ctl.

Definition affine_stroke (m : Affine) (s : Stroke) : Stroke :=
  {| ctlpts := affine_map m (ctlpts s); closed := closed s |}.

(** The points of [ctlpts] in the opposite order: the anchors are run
    through backwards and the incoming and the outgoing control point of
    each anchor change places. *)
Definition reverse_points (ctl : list gdouble) : list gdouble :=
  imap (fun j _ =>
          entry (reverse ctl) (if Nat.even j then S j else (j - 1)%nat)) ctl.

Definition reverse_stroke (s : Stroke) : Stroke :=
  {| ctlpts := reverse_points (ctlpts s); closed := closed s |}.

(** ** Sample inputs for the maps and for [run] *)

(** A quarter turn about the origin, followed by a shift by [(5, 0)]. *)
Definition quarter_turn : Affine :=
  {| m_xx := 0; m_xy := lit (-1); m_tx := lit 5;
     m_yx := lit 1; m_yy := 0; m_ty := 0 |}.

(** A non-interactive call that turns the restriction to corners on. *)
Definition call_noninteractive : Params :=
  {| p_run_mode := GIMP_RUN_NONINTERACTIVE; p_smooth := 1;
     p_angle_min := lit 60; p_angle_max := lit 120 |}.

(** A path of two strokes, with the initial settings and nothing stored. *)
Definition plug_in_start : PlugIn :=
  {| pi_svals := svals_default; pi_data := None;
     pi_strokes := [zigzag; two_anchors]; pi_flushes := 0 |}.

(** A dialog that is confirmed without changes. *)
Definition dialog_ok (sv : SmoothVals) : SmoothVals * bool := (sv, true).

(** The similarity of the plane that turns and scales like the
    multiplication by the complex number [a + b i], after a reflection in
    the x axis when [sg] is [-1], and then shifts by [(tx, ty)]. *)
Definition similarity (a b sg tx ty : gdouble) : Affine :=
  {| m_xx := a; m_xy := - (sg * b); m_tx := tx;
     m_yx := b; m_yy := sg * a; m_ty := ty |}.

(** ** Strokes without coinciding neighbours *)

(** Whether no anchor of the stroke lies on the anchor after it; on a
    closed stroke the anchor after the last one is the first. *)
Definition distinct_neighbours (cl : bool) (ctl : list gdouble) (n : nat)
  : bool :=
  forallb (fun i =>
             negb (bool_decide (scalar ctl i 2
                                = scalar ctl ((i + 1) mod n) 2)
                   && bool_decide (scalar ctl i 3
                                   = scalar ctl ((i + 1) mod n) 3)))
          (seq 0 (if cl then n else n - 1)).

(** * Properties *)

(** ** Arithmetic on doubles *)

Lemma lit_1 : lit 1.0 = 1. Proof. by apply Qc_is_canon. Qed.
Lemma lit_2 : lit 2 = 1 + 1. Proof. by apply Qc_is_canon. Qed.
Lemma lit_2_0 : lit 2.0 = 1 + 1. Proof. by apply Qc_is_canon. Qed.
Lemma lit_3 : lit 3 = 1 + 1 + 1. Proof. by apply Qc_is_canon. Qed.
Lemma lit_4 : lit 4 = 1 + 1 + 1 + 1. Proof. by apply Qc_is_canon. Qed.
Lemma lit_4_0 : lit 4.0 = 1 + 1 + 1 + 1. Proof. by apply Qc_is_canon. Qed.
Lemma lit_6 : lit 6 = 1 + 1 + 1 + 1 + 1 + 1. Proof. by apply Qc_is_canon. Qed.
Lemma lit_quarter : lit 0.25 = 1 / (1 + 1 + 1 + 1).
Proof. by apply Qc_is_canon. Qed.
Lemma lit_1_50 : lit 1.50 = (1 + 1 + 1) / (1 + 1).
Proof. by apply Qc_is_canon. Qed.

(** Literals as polynomial expressions, for [ring] and [field]. *)
Ltac lits :=
  rewrite ?lit_1, ?lit_2, ?lit_2_0, ?lit_3, ?lit_4, ?lit_4_0, ?lit_6,
    ?lit_quarter, ?lit_1_50.

(** Linear order goals on doubles, through [Q]. *)
Ltac qc_order :=
  unfold lit in *;
  repeat match goal with
  | H : context [Qclt] |- _ => unfold Qclt in H
  | H : context [Qcle] |- _ => unfold Qcle in H
  end;
  unfold Qclt, Qcle, Qcminus, Qcplus, Qcopp, Qcmult, Q2Qc in *;
  cbn [this] in *; rewrite ?Qred_correct in *; lra.

Lemma Qc_pos_neq0 (a : Qc) : 0 < a -> a <> 0.
Proof. intros H E. rewrite E in H. by apply Qclt_not_eq in H. Qed.

(** ** Arrays *)

Lemma g_array_store_lt (a : GArray) i v :
  (i < length a)%nat -> g_array_store a i v = Some (<[i := v]> a).
Proof. intros H. unfold g_array_store. by rewrite decide_True. Qed.

Lemma g_array_remove_index_lt (a : GArray) i :
  (i < length a)%nat -> g_array_remove_index a i = Some (delete i a).
Proof. intros H. unfold g_array_remove_index. by rewrite decide_True. Qed.

Lemma g_array_set_size_length (a : GArray) n :
  length (g_array_set_size a n) = n.
Proof.
  unfold g_array_set_size.
  rewrite length_app, length_take, length_replicate. lia.
Qed.

(** ** Loops *)

Lemma for_up_inv {St : Type} (P : nat -> St -> Prop) body k :
  forall lo st,
    P lo st ->
    (forall i s, (lo <= i < lo + k)%nat -> P i s ->
                 exists s', body i s = Some s' /\ P (S i) s') ->
    exists s', for_up k lo body st = Some s' /\ P (lo + k)%nat s'.
Proof.
  induction k as [|k IH]; intros lo st H0 Hstep; simpl.
  - exists st. by rewrite Nat.add_0_r.
  - destruct (Hstep lo st) as (s1 & E1 & P1); [lia|done|].
    rewrite E1. simpl.
    destruct (IH (S lo) s1 P1) as (s2 & E2 & P2).
    { intros i s Hi. apply Hstep. lia. }
    exists s2. split; [done|].
    by replace (lo + S k)%nat with (S lo + k)%nat by lia.
Qed.

Lemma for_range_inv {St : Type} (P : nat -> St -> Prop) body lo hi st :
  (lo <= hi)%nat ->
  P lo st ->
  (forall i s, (lo <= i < hi)%nat -> P i s ->
               exists s', body i s = Some s' /\ P (S i) s') ->
  exists s', for_range lo hi body st = Some s' /\ P hi s'.
Proof.
  intros Hle H0 Hstep. unfold for_range.
  destruct (for_up_inv P body (hi - lo) lo st H0) as (s' & E & HP).
  { intros i s Hi. apply Hstep. lia. }
  exists s'. split; [done|]. by replace hi with (lo + (hi - lo))%nat by lia.
Qed.

Lemma for_downto0_inv {St : Type} (P : nat -> St -> Prop) body k :
  forall st,
    P k st ->
    (forall i s, (i < k)%nat -> P (S i) s ->
                 exists s', body i s = Some s' /\ P i s') ->
    exists s', for_downto0 k body st = Some s' /\ P O s'.
Proof.
  induction k as [|k IH]; intros st H0 Hstep; simpl.
  - by exists st.
  - destruct (Hstep k st) as (s1 & E1 & P1); [lia|done|].
    rewrite E1. simpl. apply IH; [done|].
    intros i s Hi. apply Hstep. lia.
Qed.

(** ** The forward sweep and the back substitution *)

Lemma sweep_c_bounds i : 0 < sweep_c i /\ sweep_c i < 1.
Proof.
  induction i as [|i [IH0 IH1]]; simpl.
  - split; done.
  - assert (0 < lit 4.0 - sweep_c i) as Hp by qc_order.
    assert (1 < lit 4.0 - sweep_c i) as Hq by qc_order.
    rewrite lit_1. split.
    + unfold Qcdiv. rewrite Qcmult_1_l. by apply Qcinv_pos.
    + apply (Qcmult_lt_mono_pos_r _ _ (lit 4.0 - sweep_c i)); [done|].
      replace (1 / (lit 4.0 - sweep_c i) * (lit 4.0 - sweep_c i)) with 1.
      * by rewrite Qcmult_1_l.
      * field. by apply Qc_pos_neq0.
Qed.

Lemma pivot_neq0 i : lit 4.0 - sweep_c i <> 0.
Proof.
  destruct (sweep_c_bounds i) as [H0 H1].
  apply Qc_pos_neq0. qc_order.
Qed.

Lemma fill_ones n x :
  for_range 0 n (fun _ asc => Some (g_array_append_val asc x)) []
  = Some (replicate n x).
Proof.
  destruct (for_range_inv (fun i asc => asc = replicate i x)
              (fun _ asc => Some (g_array_append_val asc x)) 0 n [])
    as (asc & E & ->); [lia|done| |done].
  intros i s _ ->. eexists. split; [done|].
  unfold g_array_append_val. by rewrite replicate_S_end.
Qed.

Lemma triagonal_solve_spec asb rhs :
  (1 <= length asb)%nat -> length rhs = length asb ->
  match triagonal_solve asb rhs with
  | Some (x, d) =>
    length x = length asb /\
    x !! (length asb - 1)%nat = Some (sweep_d rhs (length asb - 1)) /\
    forall i, (S i < length asb)%nat ->
      exists xn, x !! S i = Some xn /\
                 x !! i = Some (sweep_d rhs i - sweep_c i * xn)
  | None => False
  end.
Proof.
  intros Hn Hlen. unfold triagonal_solve.
  remember (length asb) as n eqn:En.
  rewrite fill_ones. cbn [mbind option_bind].
  unfold g_array_index.
  rewrite lookup_replicate_2 by lia. cbn [mbind option_bind].
  rewrite g_array_store_lt by (rewrite length_replicate; lia).
  cbn [mbind option_bind].
  destruct (lookup_lt_is_Some_2 rhs 0) as [r0 Hr0]; [lia|].
  rewrite Hr0. cbn [mbind option_bind].
  rewrite g_array_store_lt by lia. cbn [mbind option_bind].
  match goal with |- context [for_range 1 n ?body ?st] =>
    destruct (for_range_inv (fun i '(asc, asd) =>
       length asc = n /\ length asd = n /\
       (forall j, (j < i)%nat ->
          asc !! j = Some (sweep_c j) /\ asd !! j = Some (sweep_d rhs j)) /\
       (forall j, (i <= j < n)%nat ->
          asc !! j = Some (lit 1.0) /\ asd !! j = rhs !! j))
      body 1%nat n st) as ([asc asd] & E & HLc & HLd & Hdone & _)
  end.
  - lia.
  - rewrite !length_insert, length_replicate.
    split; [done|]. split; [done|]. split.
    + intros j Hj. assert (j = 0)%nat as -> by lia.
      rewrite !list_lookup_insert_eq by (rewrite ?length_replicate; lia).
      simpl. by rewrite Hr0.
    + intros j Hj. rewrite !list_lookup_insert_ne by lia.
      by rewrite lookup_replicate_2 by lia.
  - intros i [asc asd] Hi (HLc & HLd & Hlo & Hhi).
    destruct (Hlo (i - 1)%nat) as [Hc Hd]; [lia|].
    destruct (Hhi i) as [Hc1 Hd1]; [lia|].
    destruct (lookup_lt_is_Some_2 rhs i) as [ri Hri]; [lia|].
    rewrite Hc, Hc1. cbn [mbind option_bind].
    rewrite g_array_store_lt by lia. cbn [mbind option_bind].
    rewrite Hd1, Hri, Hd. cbn [mbind option_bind].
    rewrite g_array_store_lt by lia. cbn [mbind option_bind].
    eexists. split; [done|]. cbn beta iota.
    rewrite !length_insert. split; [done|]. split; [done|]. split.
    + intros j Hj. destruct (decide (j = i)) as [->|Hne].
      * rewrite !list_lookup_insert_eq by lia.
        destruct i as [|i]; [lia|]. simpl. rewrite Nat.sub_0_r, Hri. done.
      * rewrite !list_lookup_insert_ne by done. apply Hlo. lia.
    + intros j Hj. rewrite !list_lookup_insert_ne by lia. apply Hhi. lia.
  - rewrite E. cbn [mbind option_bind].
    rewrite (proj2 (Hdone (n - 1)%nat ltac:(lia))). cbn [mbind option_bind].
    rewrite g_array_store_lt by lia. cbn [mbind option_bind].
    rewrite length_insert, <- En.
    match goal with |- context [for_downto0 (n - 1) ?body ?st] =>
      destruct (for_downto0_inv (fun k x =>
        length x = n /\ x !! (n - 1)%nat = Some (sweep_d rhs (n - 1)) /\
        forall i, (k <= i)%nat -> (S i < n)%nat ->
          exists xn, x !! S i = Some xn /\
                     x !! i = Some (sweep_d rhs i - sweep_c i * xn))
        body (n - 1)%nat st) as (x & Ex & HLx & Hlast & Hx)
    end.
    + rewrite length_insert, <- En. split; [done|]. split.
      * rewrite list_lookup_insert_eq by lia. done.
      * intros i H1 H2. lia.
    + intros i x Hi (HLx & Hlast & Hx).
      destruct (Hdone i) as [Hc Hd]; [lia|].
      assert (exists xn, x !! (i + 1)%nat = Some xn) as [xn Hxn].
      { apply lookup_lt_is_Some_2. lia. }
      rewrite Hd, Hc, Hxn. cbn [mbind option_bind].
      rewrite g_array_store_lt by lia.
      eexists. split; [done|]. rewrite length_insert. split; [done|]. split.
      * rewrite list_lookup_insert_ne by lia. done.
      * intros j Hj1 Hj2. destruct (decide (j = i)) as [->|Hne].
        -- exists xn. rewrite list_lookup_insert_ne by lia.
           rewrite list_lookup_insert_eq by lia.
           by replace (S i) with (i + 1)%nat by lia.
        -- destruct (Hx j) as (xn' & H1 & H2); [lia|lia|].
           exists xn'. by rewrite !list_lookup_insert_ne by lia.
    + rewrite Ex. cbn [mbind option_bind].
      split; [done|]. split; [done|].
      intros i Hi. apply Hx; lia.
Qed.

(** ** The solver solves the system *)

Lemma tridiag_sum (X : nat -> Qc) i m : forall k,
  sum_doubles (map (fun j => tridiag_entry i j * X j) (seq k m)) =
  match i with O => 0 | S p => window X k m p end
  + lit 4 * window X k m i + window X k m (S i).
Proof.
  induction m as [|m IH]; intros k.
  - unfold window. simpl. destruct i; repeat case_decide; try lia; ring.
  - simpl. rewrite IH. unfold window, tridiag_entry.
    destruct i; repeat case_decide; try lia;
      repeat match goal with H : _ \/ _ |- _ => destruct H end;
      simplify_eq; try lia; ring.
Qed.

Lemma mat_vec_tridiag_lookup (x : list Qc) i :
  (i < length x)%nat ->
  mat_vec tridiag_entry x !! i =
  Some (match i with O => 0 | S p => default 0 (x !! p) end
        + lit 4 * default 0 (x !! i) + default 0 (x !! S i)).
Proof.
  intros Hi. unfold mat_vec.
  rewrite list_lookup_fmap, lookup_seq_lt by done. simpl.
  rewrite (tridiag_sum (fun j => default 0 (x !! j))).
  assert (forall p, window (fun j => default 0 (x !! j)) 0 (length x) p
                    = default 0 (x !! p)) as Hw.
  { intros p. unfold window. case_decide; [done|].
    by rewrite lookup_ge_None_2 by lia. }
  rewrite !Hw. by destruct i; rewrite ?Hw.
Qed.

Lemma mat_vec_length A (x : list Qc) : length (mat_vec A x) = length x.
Proof. unfold mat_vec. by rewrite length_map, length_seq. Qed.


(** The solver recovers [y] from the product [A y]. *)

Lemma sweep_d_product (y : list Qc) i :
  (i < length y)%nat ->
  sweep_d (mat_vec tridiag_entry y) i =
  default 0 (y !! i) + sweep_c i * default 0 (y !! S i).
Proof.
  induction i as [|i IH]; intros Hi.
  - simpl. rewrite mat_vec_tridiag_lookup by done. simpl. lits. by field.
  - simpl. rewrite mat_vec_tridiag_lookup by done. simpl.
    rewrite IH by lia.
    pose proof (pivot_neq0 i) as Hp. revert Hp. lits. intros Hp.
    field. repeat split; done.
Qed.

Lemma triagonal_solve_product (asb y : list Qc) :
  (1 <= length y)%nat -> length asb = length y ->
  exists d, triagonal_solve asb (mat_vec tridiag_entry y) = Some (y, d).
Proof.
  intros Hn Hlen.
  pose proof (triagonal_solve_spec asb (mat_vec tridiag_entry y)
                ltac:(lia) ltac:(rewrite mat_vec_length; lia)) as H.
  destruct (triagonal_solve asb _) as [[x d]|]; [|done].
  destruct H as (HL & Hlast & Hx). exists d. do 2 f_equal.
  assert (forall k i, (i + k = length y - 1)%nat -> x !! i = y !! i) as Hall.
  { induction k as [|k IH]; intros i Hi.
    - replace i with (length asb - 1)%nat by lia. rewrite Hlast.
      rewrite sweep_d_product by lia.
      rewrite (lookup_ge_None_2 y (S _)) by lia. simpl.
      destruct (lookup_lt_is_Some_2 y (length asb - 1)) as [v Hv]; [lia|].
      rewrite Hv. simpl. f_equal. ring.
    - destruct (Hx i) as (xn & E1 & E2); [lia|]. rewrite E2.
      rewrite IH in E1 by lia. rewrite sweep_d_product by lia.
      rewrite E1. simpl.
      destruct (lookup_lt_is_Some_2 y i) as [v Hv]; [lia|].
      rewrite Hv. simpl. f_equal. ring. }
  apply list_eq. intros i.
  destruct (decide (i < length y)%nat) as [Hi|Hi].
  - apply (Hall (length y - 1 - i)%nat). lia.
  - by rewrite !lookup_ge_None_2 by lia.
Qed.

(** ** One axis *)

Lemma lookup_default (l : list Qc) i :
  (i < length l)%nat -> l !! i = Some (default 0 (l !! i)).
Proof. intros H. by destruct (lookup_lt_is_Some_2 l i H) as [v ->]. Qed.

Lemma axis_rhs_length ac : length (axis_rhs ac) = (length ac - 2)%nat.
Proof. unfold axis_rhs. by rewrite length_map, length_seq. Qed.

Lemma axis_solve_spec ac asd asb :
  (3 <= length ac)%nat ->
  match axis_solve ac asd asb with
  | Some (x, d, calls) =>
    length x = (length ac - 2)%nat /\
    if decide (length ac = 3)%nat then
      x = [lit 1.50 * default 0 (ac !! 1%nat)
           - lit 0.25 * default 0 (ac !! 0%nat)
           - lit 0.25 * default 0 (ac !! 2%nat)] /\ calls = []
    else
      triagonal_solve (g_array_set_size asb (length ac - 2)) (axis_rhs ac)
      = Some (x, d) /\ calls = [(length ac - 2)%nat]
  | None => False
  end.
Proof.
  intros Hm. unfold axis_solve.
  remember (length ac) as m eqn:Em.
  rewrite !g_array_set_size_length. unfold g_array_index.
  rewrite (lookup_default ac 0), (lookup_default ac 1),
    (lookup_default ac (m - 1)), (lookup_default ac (m - 2)) by lia.
  set (A j := default 0 (ac !! j)).
  pose proof (g_array_set_size_length asb (m - 2)) as HLb.
  pose proof (g_array_set_size_length asd (m - 2)) as HLd.
  set (asb0 := g_array_set_size asb (m - 2)) in *.
  set (asd0 := g_array_set_size asd (m - 2)) in *.
  destruct (decide (m - 2 = 1)%nat) as [E|NE].
  - rewrite (lookup_default ac 2) by lia. cbn [mbind option_bind].
    rewrite g_array_store_lt by lia. cbn [mbind option_bind].
    rewrite length_insert, decide_True by lia.
    split; [lia|]. split; [|done].
    destruct asb0 as [|v [|]]; simpl in HLb; try lia. done.
  - cbn [mbind option_bind].
    rewrite g_array_store_lt by lia. cbn [mbind option_bind].
    match goal with |- context [for_range 1 (m - 3) ?body ?st] =>
      destruct (for_range_inv (fun n (a : list Qc) =>
        length a = (m - 2)%nat /\
        a !! 0%nat = Some (lit 6 * A 1%nat - A 0%nat) /\
        forall i, (1 <= i < n)%nat -> a !! i = Some (lit 6 * A (i + 1)%nat))
        body 1%nat (m - 3)%nat st) as (asd2 & E & HL2 & H0 & Hmid)
    end.
    + lia.
    + rewrite length_insert. split; [done|]. split.
      * by rewrite list_lookup_insert_eq by lia.
      * intros i Hi. lia.
    + intros n a Hn (HL & H0 & Hmid).
      rewrite (lookup_default ac (n + 1)) by lia. cbn [mbind option_bind].
      rewrite g_array_store_lt by lia.
      eexists. split; [done|]. rewrite length_insert. split; [done|]. split.
      * by rewrite list_lookup_insert_ne by lia.
      * intros i Hi. destruct (decide (i = n)) as [->|Hne].
        -- by rewrite list_lookup_insert_eq by lia.
        -- rewrite list_lookup_insert_ne by lia. apply Hmid. lia.
    + rewrite E. cbn [mbind option_bind].
      rewrite g_array_store_lt by lia. cbn [mbind option_bind].
      match goal with |- context [triagonal_solve asb0 ?r] =>
        assert (r = axis_rhs ac) as ->
      end.
      { unfold axis_rhs. rewrite <- Em. fold A. apply list_eq. intros i.
        destruct (decide (i < m - 2)%nat) as [Hi|Hi].
        - rewrite list_lookup_fmap, lookup_seq_lt by done. simpl.
          destruct (decide (i = m - 3)%nat) as [->|Hne].
          + by rewrite list_lookup_insert_eq by lia.
          + rewrite list_lookup_insert_ne by lia.
            case_decide; [by subst|]. apply Hmid. lia.
        - rewrite !lookup_ge_None_2; [done| |].
          + rewrite length_map, length_seq. lia.
          + rewrite length_insert. lia. }
      pose proof (triagonal_solve_spec asb0 (axis_rhs ac) ltac:(lia)
                    ltac:(rewrite axis_rhs_length; lia)) as Hs.
      destruct (triagonal_solve asb0 (axis_rhs ac)) as [[x d]|]; [|done].
      cbn [mbind option_bind]. destruct Hs as (HLx & _).
      rewrite decide_False by lia.
      split; [lia|]. split; [done|]. by rewrite ?HLb.
Qed.

Lemma axis_controls_spec ac x :
  (2 <= length ac)%nat -> length x = (length ac - 2)%nat ->
  match axis_controls ac x with
  | Some (b, c1, c2) =>
    b = default 0 (ac !! 0%nat) :: x
        ++ [default 0 (ac !! (length ac - 1)%nat)] /\
    length c1 = (length ac - 1)%nat /\ length c2 = (length ac - 1)%nat /\
    forall j, (j < length ac - 1)%nat ->
      c1 !! j = Some (lit 2 * default 0 (b !! j) / lit 3
                      + default 0 (b !! S j) / lit 3) /\
      c2 !! j = Some (default 0 (b !! j) / lit 3
                      + lit 2 * default 0 (b !! S j) / lit 3)
  | None => False
  end.
Proof.
  intros Hm HLx. unfold axis_controls, g_array_index.
  remember (length ac) as m eqn:Em.
  rewrite (lookup_default ac 0), (lookup_default ac (m - 1)) by lia.
  cbn [mbind option_bind].
  unfold g_array_prepend_val, g_array_append_val.
  remember ((default 0 (ac !! 0%nat) :: x) ++ [default 0 (ac !! (m - 1)%nat)])
    as b eqn:Eb.
  assert (length b = m) as HLb.
  { rewrite Eb. simpl. rewrite length_app. simpl. lia. }
  match goal with |- context [for_range 1 m ?body ?st] =>
    destruct (for_range_inv (fun n '(c1, c2) =>
      length c1 = (n - 1)%nat /\ length c2 = (n - 1)%nat /\
      forall j, (j < n - 1)%nat ->
        c1 !! j = Some (lit 2 * default 0 (b !! j) / lit 3
                        + default 0 (b !! S j) / lit 3) /\
        c2 !! j = Some (default 0 (b !! j) / lit 3
                        + lit 2 * default 0 (b !! S j) / lit 3))
      body 1%nat m st) as ([c1 c2] & E & HL1 & HL2 & Hc)
  end.
  - lia.
  - split; [done|]. split; [done|]. intros j Hj. lia.
  - intros n [c1 c2] Hn (HL1 & HL2 & Hc).
    rewrite (lookup_default b (n - 1)), (lookup_default b n) by lia.
    cbn [mbind option_bind]. eexists. split; [done|]. cbn beta iota.
    rewrite !length_app. simpl. split; [lia|]. split; [lia|].
    intros j Hj. destruct (decide (j = n - 1)%nat) as [->|Hne].
    + rewrite !list_lookup_middle by lia.
      by replace (S (n - 1)) with n by lia.
    + rewrite !lookup_app_l by lia. apply Hc. lia.
  - rewrite E. cbn [mbind option_bind]. split; [by rewrite Eb|done].
Qed.

Lemma axis_pass_spec ac asd asb :
  (3 <= length ac)%nat ->
  match axis_pass ac asd asb with
  | Some (d, b, c1, c2, calls) =>
    length c1 = (length ac - 1)%nat /\ length c2 = (length ac - 1)%nat /\
    (exists x,
       b = default 0 (ac !! 0%nat) :: x
           ++ [default 0 (ac !! (length ac - 1)%nat)] /\
       length x = (length ac - 2)%nat /\
       if decide (length ac = 3)%nat then
         x = [lit 1.50 * default 0 (ac !! 1%nat)
              - lit 0.25 * default 0 (ac !! 0%nat)
              - lit 0.25 * default 0 (ac !! 2%nat)] /\ calls = []
       else
         triagonal_solve (g_array_set_size asb (length ac - 2)) (axis_rhs ac)
         = Some (x, d) /\ calls = [(length ac - 2)%nat]) /\
    forall j, (j < length ac - 1)%nat ->
      c1 !! j = Some (lit 2 * default 0 (b !! j) / lit 3
                      + default 0 (b !! S j) / lit 3) /\
      c2 !! j = Some (default 0 (b !! j) / lit 3
                      + lit 2 * default 0 (b !! S j) / lit 3)
  | None => False
  end.
Proof.
  intros Hm. unfold axis_pass.
  pose proof (axis_solve_spec ac asd asb Hm) as Hs.
  destruct (axis_solve ac asd asb) as [[[x d] calls]|]; [|done].
  cbn [mbind option_bind]. destruct Hs as (HLx & Hx).
  pose proof (axis_controls_spec ac x ltac:(lia) HLx) as Hc.
  destruct (axis_controls ac x) as [[[b c1] c2]|]; [|done].
  cbn [mbind option_bind]. destruct Hc as (-> & HL1 & HL2 & Hc).
  split; [done|]. split; [done|]. split; [|done]. by exists x.
Qed.

(** ** The control arrays of a stroke *)

Lemma div6_bound n : (6 * (n / 6) <= n)%nat.
Proof. apply Nat.Div0.mul_div_le. Qed.

Lemma axis_values_length cl ctl off :
  length (axis_values cl ctl off)
  = if cl then (length ctl / 6 + 3)%nat else (length ctl / 6)%nat.
Proof.
  unfold axis_values. destruct cl; simpl;
    rewrite ?length_app, length_map, length_seq; simpl; lia.
Qed.

Lemma strip_padding_spec cl (acon : list Qc) :
  (2 <= length acon)%nat ->
  strip_padding cl acon = Some (stripped cl acon).
Proof.
  intros HL. unfold strip_padding, stripped. destruct cl; [|done].
  rewrite g_array_remove_index_lt by lia. cbn [mbind option_bind].
  rewrite g_array_remove_index_lt; [done|].
  rewrite length_delete by (apply lookup_lt_is_Some_2; lia). lia.
Qed.

Lemma stripped_length cl (acon : list Qc) :
  (2 <= length acon)%nat ->
  length (stripped cl acon)
  = if cl then (length acon - 2)%nat else length acon.
Proof.
  intros HL. unfold stripped. destruct cl; [|done].
  assert (length (delete (length acon - 1)%nat acon) = (length acon - 1)%nat)
    as HL1 by (apply length_delete, lookup_lt_is_Some_2; lia).
  rewrite length_delete by (apply lookup_lt_is_Some_2; lia). lia.
Qed.

Lemma fetch_anchors (ctl : list Qc) :
  let len := (length ctl / 6)%nat in
  for_range 0 (length (g_array_set_size [] len))
    (fun n '(acx, acy) =>
       vx ← ctl !! (n * 6 + 2)%nat;
       acx ← g_array_store acx n vx;
       vy ← ctl !! (n * 6 + 3)%nat;
       acy ← g_array_store acy n vy;
       Some (acx, acy))
    (g_array_set_size [] len, g_array_set_size [] len)
  = Some (axis_values false ctl 2, axis_values false ctl 3).
Proof.
  intros len. rewrite g_array_set_size_length.
  pose proof (div6_bound (length ctl)) as Hb. fold len in Hb.
  match goal with |- for_range 0 len ?body ?st = _ =>
    destruct (for_range_inv (fun n '(acx, acy) =>
      length acx = len /\ length acy = len /\
      forall i, (i < n)%nat ->
        acx !! i = Some (scalar ctl i 2) /\ acy !! i = Some (scalar ctl i 3))
      body 0%nat len st) as ([acx acy] & E & HLx & HLy & Hv)
  end.
  - lia.
  - rewrite g_array_set_size_length. split; [done|]. split; [done|]. lia.
  - intros n [acx acy] Hn (HLx & HLy & Hv).
    rewrite (lookup_default ctl (n * 6 + 2)), (lookup_default ctl (n * 6 + 3))
      by lia.
    cbn [mbind option_bind]. rewrite g_array_store_lt by lia.
    cbn [mbind option_bind]. rewrite g_array_store_lt by lia.
    cbn [mbind option_bind]. eexists. split; [done|]. cbn beta iota.
    rewrite !length_insert. split; [done|]. split; [done|].
    intros i Hi. destruct (decide (i = n)) as [->|Hne].
    + by rewrite !list_lookup_insert_eq by lia.
    + rewrite !list_lookup_insert_ne by lia. apply Hv. lia.
  - rewrite E. f_equal. unfold axis_values. fold len.
    f_equal; apply list_eq; intros i;
      (destruct (decide (i < len)%nat) as [Hi|Hi];
       [ rewrite list_lookup_fmap, lookup_seq_lt by done; by apply Hv
       | rewrite !lookup_ge_None_2;
         [done | rewrite length_map, length_seq; lia | lia] ]).
Qed.

Lemma div6_ge3 n : (18 <= n)%nat -> (3 <= n / 6)%nat.
Proof. intros H. apply (Nat.Div0.div_le_mono 18 n 6) in H. exact H. Qed.

Lemma pad_closed (ctl : list Qc) off :
  g_array_append_val
    (g_array_append_val
       (g_array_prepend_val (axis_values false ctl off)
          (default 0 (ctl !! (length ctl - 6 + off)%nat)))
       (default 0 (ctl !! off)))
    (default 0 (ctl !! (6 + off)%nat))
  = axis_values true ctl off.
Proof.
  unfold axis_values, scalar, g_array_prepend_val, g_array_append_val.
  simpl. by rewrite <- !app_assoc.
Qed.

Lemma bezier_controls_spec s :
  (18 <= num_points s)%nat ->
  match bezier_controls s with
  | Some c =>
    exists dx bx x1 x2 cx dy by' y1 y2 cy,
      axis_pass (axis_values (closed s) (ctlpts s) 2) [] []
      = Some (dx, bx, x1, x2, cx) /\
      axis_pass (axis_values (closed s) (ctlpts s) 3) dx bx
      = Some (dy, by', y1, y2, cy) /\
      c = {| aconx1 := stripped (closed s) x1;
             aconx2 := stripped (closed s) x2;
             acony1 := stripped (closed s) y1;
             acony2 := stripped (closed s) y2;
             solver_calls := cx ++ cy |}
  | None => False
  end.
Proof.
  intros Hnp. unfold bezier_controls, num_points in *.
  pose proof (div6_ge3 _ Hnp) as Hlen.
  rewrite fetch_anchors. cbn [mbind option_bind].
  set (ctl := ctlpts s) in *.
  assert (forall cl off, (3 <= length (axis_values cl ctl off))%nat) as HL.
  { intros cl off. rewrite axis_values_length. destruct cl; lia. }
  destruct (closed s).
  1: rewrite (lookup_default ctl (length ctl - 4)),
       (lookup_default ctl (length ctl - 3)), (lookup_default ctl 2),
       (lookup_default ctl 3), (lookup_default ctl 8),
       (lookup_default ctl 9) by lia;
     cbn [mbind option_bind];
     replace (length ctl - 4)%nat with (length ctl - 6 + 2)%nat by lia;
     replace (length ctl - 3)%nat with (length ctl - 6 + 3)%nat by lia;
     pose proof (pad_closed ctl 2) as P2; pose proof (pad_closed ctl 3) as P3;
     change (6 + 2)%nat with 8%nat in P2; change (6 + 3)%nat with 9%nat in P3;
     rewrite P2, P3.
  all: cbn [mbind option_bind].
  all: match goal with |- context [axis_pass (axis_values ?cl ?c 2) [] []] =>
    pose proof (axis_pass_spec (axis_values cl c 2) [] [] (HL _ _)) as Hx;
    destruct (axis_pass (axis_values cl c 2) [] [])
      as [[[[[dx bx] x1] x2] cx]|] eqn:Ex; [|done];
    cbn [mbind option_bind];
    pose proof (axis_pass_spec (axis_values cl c 3) dx bx (HL _ _)) as Hy;
    destruct (axis_pass (axis_values cl c 3) dx bx)
      as [[[[[dy by'] y1] y2] cy]|] eqn:Ey; [|done];
    cbn [mbind option_bind];
    destruct Hx as (HLx1 & HLx2 & _); destruct Hy as (HLy1 & HLy2 & _);
    pose proof (HL cl 2%nat) as HL2; pose proof (HL cl 3%nat) as HL3;
    rewrite !strip_padding_spec by lia; cbn [mbind option_bind];
    by exists dx, bx, x1, x2, cx, dy, by', y1, y2, cy
  end.
Qed.

Lemma bezier_controls_total s :
  (18 <= num_points s)%nat ->
  exists c, bezier_controls s = Some c /\
    length (aconx1 c) = control_count s /\
    length (aconx2 c) = control_count s /\
    length (acony1 c) = control_count s /\
    length (acony2 c) = control_count s /\
    Forall (fun k => 2 <= k)%nat (solver_calls c).
Proof.
  intros Hnp. pose proof (bezier_controls_spec s Hnp) as H.
  pose proof (div6_ge3 _ Hnp) as Hlen.
  destruct (bezier_controls s) as [c|]; [|done]. exists c. split; [done|].
  destruct H as (dx & bx & x1 & x2 & cx & dy & by' & y1 & y2 & cy
                 & Ex & Ey & ->).
  assert (forall off, length (axis_values (closed s) (ctlpts s) off)
            = if closed s then (num_points s / 6 + 3)%nat
              else (num_points s / 6)%nat) as HL.
  { intros off. apply axis_values_length. }
  pose proof (axis_pass_spec (axis_values (closed s) (ctlpts s) 2) [] []) as Hx.
  pose proof (axis_pass_spec (axis_values (closed s) (ctlpts s) 3) dx bx) as Hy.
  rewrite Ex in Hx. rewrite Ey in Hy. rewrite !HL in Hx, Hy.
  unfold control_count. cbn [aconx1 aconx2 acony1 acony2 solver_calls closed].
  destruct (closed s); cbn iota in Hx, Hy.
  - destruct Hx as (H1 & H2 & (x & _ & _ & Hcx) & _); [lia|].
    destruct Hy as (H3 & H4 & (y & _ & _ & Hcy) & _); [lia|].
    rewrite (stripped_length _ x1), (stripped_length _ x2),
      (stripped_length _ y1), (stripped_length _ y2) by lia.
    rewrite H1, H2, H3, H4.
    repeat split; try lia.
    rewrite decide_False in Hcx, Hcy by lia.
    destruct Hcx as [_ ->]. destruct Hcy as [_ ->].
    repeat constructor; lia.
  - destruct Hx as (H1 & H2 & (x & _ & _ & Hcx) & _); [lia|].
    destruct Hy as (H3 & H4 & (y & _ & _ & Hcy) & _); [lia|].
    rewrite (stripped_length _ x1), (stripped_length _ x2),
      (stripped_length _ y1), (stripped_length _ y2) by lia.
    rewrite H1, H2, H3, H4.
    repeat split; try lia.
    destruct (decide (num_points s / 6 = 3)%nat).
    + destruct Hcx as [_ ->]. destruct Hcy as [_ ->]. constructor.
    + destruct Hcx as [_ ->]. destruct Hcy as [_ ->].
      repeat constructor; lia.
Qed.

(** ** The update of [ctlpts] *)

Lemma div_mod_6 i r :
  (r < 6)%nat -> ((i * 6 + r) / 6 = i)%nat /\ ((i * 6 + r) mod 6 = r)%nat.
Proof.
  intros Hr. split.
  - symmetry. apply (Nat.div_unique _ 6 i r); lia.
  - symmetry. apply (Nat.mod_unique _ 6 i r); lia.
Qed.

Lemma store_pair_spec (c : bool) (ctl : list gdouble) i ax j ay k :
  (i < length ctl)%nat -> (j < length ctl)%nat -> i <> j ->
  (k < length ax)%nat -> (k < length ay)%nat ->
  exists ctl', store_pair c ctl i ax j ay k = Some ctl' /\
    length ctl' = length ctl /\
    (forall p, p <> i -> p <> j -> ctl' !! p = ctl !! p) /\
    ctl' !! i = (if c then ax !! k else ctl !! i) /\
    ctl' !! j = (if c then ay !! k else ctl !! j).
Proof.
  intros Hi Hj Hij Hx Hy. unfold store_pair, g_array_index.
  destruct c; [|by exists ctl].
  rewrite (lookup_default ax k), (lookup_default ay k) by done.
  cbn [mbind option_bind]. rewrite g_array_store_lt by done.
  cbn [mbind option_bind].
  rewrite g_array_store_lt by (by rewrite length_insert).
  eexists. split; [done|]. rewrite !length_insert. split; [done|].
  split; [|split].
  - intros p Hp1 Hp2. by rewrite !list_lookup_insert_ne by done.
  - rewrite list_lookup_insert_ne by done.
    by rewrite list_lookup_insert_eq by done.
  - by rewrite list_lookup_insert_eq by (by rewrite length_insert).
Qed.

Lemma orb_true_r_bool (b : bool) (P : Prop) `{Decision P} (x : bool) :
  P -> (b || bool_decide P) && x = x.
Proof. intros HP. rewrite bool_decide_eq_true_2 by done. by destruct b. Qed.

(** The two-armed conditional at the ends of the stroke stores under one
    condition: the corner test when the stroke is closed, [sp0] when it is
    open. *)
Lemma c_and_store (cl : bool) (e : option bool) (t sp0 : bool)
  (ctl' : list gdouble) i ax j ay k :
  (cl = true -> e = Some t) ->
  (tt ← c_and cl e;
   if (tt : bool) then store_pair true ctl' i ax j ay k
   else store_pair (negb cl && sp0) ctl' i ax j ay k)
  = store_pair (if cl then t else sp0) ctl' i ax j ay k.
Proof.
  intros He. destruct cl; cbn [c_and].
  - rewrite He by done. cbn [mbind option_bind]. by destruct t.
  - done.
Qed.

Lemma if_store (cl : bool) (e : option bool) (t : bool)
  (ctl' : list gdouble) i ax j ay k :
  (cl = true -> e = Some t) ->
  (if cl then tt ← e; store_pair tt ctl' i ax j ay k else Some ctl')
  = store_pair (cl && t) ctl' i ax j ay k.
Proof.
  intros He. destruct cl; [|done].
  rewrite He by done. by cbn [mbind option_bind].
Qed.

Lemma bool_cases (b : bool) : b = true \/ b = false.
Proof. destruct b; auto. Qed.

Section Update.

Variable svals : SmoothVals.
Variable cl : bool.
Variable c : Controls.
Variable ctl : list gdouble.
Variable n : nat.

Hypothesis Hn : (3 <= n)%nat.
Hypothesis Hnp : length ctl = (6 * n)%nat.

Local Abbreviation below := (updated_below svals cl c ctl n).
Local Abbreviation final := (expected svals cl c ctl n).

Lemma below_0 : below 0 ctl.
Proof. split; [done|]. intros j Hj. by rewrite decide_False by lia. Qed.

(** A pair of entries that the update leaves alone. *)
Lemma below_skip b ctl' :
  below b ctl' ->
  final b = ctl !! b -> final (S b) = ctl !! S b ->
  below (b + 2) ctl'.
Proof.
  intros [HL H] E1 E2. split; [done|]. intros j Hj. rewrite H by done.
  destruct (decide (j < b)%nat), (decide (j < b + 2)%nat); try lia; try done.
  assert (j = b \/ j = S b) as [->| ->] by lia; done.
Qed.

(** A pair of entries written by [store_pair]. *)
Lemma below_store b b' ctl' (t : bool) ax ay k :
  below b ctl' -> b' = S b ->
  (S b < length ctl)%nat -> (k < length ax)%nat -> (k < length ay)%nat ->
  final b = (if t then ax !! k else ctl !! b) ->
  final (S b) = (if t then ay !! k else ctl !! S b) ->
  exists ctl'', store_pair t ctl' b ax b' ay k = Some ctl'' /\
                below (b + 2) ctl''.
Proof.
  intros [HL H] -> Hb Hx Hy E1 E2.
  destruct (store_pair_spec t ctl' b ax (S b) ay k)
    as (ctl'' & E & HL' & Hoff & Hb1 & Hb2); try lia; try done.
  exists ctl''. split; [done|]. split; [lia|]. intros j Hj.
  destruct (decide (j = b)) as [->|Hne1].
  { rewrite decide_True by lia. rewrite Hb1, E1. destruct t; [done|].
    rewrite H by lia. by rewrite decide_False by lia. }
  destruct (decide (j = S b)) as [->|Hne2].
  { rewrite decide_True by lia. rewrite Hb2, E2. destruct t; [done|].
    rewrite H by lia. by rewrite decide_False by lia. }
  rewrite Hoff, H by done.
  destruct (decide (j < b)%nat), (decide (j < b + 2)%nat); try lia; done.
Qed.

(** Anchor positions are never touched. *)
Lemma final_anchor i off :
  (off = 2 \/ off = 3)%nat -> final (i * 6 + off) = ctl !! (i * 6 + off)%nat.
Proof.
  intros Hoff. unfold expected.
  destruct (div_mod_6 i off) as [_ ->]; [lia|].
  repeat case_decide; try lia; done.
Qed.

Lemma below_anchor b ctl' i off :
  below b ctl' -> (i < n)%nat -> (off = 2 \/ off = 3)%nat ->
  ctl' !! (i * 6 + off)%nat = Some (scalar ctl i off).
Proof.
  intros [HL H] Hi Hoff. rewrite H by lia. unfold scalar.
  case_decide.
  - rewrite final_anchor by done. apply lookup_default. lia.
  - apply lookup_default. lia.
Qed.

Lemma ctl_angle_below b ctl' p i q :
  below b ctl' -> (p < n)%nat -> (i < n)%nat -> (q < n)%nat ->
  ctl_angle svals ctl' (p * 6 + 2) (p * 6 + 3) (i * 6 + 2) (i * 6 + 3)
    (q * 6 + 2) (q * 6 + 3)
  = Some (corner_test svals ctl p i q).
Proof.
  intros Hb Hp Hi Hq. unfold ctl_angle.
  rewrite !(below_anchor b ctl') by (done || lia). done.
Qed.



Lemma prev_anchor i : (i < n)%nat ->
  ((i + n - 1) mod n)%nat
  = if decide (i = 0)%nat then (n - 1)%nat else (i - 1)%nat.
Proof.
  intros Hi. case_decide.
  - subst. apply Nat.mod_small. lia.
  - symmetry. apply (Nat.mod_unique _ n 1); lia.
Qed.

Lemma next_anchor i : (i < n)%nat ->
  ((i + 1) mod n)%nat = if decide (i = n - 1)%nat then 0%nat else (i + 1)%nat.
Proof.
  intros Hi. case_decide.
  - symmetry. apply (Nat.mod_unique _ n 1); lia.
  - apply Nat.mod_small. lia.
Qed.

Lemma smoothed_first :
  smoothed svals cl ctl n 0
  = if cl then corner_test svals ctl (n - 1) 0 1
    else (smooth_specified svals =? 0)%Z.
Proof.
  unfold smoothed. rewrite prev_anchor, next_anchor by lia.
  rewrite decide_True by done. rewrite decide_False by lia.
  by rewrite decide_True by auto.
Qed.

Lemma smoothed_last :
  smoothed svals cl ctl n (n - 1)
  = if cl then corner_test svals ctl (n - 2) (n - 1) 0
    else (smooth_specified svals =? 0)%Z.
Proof.
  unfold smoothed. rewrite prev_anchor, next_anchor by lia.
  rewrite decide_False by lia. rewrite decide_True by done.
  rewrite decide_True by auto.
  by replace (n - 1 - 1)%nat with (n - 2)%nat by lia.
Qed.

Lemma smoothed_mid i :
  (0 < i < n - 1)%nat ->
  smoothed svals cl ctl n i = corner_test svals ctl (i - 1) i (i + 1).
Proof.
  intros Hi. unfold smoothed. rewrite prev_anchor, next_anchor by lia.
  rewrite !decide_False by lia. by destruct cl.
Qed.

Hypothesis HLx1 : length (aconx1 c) = if cl then n else (n - 1)%nat.
Hypothesis HLy1 : length (acony1 c) = if cl then n else (n - 1)%nat.
Hypothesis HLx2 : length (aconx2 c) = if cl then n else (n - 1)%nat.
Hypothesis HLy2 : length (acony2 c) = if cl then n else (n - 1)%nat.

Lemma final_at i r :
  (r < 6)%nat ->
  final (i * 6 + r) =
  let out := (cl || bool_decide (i < n - 1)%nat) && smoothed svals cl ctl n i in
  let inc := (cl || bool_decide (0 < i)%nat) && smoothed svals cl ctl n i in
  if decide (r = 4)%nat then
    if out then aconx1 c !! i else ctl !! (i * 6 + r)%nat
  else if decide (r = 5)%nat then
    if out then acony1 c !! i else ctl !! (i * 6 + r)%nat
  else if decide (r = 0)%nat then
    if inc then aconx2 c !! ((i + n - 1) mod n)%nat else ctl !! (i * 6 + r)%nat
  else if decide (r = 1)%nat then
    if inc then acony2 c !! ((i + n - 1) mod n)%nat else ctl !! (i * 6 + r)%nat
  else ctl !! (i * 6 + r)%nat.
Proof.
  intros Hr. unfold expected. by destruct (div_mod_6 i r Hr) as [-> ->].
Qed.

Lemma final_con1 i :
  final (i * 6 + 4) = (if (cl || bool_decide (i < n - 1)%nat)
                            && smoothed svals cl ctl n i
                       then aconx1 c !! i else ctl !! (i * 6 + 4)%nat) /\
  final (S (i * 6 + 4)) = (if (cl || bool_decide (i < n - 1)%nat)
                            && smoothed svals cl ctl n i
                       then acony1 c !! i else ctl !! S (i * 6 + 4)%nat).
Proof.
  replace (S (i * 6 + 4)) with (i * 6 + 5)%nat by lia.
  by rewrite !final_at by lia.
Qed.

Lemma final_con2 i :
  final (i * 6 + 0) = (if (cl || bool_decide (0 < i)%nat)
                        && smoothed svals cl ctl n i
                   then aconx2 c !! ((i + n - 1) mod n)%nat
                   else ctl !! (i * 6 + 0)%nat) /\
  final (S (i * 6 + 0)) = (if (cl || bool_decide (0 < i)%nat)
                        && smoothed svals cl ctl n i
                   then acony2 c !! ((i + n - 1) mod n)%nat
                   else ctl !! S (i * 6 + 0)%nat).
Proof.
  replace (S (i * 6 + 0)) with (i * 6 + 1)%nat by lia.
  by rewrite !final_at by lia.
Qed.

Lemma ctl_angle_idx b ctl' p i q i1 i2 i3 i4 i5 i6 :
  below b ctl' -> (p < n)%nat -> (i < n)%nat -> (q < n)%nat ->
  i1 = (p * 6 + 2)%nat -> i2 = (p * 6 + 3)%nat ->
  i3 = (i * 6 + 2)%nat -> i4 = (i * 6 + 3)%nat ->
  i5 = (q * 6 + 2)%nat -> i6 = (q * 6 + 3)%nat ->
  ctl_angle svals ctl' i1 i2 i3 i4 i5 i6
  = Some (corner_test svals ctl p i q).
Proof. intros Hb Hp Hi Hq -> -> -> -> -> ->. by eapply ctl_angle_below. Qed.

Lemma update_con1_spec k ctl' :
  (k < n - 1)%nat -> below (k * 6 + 4) ctl' ->
  exists ctl'', update_con1 svals cl c (length ctl) k ctl' = Some ctl'' /\
                below (k * 6 + 4 + 2) ctl''.
Proof.
  intros Hk Hb. unfold update_con1.
  destruct (final_con1 k) as [F1 F2].
  rewrite orb_true_r_bool in F1, F2 by done.
  assert (k < length (aconx1 c) /\ k < length (acony1 c))%nat as [Lx Ly].
  { rewrite HLx1, HLy1. destruct cl; lia. }
  destruct (decide (k = 0)%nat) as [->|Hk0].
  - rewrite (c_and_store cl _ (corner_test svals ctl (n - 1) 0 1)).
    2: { intros _. apply (ctl_angle_idx (0 * 6 + 4)); done || lia. }
    rewrite smoothed_first in F1, F2.
    by apply below_store; try lia.
  - rewrite (ctl_angle_idx (k * 6 + 4) ctl' (k - 1) k (k + 1))
      by (done || lia).
    cbn [mbind option_bind].
    rewrite smoothed_mid in F1, F2 by lia.
    by apply below_store; try lia.
Qed.

Lemma update_con2_spec k ctl' :
  (k < n - 1)%nat -> below (k * 6 + 4 + 2) ctl' ->
  exists ctl'', update_con2 svals cl c (length ctl) n k ctl' = Some ctl'' /\
                below ((k + 1) * 6 + 0 + 2) ctl''.
Proof.
  intros Hk Hb. unfold update_con2.
  replace (k * 6 + 4 + 2)%nat with ((k + 1) * 6 + 0)%nat in Hb by lia.
  replace (k * 6 + 6)%nat with ((k + 1) * 6 + 0)%nat by lia.
  destruct (final_con2 (k + 1)) as [F1 F2].
  rewrite orb_true_r_bool in F1, F2 by lia.
  rewrite prev_anchor in F1, F2 by lia.
  rewrite decide_False in F1, F2 by lia.
  replace (k + 1 - 1)%nat with k in F1, F2 by lia.
  assert (k < length (aconx2 c) /\ k < length (acony2 c))%nat as [Lx Ly].
  { rewrite HLx2, HLy2. destruct cl; lia. }
  destruct (decide (k = n - 2)%nat) as [Hk2|Hk2].
  - rewrite (c_and_store cl _ (corner_test svals ctl (n - 2) (n - 1) 0)).
    2: { intros _. apply (ctl_angle_idx ((k + 1) * 6 + 0)); done || lia. }
    replace (smoothed svals cl ctl n (k + 1))
      with (smoothed svals cl ctl n (n - 1)) in F1, F2 by (f_equal; lia).
    rewrite smoothed_last in F1, F2.
    by apply below_store; try lia.
  - rewrite (ctl_angle_idx ((k + 1) * 6 + 0) ctl' k (k + 1) (k + 2))
      by (done || lia).
    cbn [mbind option_bind].
    rewrite smoothed_mid in F1, F2 by lia.
    replace (k + 1 - 1)%nat with k in F1, F2 by lia.
    replace (k + 1 + 1)%nat with (k + 2)%nat in F1, F2 by lia.
    by apply below_store; try lia.
Qed.

Lemma update_first :
  exists ctl1,
    (if cl then
       t ← ctl_angle svals ctl (length ctl - 4) (length ctl - 3) 2 3 8 9;
       store_pair t ctl 0 (aconx2 c) 1 (acony2 c) (length (aconx2 c) - 1)
     else Some ctl) = Some ctl1 /\
    below (0 * 6 + 4) ctl1.
Proof.
  rewrite (if_store cl _ (corner_test svals ctl (n - 1) 0 1)).
  2: { intros _. apply (ctl_angle_idx 0); try lia. apply below_0. }
  destruct (final_con2 0) as [F1 F2]. rewrite smoothed_first in F1, F2.
  rewrite prev_anchor in F1, F2 by lia. rewrite decide_True in F1, F2 by done.
  destruct (below_store (0 * 6 + 0) 1 ctl
              (cl && corner_test svals ctl (n - 1) 0 1)
              (aconx2 c) (acony2 c) (length (aconx2 c) - 1) below_0)
    as (ctl1 & E & Hb); try lia.
  - rewrite HLx2. destruct cl; lia.
  - rewrite HLx2, HLy2. destruct cl; lia.
  - rewrite F1. destruct (bool_cases cl) as [Ecl|Ecl]; rewrite Ecl in *.
    + by rewrite HLx2.
    + done.
  - rewrite F2. destruct (bool_cases cl) as [Ecl|Ecl]; rewrite Ecl in *.
    + by rewrite HLx2.
    + done.
  - exists ctl1. split; [done|].
    apply (below_skip (0 * 6 + 2)); [done| |].
    + apply final_anchor. auto.
    + apply (final_anchor 0 3). auto.
Qed.

Lemma update_last ctl' :
  below ((n - 1) * 6 + 4) ctl' ->
  exists ctl'',
    (if cl then
       t ← ctl_angle svals ctl' (length ctl - 10) (length ctl - 9)
             (length ctl - 4) (length ctl - 3) 2 3;
       store_pair t ctl' (length ctl - 2) (aconx1 c) (length ctl - 1)
         (acony1 c) (length (aconx1 c) - 1)
     else Some ctl') = Some ctl'' /\
    below ((n - 1) * 6 + 4 + 2) ctl''.
Proof.
  intros Hb.
  rewrite (if_store cl _ (corner_test svals ctl (n - 2) (n - 1) 0)).
  2: { intros _. apply (ctl_angle_idx ((n - 1) * 6 + 4)); done || lia. }
  destruct (final_con1 (n - 1)) as [F1 F2]. rewrite smoothed_last in F1, F2.
  replace (length ctl - 2)%nat with ((n - 1) * 6 + 4)%nat by lia.
  apply below_store; try lia; try done.
  - rewrite HLx1. destruct cl; lia.
  - rewrite HLx1, HLy1. destruct cl; lia.
  - rewrite F1. rewrite bool_decide_eq_false_2 by lia.
    destruct (bool_cases cl) as [Ecl|Ecl]; rewrite Ecl in *.
    + by rewrite HLx1.
    + done.
  - rewrite F2. rewrite bool_decide_eq_false_2 by lia.
    destruct (bool_cases cl) as [Ecl|Ecl]; rewrite Ecl in *.
    + by rewrite HLx1.
    + done.
Qed.

Lemma update_ctlpts_spec :
  exists ctl', update_ctlpts svals cl c ctl = Some ctl' /\
    length ctl' = length ctl /\
    forall j, (j < length ctl)%nat -> ctl' !! j = final j.
Proof.
  unfold update_ctlpts.
  assert (length ctl / 6 = n)%nat as ->.
  { rewrite Hnp, Nat.mul_comm. by apply Nat.div_mul. }
  destruct update_first as (ctl1 & -> & Hb1). cbn [mbind option_bind].
  match goal with |- context [for_range 0 (n - 1) ?body ctl1] =>
    destruct (for_range_inv (fun k ctl' => below (k * 6 + 4) ctl')
                body 0%nat (n - 1)%nat ctl1) as (ctl2 & -> & Hb2)
  end.
  - lia.
  - done.
  - intros k ctl' Hk Hb.
    destruct (update_con1_spec k ctl') as (ctl1' & -> & Hb'); [lia|done|].
    cbn [mbind option_bind].
    destruct (update_con2_spec k ctl1') as (ctl2' & -> & Hb''); [lia|done|].
    exists ctl2'. split; [done|].
    replace (S k * 6 + 4)%nat with ((k + 1) * 6 + 0 + 2 + 2)%nat by lia.
    apply below_skip; [done| |].
    + replace ((k + 1) * 6 + 0 + 2)%nat with ((k + 1) * 6 + 2)%nat by lia.
      apply final_anchor. auto.
    + replace (S ((k + 1) * 6 + 0 + 2))%nat with ((k + 1) * 6 + 3)%nat by lia.
      apply final_anchor. auto.
  - cbn [mbind option_bind].
    destruct (update_last ctl2 Hb2) as (ctl3 & -> & [HL H]).
    exists ctl3. split; [done|]. split; [done|].
    intros j Hj. rewrite H by done. by rewrite decide_True by lia.
Qed.

End Update.

(** ** The whole of [set_bezier_path] on a stroke of [n] anchors *)

Lemma set_bezier_path_spec svals s n :
  (3 <= n)%nat -> num_points s = (6 * n)%nat ->
  exists c out,
    bezier_controls s = Some c /\
    length (aconx1 c) = control_count s /\
    length (aconx2 c) = control_count s /\
    length (acony1 c) = control_count s /\
    length (acony2 c) = control_count s /\
    set_bezier_path svals s = Some out /\
    closed out = closed s /\
    num_points out = num_points s /\
    forall j, (j < num_points s)%nat ->
      ctlpts out !! j = expected svals (closed s) c (ctlpts s) n j.
Proof.
  intros Hn Hnp.
  destruct (bezier_controls_total s) as (c & Ec & L1 & L2 & L3 & L4 & _);
    [lia|].
  assert (control_count s = if closed s then n else (n - 1)%nat) as Hcc.
  { unfold control_count. rewrite Hnp, Nat.mul_comm, Nat.div_mul by lia.
    done. }
  destruct (update_ctlpts_spec svals (closed s) c (ctlpts s) n Hn Hnp)
    as (ctl' & Eu & HL & Hfin); try congruence.
  exists c, {| ctlpts := ctl'; closed := closed s |}.
  repeat split; try done.
  unfold set_bezier_path. rewrite decide_False by lia.
  rewrite Ec. cbn [mbind option_bind]. rewrite Eu. done.
Qed.

Lemma set_bezier_path_guard svals s :
  (num_points s < 18)%nat -> set_bezier_path svals s = Some s.
Proof. intros H. unfold set_bezier_path. by rewrite decide_True. Qed.

(** C2: a stroke with fewer than 18 scalars (fewer than 3 anchors) is
    returned unchanged, whatever the settings: same scalars, control
    points included, same number of points, same closed flag. *)
Theorem short_stroke_unchanged svals s :
  (num_points s < 18)%nat -> set_bezier_path svals s = Some s.
Proof. apply set_bezier_path_guard. Qed.

(** C3: on a stroke of at least 3 anchors, smoothing keeps the number of
    points, the closed flag and every anchor position (scalars 2 and 3 of
    each record of 6 scalars); only control points may change. *)
Theorem anchors_unchanged svals s n :
  (3 <= n)%nat -> num_points s = (6 * n)%nat ->
  exists out,
    set_bezier_path svals s = Some out /\
    num_points out = num_points s /\
    closed out = closed s /\
    forall i, (i < n)%nat ->
      ctlpts out !! (i * 6 + 2)%nat = ctlpts s !! (i * 6 + 2)%nat /\
      ctlpts out !! (i * 6 + 3)%nat = ctlpts s !! (i * 6 + 3)%nat.
Proof.
  intros Hn Hnp.
  destruct (set_bezier_path_spec svals s n Hn Hnp)
    as (c & out & _ & _ & _ & _ & _ & E & Hcl & HL & Hout).
  exists out. repeat split; try done.
  - rewrite Hout by lia. apply (final_anchor _ _ _ _ n); auto.
  - rewrite Hout by lia. apply (final_anchor _ _ _ _ n); auto.
Qed.

(** The controls of anchor [i] after the update of a stroke of [n]
    anchors. *)
Lemma set_bezier_path_controls svals s n :
  (3 <= n)%nat -> num_points s = (6 * n)%nat ->
  exists c out,
    bezier_controls s = Some c /\
    length (aconx1 c) = control_count s /\
    length (aconx2 c) = control_count s /\
    length (acony1 c) = control_count s /\
    length (acony2 c) = control_count s /\
    set_bezier_path svals s = Some out /\
    forall i, (i < n)%nat ->
      let q := smoothed svals (closed s) (ctlpts s) n i in
      let out1 := (closed s || bool_decide (i < n - 1)%nat) && q in
      let inc := (closed s || bool_decide (0 < i)%nat) && q in
      let p := ((i + n - 1) mod n)%nat in
      ctlpts out !! (i * 6 + 4)%nat
      = (if out1 then aconx1 c !! i else ctlpts s !! (i * 6 + 4)%nat) /\
      ctlpts out !! (i * 6 + 5)%nat
      = (if out1 then acony1 c !! i else ctlpts s !! (i * 6 + 5)%nat) /\
      ctlpts out !! (i * 6 + 0)%nat
      = (if inc then aconx2 c !! p else ctlpts s !! (i * 6 + 0)%nat) /\
      ctlpts out !! (i * 6 + 1)%nat
      = (if inc then acony2 c !! p else ctlpts s !! (i * 6 + 1)%nat).
Proof.
  intros Hn Hnp.
  destruct (set_bezier_path_spec svals s n Hn Hnp)
    as (c & out & Ec & L1 & L2 & L3 & L4 & E & Hcl & HL & Hout).
  exists c, out. repeat split; try done.
  all: rewrite Hout by lia; by rewrite final_at by lia.
Qed.

(** C6: on an open stroke of at least 3 anchors, the outgoing control
    point of the first anchor and the incoming control point of the last
    anchor take the computed values when [smooth_specified] is off and keep
    their values when it is on; no angle takes part. *)
Theorem open_endpoints svals s n :
  (3 <= n)%nat -> num_points s = (6 * n)%nat -> closed s = false ->
  exists c out x1 y1 x2 y2,
    bezier_controls s = Some c /\
    set_bezier_path svals s = Some out /\
    aconx1 c !! 0%nat = Some x1 /\ acony1 c !! 0%nat = Some y1 /\
    aconx2 c !! (n - 2)%nat = Some x2 /\ acony2 c !! (n - 2)%nat = Some y2 /\
    (smooth_specified svals = 0%Z ->
       ctlpts out !! 4%nat = Some x1 /\
       ctlpts out !! 5%nat = Some y1 /\
       ctlpts out !! ((n - 1) * 6)%nat = Some x2 /\
       ctlpts out !! ((n - 1) * 6 + 1)%nat = Some y2) /\
    (smooth_specified svals <> 0%Z ->
       ctlpts out !! 4%nat = ctlpts s !! 4%nat /\
       ctlpts out !! 5%nat = ctlpts s !! 5%nat /\
       ctlpts out !! ((n - 1) * 6)%nat = ctlpts s !! ((n - 1) * 6)%nat /\
       ctlpts out !! ((n - 1) * 6 + 1)%nat
       = ctlpts s !! ((n - 1) * 6 + 1)%nat).
Proof.
  intros Hn Hnp Hopen.
  destruct (set_bezier_path_controls svals s n Hn Hnp)
    as (c & out & Ec & L1 & L2 & L3 & L4 & E & Hout).
  assert (control_count s = (n - 1)%nat) as Hcc.
  { unfold control_count. rewrite Hopen, Hnp, Nat.mul_comm, Nat.div_mul by lia.
    done. }
  rewrite Hcc in L1, L2, L3, L4.
  destruct (lookup_lt_is_Some_2 (aconx1 c) 0) as [x1 Hx1]; [lia|].
  destruct (lookup_lt_is_Some_2 (acony1 c) 0) as [y1 Hy1]; [lia|].
  destruct (lookup_lt_is_Some_2 (aconx2 c) (n - 2)) as [x2 Hx2]; [lia|].
  destruct (lookup_lt_is_Some_2 (acony2 c) (n - 2)) as [y2 Hy2]; [lia|].
  exists c, out, x1, y1, x2, y2. do 6 (split; [done|]).
  destruct (Hout 0%nat ltac:(lia)) as (A4 & A5 & _ & _).
  destruct (Hout (n - 1)%nat ltac:(lia)) as (_ & _ & B0 & B1).
  cbn zeta in A4, A5, B0, B1. rewrite Hopen in A4, A5, B0, B1.
  rewrite (smoothed_first svals false (ctlpts s) n Hn Hnp) in A4, A5.
  rewrite (smoothed_last svals false (ctlpts s) n Hn Hnp) in B0, B1.
  rewrite bool_decide_eq_true_2 in A4, A5, B0, B1 by lia.
  replace ((n - 1 + n - 1) mod n)%nat with (n - 2)%nat in B0, B1.
  2: { apply (Nat.mod_unique _ n 1); lia. }
  change (0 * 6 + 4)%nat with 4%nat in A4.
  change (0 * 6 + 5)%nat with 5%nat in A5.
  replace ((n - 1) * 6 + 0)%nat with ((n - 1) * 6)%nat in B0 by lia.
  cbn [orb andb] in A4, A5, B0, B1.
  split; intros Hsp.
  - assert ((smooth_specified svals =? 0)%Z = true) as Hz by lia.
    rewrite Hz in A4, A5, B0, B1. by rewrite A4, A5, B0, B1.
  - assert ((smooth_specified svals =? 0)%Z = false) as Hz by lia.
    by rewrite Hz in A4, A5, B0, B1.
Qed.

(** C10: on an open stroke the incoming control point of the first anchor
    (scalars 0 and 1) and the outgoing control point of the last anchor
    (the last two scalars) are never modified. *)
Theorem open_dangling_controls svals s n :
  num_points s = (6 * n)%nat -> closed s = false ->
  exists out,
    set_bezier_path svals s = Some out /\
    ctlpts out !! 0%nat = ctlpts s !! 0%nat /\
    ctlpts out !! 1%nat = ctlpts s !! 1%nat /\
    ctlpts out !! (num_points s - 2)%nat = ctlpts s !! (num_points s - 2)%nat /\
    ctlpts out !! (num_points s - 1)%nat = ctlpts s !! (num_points s - 1)%nat.
Proof.
  intros Hnp Hopen.
  destruct (decide (n < 3)%nat) as [Hn|Hn].
  { exists s. split; [|done]. apply set_bezier_path_guard. lia. }
  destruct (set_bezier_path_controls svals s n ltac:(lia) Hnp)
    as (c & out & Ec & L1 & L2 & L3 & L4 & E & Hout).
  exists out. split; [done|].
  destruct (Hout 0%nat ltac:(lia)) as (_ & _ & A0 & A1).
  destruct (Hout (n - 1)%nat ltac:(lia)) as (B4 & B5 & _ & _).
  cbn zeta in A0, A1, B4, B5. rewrite Hopen in A0, A1, B4, B5.
  rewrite bool_decide_eq_false_2 in A0, A1, B4, B5 by lia.
  cbn [orb andb] in A0, A1, B4, B5.
  replace (num_points s - 2)%nat with ((n - 1) * 6 + 4)%nat by lia.
  replace (num_points s - 1)%nat with ((n - 1) * 6 + 5)%nat by lia.
  done.
Qed.


(** ** The corner classifier *)

Lemma Qc_not_lt_eq (x y : Qc) : ~ x < y -> ~ y < x -> x = y.
Proof.
  intros H1 H2. apply Qcle_antisym; by apply Qcnot_lt_le.
Qed.






(** C9: on every stroke that passes the guard [num_points >= 18], all the
    array accesses up to the control arrays are in bounds, and
    [triagonal_solve] is only called on arrays of length at least 2. *)
Theorem solver_calls_in_bounds s :
  (18 <= num_points s)%nat ->
  exists c, bezier_controls s = Some c /\
            Forall (fun k => 2 <= k)%nat (solver_calls c).
Proof.
  intros H. destruct (bezier_controls_total s H) as (c & E & _ & _ & _ & _ & F).
  by exists c.
Qed.


(** ** Anchors on a line with uniform spacing *)

Lemma nat_to_double_add1 i : nat_to_double (i + 1) = nat_to_double i + 1.
Proof. by rewrite Nat.add_1_r. Qed.

Lemma nat_to_double_add2 i : nat_to_double (i + 2) = nat_to_double i + 1 + 1.
Proof. by replace (i + 2)%nat with (S (S i)) by lia. Qed.

Lemma axis_linear ac asd asb a0 d :
  (3 <= length ac)%nat ->
  (forall i, (i < length ac)%nat ->
             ac !! i = Some (a0 + nat_to_double i * d)) ->
  match axis_pass ac asd asb with
  | Some (_, b, c1, c2, _) =>
    b = ac /\
    length c1 = (length ac - 1)%nat /\ length c2 = (length ac - 1)%nat /\
    forall j, (j < length ac - 1)%nat ->
      c1 !! j = Some (a0 + nat_to_double j * d + d / lit 3) /\
      c2 !! j = Some (a0 + nat_to_double j * d + lit 2 * d / lit 3)
  | None => False
  end.
Proof.
  intros Hm Hlin.
  pose proof (axis_pass_spec ac asd asb Hm) as H.
  destruct (axis_pass ac asd asb) as [[[[[d' b] c1] c2] calls]|]; [|done].
  destruct H as (HL1 & HL2 & (x & Hb & HLx & Hx) & Hc).
  set (m := length ac) in *.
  assert (forall j, (j < m)%nat ->
            default 0 (ac !! j) = a0 + nat_to_double j * d) as HA.
  { intros j Hj. by rewrite Hlin. }
  set (y := map (fun j => a0 + nat_to_double (j + 1) * d) (seq 0 (m - 2))).
  assert (length y = (m - 2)%nat) as HLy.
  { unfold y. by rewrite length_map, length_seq. }
  assert (forall j, (j < m - 2)%nat ->
            y !! j = Some (a0 + nat_to_double (j + 1) * d)) as Hy.
  { intros j Hj. unfold y. by rewrite list_lookup_fmap, lookup_seq_lt. }
  assert (x = y) as ->.
  { destruct (decide (m = 3)%nat) as [E|NE].
    - destruct Hx as [-> _]. unfold y. rewrite E. simpl.
      rewrite !HA by lia. f_equal. simpl. lits. field. done.
    - destruct Hx as [Hs _].
      assert (axis_rhs ac = mat_vec tridiag_entry y) as Er.
      { apply list_eq. intros i.
        destruct (decide (i < m - 2)%nat) as [Hi|Hi].
        2: { rewrite !lookup_ge_None_2; [done| |].
             - rewrite mat_vec_length. lia.
             - rewrite axis_rhs_length. fold m. lia. }
        rewrite mat_vec_tridiag_lookup by lia.
        unfold axis_rhs. fold m.
        rewrite list_lookup_fmap, lookup_seq_lt by done. simpl. f_equal.
        rewrite !HA by lia.
        destruct (decide (i = m - 3)%nat) as [E3|N3].
        - rewrite (lookup_ge_None_2 y (S i)) by lia.
          destruct i as [|p]; [lia|].
          rewrite !Hy by lia. simpl.
          replace (m - 2)%nat with (p + 2)%nat by lia.
          replace (m - 1)%nat with (p + 3)%nat by lia.
          replace (p + 3)%nat with (S (p + 2)) by lia.
          rewrite !nat_to_double_add2, !nat_to_double_add1. simpl.
          rewrite ?nat_to_double_add2, ?nat_to_double_add1. lits. ring.
        - destruct i as [|p].
          + rewrite decide_True by done. rewrite !Hy by lia. simpl.
            lits. ring.
          + rewrite decide_False by lia. rewrite !Hy by lia. simpl.
            rewrite !nat_to_double_add1. simpl. lits. ring. }
      destruct (triagonal_solve_product (g_array_set_size asb (m - 2)) y)
        as [d2 Hs2]; [lia|by rewrite g_array_set_size_length|].
      rewrite Er, Hs2 in Hs. by injection Hs as <- _. }
  assert (forall j, (j < m)%nat ->
            default 0 (b !! j) = a0 + nat_to_double j * d) as HB.
  { intros j Hj. rewrite Hb.
    destruct j as [|j]; [by rewrite <- HA by lia|]. simpl.
    destruct (decide (j < m - 2)%nat) as [Hj'|Hj'].
    - rewrite lookup_app_l by lia. rewrite Hy by done. simpl.
      by rewrite nat_to_double_add1.
    - rewrite lookup_app_r by lia. rewrite HLy.
      replace (j - (m - 2))%nat with 0%nat by lia. simpl.
      rewrite HA by lia. replace (m - 1)%nat with (S j) by lia. done. }
  split.
  { apply list_eq. intros j.
    destruct (decide (j < m)%nat) as [Hj|Hj].
    - rewrite Hlin by done. rewrite <- HB by done.
      apply lookup_default. rewrite Hb. simpl. rewrite length_app. simpl. lia.
    - rewrite !lookup_ge_None_2; [done|fold m; lia|].
      rewrite Hb. simpl. rewrite length_app. simpl. lia. }
  split; [done|]. split; [done|].
  intros j Hj. destruct (Hc j Hj) as [-> ->].
  rewrite !HB by lia. simpl. lits. split; f_equal; field; done.
Qed.

Lemma axis_values_open_lookup (ctl : list gdouble) off i v :
  (i < length ctl / 6)%nat ->
  ctl !! (i * 6 + off)%nat = Some v ->
  axis_values false ctl off !! i = Some v.
Proof.
  intros Hi Hv. unfold axis_values, scalar.
  rewrite list_lookup_fmap, lookup_seq_lt by done. simpl. by rewrite Hv.
Qed.

(** C7: on an open stroke whose anchors lie on a line with uniform spacing
    (per axis [a i = a 0 + i * d]), every computed [con1] value is
    [a j + d / 3] and every [con2] value is [a j + 2 * d / 3], where [j] is
    the first anchor of the segment. *)
Theorem linear_controls s n x0 dx y0 dy :
  (3 <= n)%nat -> num_points s = (6 * n)%nat -> closed s = false ->
  (forall i, (i < n)%nat ->
     ctlpts s !! (i * 6 + 2)%nat = Some (x0 + nat_to_double i * dx) /\
     ctlpts s !! (i * 6 + 3)%nat = Some (y0 + nat_to_double i * dy)) ->
  exists c,
    bezier_controls s = Some c /\
    length (aconx1 c) = (n - 1)%nat /\ length (aconx2 c) = (n - 1)%nat /\
    length (acony1 c) = (n - 1)%nat /\ length (acony2 c) = (n - 1)%nat /\
    forall j, (j < n - 1)%nat ->
      aconx1 c !! j = Some (x0 + nat_to_double j * dx + dx / lit 3) /\
      aconx2 c !! j = Some (x0 + nat_to_double j * dx + lit 2 * dx / lit 3) /\
      acony1 c !! j = Some (y0 + nat_to_double j * dy + dy / lit 3) /\
      acony2 c !! j = Some (y0 + nat_to_double j * dy + lit 2 * dy / lit 3).
Proof.
  intros Hn Hnp Hopen Hlin.
  pose proof (bezier_controls_spec s ltac:(lia)) as H.
  destruct (bezier_controls s) as [c|]; [|done]. exists c. split; [done|].
  destruct H as (d1 & bx & x1 & x2 & cx & d2 & by' & y1 & y2 & cy
                 & Ex & Ey & ->).
  rewrite Hopen in *. cbn [aconx1 aconx2 acony1 acony2 stripped].
  unfold num_points in Hnp.
  assert (length (ctlpts s) / 6 = n)%nat as Hdiv.
  { rewrite Hnp, Nat.mul_comm. by apply Nat.div_mul. }
  assert (forall off, length (axis_values false (ctlpts s) off) = n) as HL.
  { intros off. by rewrite axis_values_length. }
  pose proof (axis_linear (axis_values false (ctlpts s) 2) [] [] x0 dx) as Hx.
  pose proof (axis_linear (axis_values false (ctlpts s) 3) d1 bx y0 dy) as Hy.
  rewrite Ex, HL in Hx. rewrite Ey, HL in Hy.
  destruct Hx as (_ & L1 & L2 & Hx); [done| |].
  { intros i Hi. apply axis_values_open_lookup; [lia|]. by apply Hlin. }
  destruct Hy as (_ & L3 & L4 & Hy); [done| |].
  { intros i Hi. apply axis_values_open_lookup; [lia|]. by apply Hlin. }
  do 4 (split; [done|]). intros j Hj.
  destruct (Hx j Hj) as [-> ->]. by destruct (Hy j Hj) as [-> ->].
Qed.


(** ** Closed strokes and rotation of the anchor list *)

Lemma mod_eq a n q r : (a = n * q + r)%nat -> (r < n)%nat -> (a mod n = r)%nat.
Proof. intros H1 H2. symmetry. by apply (Nat.mod_unique a n q r). Qed.

Lemma scalar_rotate (ctl : list gdouble) n i off :
  (3 <= n)%nat -> length ctl = (6 * n)%nat -> (i < n)%nat -> (off < 6)%nat ->
  scalar (drop 6 ctl ++ take 6 ctl) i off = scalar ctl ((i + 1) mod n) off.
Proof.
  intros Hn Hnp Hi Hoff. unfold scalar. f_equal.
  destruct (decide (i = n - 1)%nat) as [->|Hne].
  - rewrite (mod_eq (n - 1 + 1) n 1 0) by lia.
    rewrite lookup_app_r by (rewrite length_drop; lia).
    rewrite length_drop.
    replace ((n - 1) * 6 + off - (length ctl - 6))%nat with off by lia.
    by rewrite lookup_take_lt by lia.
  - rewrite Nat.mod_small by lia.
    rewrite lookup_app_l by (rewrite length_drop; lia).
    rewrite lookup_drop. f_equal. lia.
Qed.

Lemma smoothed_rotate svals (ctl : list gdouble) n i :
  (3 <= n)%nat -> length ctl = (6 * n)%nat -> (i < n)%nat ->
  smoothed svals true (drop 6 ctl ++ take 6 ctl) n i
  = smoothed svals true ctl n ((i + 1) mod n).
Proof.
  intros Hn Hnp Hi. unfold smoothed, corner_test.
  assert (forall k, (k mod n < n)%nat) as Hlt.
  { intros k. apply Nat.mod_upper_bound. lia. }
  rewrite !(scalar_rotate ctl n) by (auto; lia).
  assert (((i + n - 1) mod n + 1) mod n
          = ((i + 1) mod n + n - 1) mod n)%nat as ->; [|done].
  destruct (decide (i = 0)%nat) as [->|H0].
  - rewrite (mod_eq (0 + n - 1) n 0 (n - 1)) by lia.
    rewrite (mod_eq (n - 1 + 1) n 1 0) by lia.
    rewrite (mod_eq (0 + 1) n 0 1) by lia.
    by rewrite (mod_eq (1 + n - 1) n 1 0) by lia.
  - rewrite (mod_eq (i + n - 1) n 1 (i - 1)) by lia.
    rewrite (mod_eq (i - 1 + 1) n 0 i) by lia.
    destruct (decide (i = n - 1)%nat) as [->|H1].
    + rewrite (mod_eq (n - 1 + 1) n 1 0) by lia.
      by rewrite (mod_eq (0 + n - 1) n 0 (n - 1)) by lia.
    + rewrite (mod_eq (i + 1) n 0 (i + 1)) by lia.
      by rewrite (mod_eq (i + 1 + n - 1) n 1 i) by lia.
Qed.

(** C4, amended: on a closed stroke of [n >= 3] anchors the two control
    points of anchor [i] are replaced, by the entries of the control arrays
    for the segments after and before [i], exactly when the corner test on
    the anchors [(i - 1) mod n], [i], [(i + 1) mod n] passes, so that the
    anchor before anchor 0 is anchor [n - 1] and the anchor after anchor
    [n - 1] is anchor 0; and the corner tests of the stroke with its
    anchor list rotated by one position are the tests of the original
    stroke, rotated correspondingly. *)
Theorem closed_wrap_corners svals s n :
  (3 <= n)%nat -> num_points s = (6 * n)%nat -> closed s = true ->
  exists c out,
    bezier_controls s = Some c /\
    set_bezier_path svals s = Some out /\
    (forall i, (i < n)%nat ->
       let p := ((i + n - 1) mod n)%nat in
       let q := ((i + 1) mod n)%nat in
       let t := corner_test svals (ctlpts s) p i q in
       ctlpts out !! (i * 6 + 4)%nat
       = (if t then aconx1 c !! i else ctlpts s !! (i * 6 + 4)%nat) /\
       ctlpts out !! (i * 6 + 5)%nat
       = (if t then acony1 c !! i else ctlpts s !! (i * 6 + 5)%nat) /\
       ctlpts out !! (i * 6 + 0)%nat
       = (if t then aconx2 c !! p else ctlpts s !! (i * 6 + 0)%nat) /\
       ctlpts out !! (i * 6 + 1)%nat
       = (if t then acony2 c !! p else ctlpts s !! (i * 6 + 1)%nat)) /\
    (forall i, (i < n)%nat ->
       let i' := ((i + 1) mod n)%nat in
       corner_test svals (ctlpts (rotate_anchors s))
         ((i + n - 1) mod n) i ((i + 1) mod n)
       = corner_test svals (ctlpts s)
           ((i' + n - 1) mod n) i' ((i' + 1) mod n)).
Proof.
  intros Hn Hnp Hcl.
  destruct (set_bezier_path_controls svals s n Hn Hnp)
    as (c & out & Ec & _ & _ & _ & _ & E & Hout).
  exists c, out. split; [done|]. split; [done|]. split.
  - intros i Hi. specialize (Hout i Hi). rewrite Hcl in Hout.
    cbn [orb andb] in Hout. exact Hout.
  - intros i Hi. exact (smoothed_rotate svals (ctlpts s) n i Hn Hnp Hi).
Qed.

(** * Further properties *)

(** ** The spline system *)

(** The solver solves the system for every length, 1 included. *)
Lemma triagonal_solve_system (asb rhs : list Qc) :
  (1 <= length rhs)%nat -> length asb = length rhs ->
  exists x d, triagonal_solve asb rhs = Some (x, d) /\
              length x = length rhs /\
              mat_vec tridiag_entry x = rhs.
Proof.
  intros Hn Hlen.
  pose proof (triagonal_solve_spec asb rhs ltac:(lia) ltac:(lia)) as H.
  destruct (triagonal_solve asb rhs) as [[x d]|]; [|done].
  destruct H as (HL & Hlast & Hx). exists x, d.
  split; [done|]. split; [lia|].
  apply list_eq. intros i.
  destruct (decide (i < length x)%nat) as [Hi|Hi].
  2: { rewrite !lookup_ge_None_2; [done|lia|rewrite mat_vec_length; lia]. }
  rewrite mat_vec_tridiag_lookup by done.
  destruct (lookup_lt_is_Some_2 rhs i) as [ri Hri]; [lia|].
  rewrite Hri. f_equal.
  destruct (decide (S i < length asb)%nat) as [Hi'|Hi'].
  - destruct (Hx i Hi') as (xn & E1 & E2). rewrite E1, E2. simpl.
    destruct i as [|p].
    + simpl. rewrite Hri. simpl. lits. by field.
    + destruct (Hx p) as (xi & E3 & E4); [lia|]. rewrite E4. simpl.
      rewrite E2 in E3. injection E3 as <-.
      simpl. rewrite Hri. simpl.
      pose proof (pivot_neq0 p) as Hp. revert Hp. lits. intros Hp.
      field. repeat split; done.
  - assert (i = length asb - 1)%nat as Ei by lia.
    rewrite (lookup_ge_None_2 x (S i)) by lia. simpl.
    destruct i as [|p].
    + rewrite <- Ei in Hlast. rewrite Hlast. simpl. rewrite Hri. simpl.
      lits. by field.
    + destruct (Hx p) as (xi & E3 & E4); [lia|]. rewrite E4, E3. simpl.
      rewrite Ei in E3. rewrite Hlast in E3. injection E3 as <-.
      rewrite <- Ei. simpl. rewrite Hri. simpl.
      pose proof (pivot_neq0 p) as Hp. revert Hp. lits. intros Hp.
      field. repeat split; done.
Qed.

Lemma entry_lookup (l : list Qc) i :
  (i < length l)%nat -> l !! i = Some (entry l i).
Proof. apply lookup_default. Qed.

Lemma entry_ge (l : list Qc) i : (length l <= i)%nat -> entry l i = 0.
Proof. intros H. unfold entry. by rewrite lookup_ge_None_2. Qed.

Lemma entry_eq_ext (l1 l2 : list Qc) :
  length l1 = length l2 ->
  (forall i, (i < length l1)%nat -> entry l1 i = entry l2 i) -> l1 = l2.
Proof.
  intros HL H. apply list_eq. intros i.
  destruct (decide (i < length l1)%nat) as [Hi|Hi].
  - rewrite !entry_lookup by lia. by rewrite H.
  - by rewrite !lookup_ge_None_2 by lia.
Qed.

(** The interior of [b] solves the system of [axis_solve]. *)
Lemma spline_nodes_system ac b :
  (4 <= length ac)%nat -> spline_nodes ac b ->
  mat_vec tridiag_entry (take (length ac - 2) (drop 1 b)) = axis_rhs ac.
Proof.
  intros Hm (HL & H0 & Hl & Hk).
  set (m := length ac) in *.
  set (x := take (m - 2) (drop 1 b)).
  assert (length x = (m - 2)%nat) as HLx.
  { unfold x. rewrite length_take, length_drop. lia. }
  assert (forall i, (i < m - 2)%nat -> entry x i = entry b (i + 1)) as Hx.
  { intros i Hi. unfold entry, x.
    rewrite lookup_take_lt by lia. rewrite lookup_drop.
    by replace (1 + i)%nat with (i + 1)%nat by lia. }
  apply list_eq. intros i.
  destruct (decide (i < m - 2)%nat) as [Hi|Hi].
  2: { rewrite !lookup_ge_None_2; [done| |].
       - rewrite axis_rhs_length. fold m. lia.
       - rewrite mat_vec_length. lia. }
  rewrite mat_vec_tridiag_lookup by lia.
  unfold axis_rhs. fold m.
  rewrite list_lookup_fmap, lookup_seq_lt by done. simpl. f_equal.
  fold (entry x i) (entry x (S i)) (entry ac (i + 1)) (entry ac 1)
    (entry ac 0) (entry ac (m - 2)) (entry ac (m - 1)).
  specialize (Hk (i + 1)%nat ltac:(lia)).
  replace (i + 1 - 1)%nat with i in Hk by lia.
  replace (i + 1 + 1)%nat with (i + 2)%nat in Hk by lia.
  rewrite (Hx i) by done.
  destruct (decide (i = m - 3)%nat) as [E3|N3].
  - rewrite (entry_ge x (S i)) by lia.
    replace (m - 2)%nat with (i + 1)%nat by lia.
    replace (m - 1)%nat with (i + 2)%nat in * by lia.
    destruct i as [|p]; [lia|].
    fold (entry x p). rewrite (Hx p) by lia.
    replace (p + 1)%nat with (S p) by lia.
    rewrite <- Hk, Hl. revert Hk. lits. intros Hk. ring.
  - replace (S i) with (i + 1)%nat by lia. rewrite (Hx (i + 1)%nat) by lia.
    replace (i + 1 + 1)%nat with (i + 2)%nat by lia.
    destruct i as [|p].
    + rewrite decide_True by done. simpl in *. rewrite <- Hk, H0.
      lits. ring.
    + rewrite decide_False by lia. fold (entry x p).
      rewrite (Hx p) by lia. replace (p + 1)%nat with (S p) by lia.
      rewrite <- Hk. lits. ring.
Qed.

Lemma interior_entry (b : list Qc) m i :
  length b = m -> (i < m - 2)%nat ->
  entry (take (m - 2) (drop 1 b)) i = entry b (i + 1).
Proof.
  intros HL Hi. unfold entry.
  rewrite lookup_take_lt by lia. rewrite lookup_drop.
  by replace (1 + i)%nat with (i + 1)%nat by lia.
Qed.

(** The node values are determined by the anchor values. *)
Lemma spline_nodes_unique ac b b' :
  (3 <= length ac)%nat -> spline_nodes ac b -> spline_nodes ac b' -> b = b'.
Proof.
  intros Hm Hb Hb'.
  pose proof Hb as (HL & H0 & Hl & Hk).
  pose proof Hb' as (HL' & H0' & Hl' & Hk').
  set (m := length ac) in *.
  assert (forall k, (1 <= k <= m - 2)%nat -> entry b k = entry b' k) as Hmid.
  { destruct (decide (m = 3)%nat) as [E|NE].
    - intros k Hk1. assert (k = 1)%nat as -> by lia.
      specialize (Hk 1%nat ltac:(lia)). specialize (Hk' 1%nat ltac:(lia)).
      simpl in Hk, Hk'. rewrite E in Hl, Hl'. simpl in Hl, Hl'.
      rewrite H0, Hl in Hk. rewrite H0', Hl' in Hk'.
      assert (lit 4 * entry b 1 = lit 4 * entry b' 1) as H4.
      { rewrite <- Hk' in Hk.
        apply (f_equal (fun v => v - entry ac 0 - entry ac 2)) in Hk.
        ring_simplify in Hk. exact Hk. }
      revert H4. lits. intros H4.
      replace (entry b 1)
        with ((1 + 1 + 1 + 1) * entry b 1 / (1 + 1 + 1 + 1)) by (by field).
      rewrite H4. by field.
    - pose proof (spline_nodes_system ac b ltac:(lia) Hb) as S1.
      pose proof (spline_nodes_system ac b' ltac:(lia) Hb') as S2.
      fold m in S1, S2.
      set (x := take (m - 2) (drop 1 b)) in *.
      set (x' := take (m - 2) (drop 1 b')) in *.
      assert (length x = (m - 2)%nat) as HLx.
      { unfold x. rewrite length_take, length_drop. lia. }
      assert (length x' = (m - 2)%nat) as HLx'.
      { unfold x'. rewrite length_take, length_drop. lia. }
      destruct (triagonal_solve_product x x) as [d E1]; [lia|done|].
      destruct (triagonal_solve_product x x') as [d' E2]; [lia|lia|].
      rewrite S1 in E1. rewrite S2 in E2. rewrite E1 in E2.
      injection E2 as Ex _.
      intros k Hk1.
      transitivity (entry x (k - 1)).
      + unfold x. rewrite (interior_entry b m) by lia. f_equal. lia.
      + rewrite Ex. unfold x'. rewrite (interior_entry b' m) by lia.
        f_equal. lia. }
  apply entry_eq_ext; [lia|]. intros i Hi.
  destruct (decide (i = 0)%nat) as [->|N0]; [by rewrite H0, H0'|].
  destruct (decide (i = m - 1)%nat) as [->|N1]; [by rewrite Hl, Hl'|].
  apply Hmid. lia.
Qed.

Lemma axis_pass_nodes ac asd asb :
  (3 <= length ac)%nat ->
  match axis_pass ac asd asb with
  | Some (_, b, c1, c2, _) => spline_nodes ac b /\ bezier_of_nodes b c1 c2
  | None => False
  end.
Proof.
  intros Hm.
  pose proof (axis_pass_spec ac asd asb Hm) as H.
  destruct (axis_pass ac asd asb) as [[[[[d b] c1] c2] calls]|]; [|done].
  destruct H as (HL1 & HL2 & (x & Hb & HLx & Hx) & Hc).
  set (m := length ac) in *.
  assert (length b = m) as HLb.
  { rewrite Hb. simpl. rewrite length_app. simpl. lia. }
  assert (entry b 0 = entry ac 0) as H0 by (by rewrite Hb).
  assert (entry b (m - 1) = entry ac (m - 1)) as Hl.
  { rewrite Hb. unfold entry at 1.
    replace (m - 1)%nat with (S (length x)) by lia. simpl.
    by rewrite list_lookup_middle. }
  assert (forall j, (j < m - 2)%nat -> entry b (S j) = entry x j) as Hbx.
  { intros j Hj. rewrite Hb. unfold entry. simpl.
    by rewrite lookup_app_l by lia. }
  split.
  - split; [done|]. split; [done|]. split; [done|]. fold m.
    intros k Hk. destruct k as [|j]; [lia|].
    replace (S j - 1)%nat with j by lia.
    replace (S j + 1)%nat with (S (S j)) by lia.
    rewrite (Hbx j) by lia.
    destruct (decide (m = 3)%nat) as [E|NE].
    + assert (j = 0)%nat as -> by lia. destruct Hx as [Ex _].
      rewrite H0.
      replace (entry b 2) with (entry ac 2).
      2: { rewrite E in Hl. simpl in Hl. by rewrite Hl. }
      rewrite Ex. unfold entry. simpl. lits. by field.
    + destruct Hx as [Hs _].
      destruct (triagonal_solve_system (g_array_set_size asb (m - 2))
                  (axis_rhs ac)) as (x' & d' & Es & _ & Hsys).
      { rewrite axis_rhs_length. fold m. lia. }
      { by rewrite g_array_set_size_length, axis_rhs_length. }
      rewrite Hs in Es. injection Es as <- <-.
      assert (mat_vec tridiag_entry x !! j = axis_rhs ac !! j) as Hrow
        by (by rewrite Hsys).
      rewrite mat_vec_tridiag_lookup in Hrow by lia.
      unfold axis_rhs in Hrow. fold m in Hrow.
      rewrite list_lookup_fmap, lookup_seq_lt in Hrow by lia.
      simpl in Hrow. injection Hrow as Hrow.
      fold (entry x j) (entry x (S j)) (entry ac (j + 1))
        (entry ac 1) (entry ac 0) (entry ac (m - 2)) (entry ac (m - 1))
        in Hrow.
      replace (j + 1)%nat with (S j) in Hrow by lia.
      destruct (decide (j = m - 3)%nat) as [E3|N3].
      * rewrite (entry_ge x (S j)) in Hrow by lia.
        replace (S (S j)) with (m - 1)%nat by lia. rewrite Hl.
        replace (m - 2)%nat with (S j) in Hrow by lia.
        destruct j as [|p]; [lia|].
        fold (entry x p) in Hrow. rewrite (Hbx p) by lia.
        replace (lit 6 * entry ac (S (S p)))
          with (lit 6 * entry ac (S (S p)) - entry ac (m - 1)
                + entry ac (m - 1)) by ring.
        rewrite <- Hrow. ring.
      * rewrite (Hbx (S j)) by lia.
        destruct j as [|p].
        -- rewrite decide_True in Hrow by done. rewrite H0.
           replace (lit 6 * entry ac 1)
             with (lit 6 * entry ac 1 - entry ac 0 + entry ac 0) by ring.
           rewrite <- Hrow. ring.
        -- rewrite decide_False in Hrow by lia.
           fold (entry x p) in Hrow. rewrite (Hbx p) by lia. exact Hrow.
  - split; [lia|]. split; [lia|]. rewrite HLb. exact Hc.
Qed.

(** ** One axis: the natural cubic spline *)

Lemma bezier_of_nodes_unique (b c1 c2 c1' c2' : list Qc) :
  bezier_of_nodes b c1 c2 -> bezier_of_nodes b c1' c2' ->
  c1 = c1' /\ c2 = c2'.
Proof.
  intros (L1 & L2 & H) (L1' & L2' & H').
  split; apply list_eq; intros j.
  all: destruct (decide (j < length b - 1)%nat) as [Hj|Hj];
    [ destruct (H j Hj) as [E1 E2]; destruct (H' j Hj) as [E1' E2'];
      congruence
    | by rewrite !lookup_ge_None_2 by lia ].
Qed.

Lemma axis_pass_unique ac asd asb d b c1 c2 calls b' c1' c2' :
  (3 <= length ac)%nat ->
  axis_pass ac asd asb = Some (d, b, c1, c2, calls) ->
  spline_nodes ac b' -> bezier_of_nodes b' c1' c2' ->
  b = b' /\ c1 = c1' /\ c2 = c2'.
Proof.
  intros Hm E Hb' Hc'.
  pose proof (axis_pass_nodes ac asd asb Hm) as H. rewrite E in H.
  destruct H as [Hb Hc].
  pose proof (spline_nodes_unique ac b b' Hm Hb Hb') as ->.
  split; [done|]. by apply (bezier_of_nodes_unique b').
Qed.

Lemma axis_pass_calls ac asd asb d b c1 c2 calls :
  (3 <= length ac)%nat ->
  axis_pass ac asd asb = Some (d, b, c1, c2, calls) ->
  calls = if decide (length ac = 3)%nat then [] else [(length ac - 2)%nat].
Proof.
  intros Hm E.
  pose proof (axis_pass_spec ac asd asb Hm) as H. rewrite E in H.
  destruct H as (_ & _ & (x & _ & _ & Hx) & _).
  destruct (decide (length ac = 3)%nat); by destruct Hx as [_ ->].
Qed.

(** X1: on at least 3 anchor values of one axis, whatever the work arrays
    hold, the axis block of [set_bezier_path] runs through and leaves in
    [asb] the node values of the natural cubic spline through the anchor
    values: the first and the last node are the first and the last anchor
    value, and at every interior position [b(k-1) + 4 b(k) + b(k+1)] is
    [6 a(k)], also on the branch for exactly 3 values that does not call
    the solver.  The control arrays hold [(2 b(j) + b(j+1)) / 3] and
    [(b(j) + 2 b(j+1)) / 3] for every segment [j]. *)
Theorem axis_pass_spline ac asd asb :
  (3 <= length ac)%nat ->
  exists d b c1 c2 calls,
    axis_pass ac asd asb = Some (d, b, c1, c2, calls) /\
    spline_nodes ac b /\ bezier_of_nodes b c1 c2.
Proof.
  intros Hm. pose proof (axis_pass_nodes ac asd asb Hm) as H.
  destruct (axis_pass ac asd asb) as [[[[[d b] c1] c2] calls]|]; [|done].
  by exists d, b, c1, c2, calls.
Qed.

(** X2: the node values and the control arrays of one axis do not depend
    on what the work arrays [asd] and [asb] hold on entry; the y pass,
    which reuses the arrays the x pass leaves behind, computes what it
    would compute on fresh arrays. *)
Theorem axis_pass_work_arrays ac asd asb asd' asb' :
  (3 <= length ac)%nat ->
  exists d d' b c1 c2 calls,
    axis_pass ac asd asb = Some (d, b, c1, c2, calls) /\
    axis_pass ac asd' asb' = Some (d', b, c1, c2, calls).
Proof.
  intros Hm.
  pose proof (axis_pass_nodes ac asd asb Hm) as H.
  pose proof (axis_pass_nodes ac asd' asb' Hm) as H'.
  destruct (axis_pass ac asd asb) as [[[[[d b] c1] c2] calls]|] eqn:E;
    [|done].
  destruct (axis_pass ac asd' asb') as [[[[[d' b'] c1'] c2'] calls']|] eqn:E';
    [|done].
  destruct H' as [Hb' Hc'].
  destruct (axis_pass_unique _ _ _ _ _ _ _ _ b' c1' c2' Hm E Hb' Hc')
    as (-> & -> & ->).
  rewrite (axis_pass_calls _ _ _ _ _ _ _ _ Hm E).
  rewrite (axis_pass_calls _ _ _ _ _ _ _ _ Hm E').
  by exists d, d', b', c1', c2',
    (if decide (length ac = 3)%nat then [] else [(length ac - 2)%nat]).
Qed.

Lemma entry_fmap (f : Qc -> Qc) (l : list Qc) i :
  (i < length l)%nat -> entry (f <$> l) i = f (entry l i).
Proof.
  intros Hi. unfold entry. rewrite list_lookup_fmap.
  destruct (lookup_lt_is_Some_2 l i Hi) as [v ->]. done.
Qed.

Lemma entry_reverse (l : list Qc) i :
  (i < length l)%nat -> entry (reverse l) i = entry l (length l - 1 - i).
Proof.
  intros Hi. unfold entry. rewrite reverse_lookup by done.
  by replace (length l - S i)%nat with (length l - 1 - i)%nat by lia.
Qed.

Lemma spline_nodes_reverse ac b :
  (3 <= length ac)%nat -> spline_nodes ac b ->
  spline_nodes (reverse ac) (reverse b).
Proof.
  intros Hm (HL & H0 & Hl & Hk). unfold spline_nodes.
  rewrite !length_reverse. set (m := length ac) in *.
  split; [done|].
  rewrite !entry_reverse by lia. fold m. rewrite HL.
  replace (m - 1 - 0)%nat with (m - 1)%nat by lia.
  replace (m - 1 - (m - 1))%nat with 0%nat by lia.
  split; [done|]. split; [done|].
  intros k Hk1. rewrite !entry_reverse by lia. fold m. rewrite HL.
  specialize (Hk (m - 1 - k)%nat ltac:(lia)).
  replace (m - 1 - (k - 1))%nat with (m - 1 - k + 1)%nat by lia.
  replace (m - 1 - (k + 1))%nat with (m - 1 - k - 1)%nat by lia.
  rewrite <- Hk. ring.
Qed.

Lemma bezier_of_nodes_reverse (b c1 c2 : list Qc) :
  bezier_of_nodes b c1 c2 ->
  bezier_of_nodes (reverse b) (reverse c2) (reverse c1).
Proof.
  intros (L1 & L2 & H). unfold bezier_of_nodes.
  rewrite !length_reverse. split; [done|]. split; [done|].
  intros j Hj. rewrite !reverse_lookup by lia.
  rewrite !entry_reverse by lia.
  destruct (H (length b - 2 - j)%nat ltac:(lia)) as [E1 E2].
  rewrite L1, L2.
  replace (length b - 1 - S j)%nat with (length b - 2 - j)%nat by lia.
  replace (length b - 1 - j)%nat with (S (length b - 2 - j)) by lia.
  rewrite E1, E2. split; f_equal; ring.
Qed.

Lemma spline_nodes_affine k t ac b :
  (3 <= length ac)%nat -> spline_nodes ac b ->
  spline_nodes ((fun v => k * v + t) <$> ac) ((fun v => k * v + t) <$> b).
Proof.
  intros Hm (HL & H0 & Hl & Hk). unfold spline_nodes.
  rewrite !length_fmap. split; [done|].
  rewrite !entry_fmap by lia. rewrite H0, Hl.
  split; [done|]. split; [done|].
  intros j Hj. rewrite !entry_fmap by lia.
  transitivity (k * (entry b (j - 1) + lit 4 * entry b j + entry b (j + 1))
                + lit 6 * t).
  - lits. ring.
  - rewrite (Hk j Hj). ring.
Qed.

Lemma bezier_of_nodes_affine k t (b c1 c2 : list Qc) :
  bezier_of_nodes b c1 c2 ->
  bezier_of_nodes ((fun v => k * v + t) <$> b)
    ((fun v => k * v + t) <$> c1) ((fun v => k * v + t) <$> c2).
Proof.
  intros (L1 & L2 & H). unfold bezier_of_nodes.
  rewrite !length_fmap. split; [done|]. split; [done|].
  intros j Hj. rewrite !list_lookup_fmap, !entry_fmap by lia.
  destruct (H j Hj) as [-> ->]. simpl.
  split; f_equal; lits; by field.
Qed.

(** X3: the spline of one axis does not depend on the direction in which
    the anchors are listed: on the reversed anchor values the axis block
    computes the reversed node values, and the two control arrays change
    places and are reversed, so every segment keeps its two control values
    with their roles exchanged. *)
Theorem axis_pass_reverse ac asd asb asd' asb' :
  (3 <= length ac)%nat ->
  exists d d' b c1 c2 calls,
    axis_pass ac asd asb = Some (d, b, c1, c2, calls) /\
    axis_pass (reverse ac) asd' asb'
    = Some (d', reverse b, reverse c2, reverse c1, calls).
Proof.
  intros Hm.
  pose proof (axis_pass_nodes ac asd asb Hm) as H.
  assert (3 <= length (reverse ac))%nat as Hm' by (by rewrite length_reverse).
  pose proof (axis_pass_nodes (reverse ac) asd' asb' Hm') as H'.
  destruct (axis_pass ac asd asb) as [[[[[d b] c1] c2] calls]|] eqn:E;
    [|done].
  destruct (axis_pass (reverse ac) asd' asb')
    as [[[[[d' b'] c1'] c2'] calls']|] eqn:E'; [|done].
  destruct H as [Hb Hc].
  destruct (axis_pass_unique _ _ _ _ _ _ _ _
              (reverse b) (reverse c2) (reverse c1) Hm' E') as (-> & -> & ->).
  { by apply spline_nodes_reverse. }
  { by apply bezier_of_nodes_reverse. }
  exists d, d', b, c1, c2, calls. split; [done|].
  rewrite (axis_pass_calls _ _ _ _ _ _ _ _ Hm E).
  rewrite (axis_pass_calls _ _ _ _ _ _ _ _ Hm' E').
  by rewrite length_reverse.
Qed.

(** X4: the spline of one axis commutes with scaling and shifting the
    anchor values: on the values [k * a + t] the axis block computes the
    node values and the control values of [a], scaled by [k] and shifted
    by [t]. *)
Theorem axis_pass_affine k t ac asd asb asd' asb' :
  (3 <= length ac)%nat ->
  exists d d' b c1 c2 calls,
    axis_pass ac asd asb = Some (d, b, c1, c2, calls) /\
    axis_pass ((fun v => k * v + t) <$> ac) asd' asb'
    = Some (d', (fun v => k * v + t) <$> b, (fun v => k * v + t) <$> c1,
            (fun v => k * v + t) <$> c2, calls).
Proof.
  intros Hm.
  pose proof (axis_pass_nodes ac asd asb Hm) as H.
  assert (3 <= length ((fun v => (k * v + t)%Qc) <$> ac))%nat as Hm'
    by (by rewrite length_fmap).
  pose proof (axis_pass_nodes _ asd' asb' Hm') as H'.
  destruct (axis_pass ac asd asb) as [[[[[d b] c1] c2] calls]|] eqn:E;
    [|done].
  destruct (axis_pass ((fun v => k * v + t) <$> ac) asd' asb')
    as [[[[[d' b'] c1'] c2'] calls']|] eqn:E'; [|done].
  destruct H as [Hb Hc].
  destruct (axis_pass_unique _ _ _ _ _ _ _ _
              ((fun v => k * v + t) <$> b) ((fun v => k * v + t) <$> c1)
              ((fun v => k * v + t) <$> c2) Hm' E') as (-> & -> & ->).
  { by apply spline_nodes_affine. }
  { by apply bezier_of_nodes_affine. }
  exists d, d', b, c1, c2, calls. split; [done|].
  rewrite (axis_pass_calls _ _ _ _ _ _ _ _ Hm E).
  rewrite (axis_pass_calls _ _ _ _ _ _ _ _ Hm' E').
  by rewrite length_fmap.
Qed.

(** ** The control arrays of a stroke and the spline through its anchors *)

Lemma stripped_lookup cl (acon : list Qc) i :
  (2 <= length acon)%nat ->
  (i < length (stripped cl acon))%nat ->
  stripped cl acon !! i = acon !! (i + if cl then 1 else 0)%nat.
Proof.
  intros HL Hi. rewrite stripped_length in Hi by done. unfold stripped.
  destruct cl.
  - rewrite list_lookup_delete_ge by lia.
    rewrite list_lookup_delete_lt by lia. f_equal. lia.
  - f_equal. lia.
Qed.

Lemma axis_values_entry cl (ctl : list Qc) n off i :
  (3 <= n)%nat -> length ctl = (6 * n)%nat -> (i < n)%nat ->
  entry (axis_values cl ctl off) (i + if cl then 1 else 0) = scalar ctl i off.
Proof.
  intros Hn Hnp Hi. unfold entry, axis_values.
  assert (length ctl / 6 = n)%nat as ->.
  { rewrite Hnp, Nat.mul_comm. by apply Nat.div_mul. }
  destruct cl.
  - replace (i + 1)%nat with (S i) by lia. simpl.
    rewrite lookup_app_l by (rewrite length_map, length_seq; lia).
    by rewrite list_lookup_fmap, lookup_seq_lt by done.
  - rewrite Nat.add_0_r. by rewrite list_lookup_fmap, lookup_seq_lt by done.
Qed.

(** The control arrays of a stroke of [n] anchors, through the node values
    [bx] and [by'] of the two axes; [k] is the number of anchors put in
    front of the anchor values, 1 for a closed stroke. *)
Lemma controls_spline s n :
  (3 <= n)%nat -> num_points s = (6 * n)%nat ->
  exists c bx by',
    bezier_controls s = Some c /\
    spline_nodes (axis_values (closed s) (ctlpts s) 2) bx /\
    spline_nodes (axis_values (closed s) (ctlpts s) 3) by' /\
    forall i, (i < control_count s)%nat ->
      let k := (i + if closed s then 1 else 0)%nat in
      aconx1 c !! i
      = Some (lit 2 * entry bx k / lit 3 + entry bx (S k) / lit 3) /\
      aconx2 c !! i
      = Some (entry bx k / lit 3 + lit 2 * entry bx (S k) / lit 3) /\
      acony1 c !! i
      = Some (lit 2 * entry by' k / lit 3 + entry by' (S k) / lit 3) /\
      acony2 c !! i
      = Some (entry by' k / lit 3 + lit 2 * entry by' (S k) / lit 3).
Proof.
  intros Hn Hnp.
  pose proof (bezier_controls_spec s ltac:(lia)) as H.
  destruct (bezier_controls_total s ltac:(lia))
    as (c & Ec & L1 & L2 & L3 & L4 & _).
  rewrite Ec in H.
  destruct H as (dx & bx & x1 & x2 & cx & dy & by' & y1 & y2 & cy
                 & Ex & Ey & Hc).
  assert (forall off, length (axis_values (closed s) (ctlpts s) off)
            = if closed s then (n + 3)%nat else n) as HL.
  { intros off. rewrite axis_values_length. unfold num_points in Hnp.
    rewrite Hnp, Nat.mul_comm, Nat.div_mul by lia. done. }
  assert (control_count s = if closed s then n else (n - 1)%nat) as Hcc.
  { unfold control_count. rewrite Hnp, Nat.mul_comm, Nat.div_mul by lia.
    done. }
  pose proof (axis_pass_nodes (axis_values (closed s) (ctlpts s) 2) [] [])
    as Hx.
  pose proof (axis_pass_nodes (axis_values (closed s) (ctlpts s) 3) dx bx)
    as Hy.
  rewrite Ex in Hx. rewrite Ey in Hy. rewrite !HL in Hx, Hy.
  destruct Hx as [Nx (Lx1 & Lx2 & Cx)]; [destruct (closed s); lia|].
  destruct Hy as [Ny (Ly1 & Ly2 & Cy)]; [destruct (closed s); lia|].
  pose proof Nx as (Lbx & _). pose proof Ny as (Lby & _).
  rewrite HL in Lbx, Lby.
  exists c, bx, by'. split; [done|]. split; [done|]. split; [done|].
  intros i Hi k. rewrite Hcc in Hi.
  assert (k < length bx - 1)%nat as Hk.
  { unfold k. rewrite Lbx. destruct (closed s); lia. }
  assert (k < length by' - 1)%nat as Hk'.
  { unfold k. rewrite Lby. destruct (closed s); lia. }
  destruct (Cx k Hk) as [E1 E2]. destruct (Cy k Hk') as [E3 E4].
  rewrite <- E1, <- E2, <- E3, <- E4.
  rewrite Hc in L1, L2, L3, L4. cbn [aconx1 aconx2 acony1 acony2] in *.
  rewrite Hc. cbn [aconx1 aconx2 acony1 acony2].
  rewrite Hcc in L1, L2, L3, L4.
  assert (2 <= length x1 /\ 2 <= length x2 /\ 2 <= length y1
          /\ 2 <= length y2)%nat as (G1 & G2 & G3 & G4).
  { rewrite Lx1, Lx2, Ly1, Ly2, Lbx, Lby. destruct (closed s); lia. }
  rewrite !stripped_lookup; try done.
  all: rewrite ?L1, ?L2, ?L3, ?L4; destruct (closed s); lia.
Qed.

(** The scalars of the output of [set_bezier_path] on a stroke of [n]
    anchors, through the node values of the two axes. *)
Lemma output_spline svals s n :
  (3 <= n)%nat -> num_points s = (6 * n)%nat ->
  exists out bx by',
    set_bezier_path svals s = Some out /\
    closed out = closed s /\ num_points out = num_points s /\
    spline_nodes (axis_values (closed s) (ctlpts s) 2) bx /\
    spline_nodes (axis_values (closed s) (ctlpts s) 3) by' /\
    forall i, (i < n)%nat ->
      let k0 := (if closed s then 1 else 0)%nat in
      let q := smoothed svals (closed s) (ctlpts s) n i in
      let out1 := (closed s || bool_decide (i < n - 1)%nat) && q in
      let inc := (closed s || bool_decide (0 < i)%nat) && q in
      let p := ((i + n - 1) mod n)%nat in
      scalar (ctlpts out) i 2 = scalar (ctlpts s) i 2 /\
      scalar (ctlpts out) i 3 = scalar (ctlpts s) i 3 /\
      scalar (ctlpts out) i 4
      = (if out1 then lit 2 * entry bx (i + k0) / lit 3
                      + entry bx (S (i + k0)) / lit 3
         else scalar (ctlpts s) i 4) /\
      scalar (ctlpts out) i 5
      = (if out1 then lit 2 * entry by' (i + k0) / lit 3
                      + entry by' (S (i + k0)) / lit 3
         else scalar (ctlpts s) i 5) /\
      scalar (ctlpts out) i 0
      = (if inc then entry bx (p + k0) / lit 3
                     + lit 2 * entry bx (S (p + k0)) / lit 3
         else scalar (ctlpts s) i 0) /\
      scalar (ctlpts out) i 1
      = (if inc then entry by' (p + k0) / lit 3
                     + lit 2 * entry by' (S (p + k0)) / lit 3
         else scalar (ctlpts s) i 1).
Proof.
  intros Hn Hnp.
  destruct (controls_spline s n Hn Hnp) as (c & bx & by' & Ec & Nx & Ny & Hc).
  destruct (set_bezier_path_spec svals s n Hn Hnp)
    as (c' & out & Ec' & _ & _ & _ & _ & E & Hcl & HL & Hout).
  rewrite Ec in Ec'. injection Ec' as <-.
  assert (control_count s = if closed s then n else (n - 1)%nat) as Hcc.
  { unfold control_count. rewrite Hnp, Nat.mul_comm, Nat.div_mul by lia.
    done. }
  exists out, bx, by'. do 5 (split; [done|]).
  intros i Hi k0 q out1 inc p. unfold scalar.
  rewrite !Hout by lia. rewrite !final_at by lia.
  rewrite !decide_False by lia. rewrite !decide_True by done.
  cbn zeta. fold q. fold out1 inc p.
  split; [done|]. split; [done|].
  assert (p = if decide (i = 0)%nat then (n - 1)%nat else (i - 1)%nat) as Hp.
  { unfold p. unfold num_points in Hnp.
    by apply (prev_anchor (ctlpts s) n Hn Hnp). }
  split; [|split; [|split]].
  - destruct out1 eqn:Eo; [|done].
    destruct (Hc i) as (-> & _); [|done].
    rewrite Hcc. unfold out1 in Eo. destruct (closed s); [done|].
    cbn [orb] in Eo. apply andb_true_iff in Eo as [Eo _].
    apply bool_decide_eq_true_1 in Eo. lia.
  - destruct out1 eqn:Eo; [|done].
    destruct (Hc i) as (_ & _ & -> & _); [|done].
    rewrite Hcc. unfold out1 in Eo. destruct (closed s); [done|].
    cbn [orb] in Eo. apply andb_true_iff in Eo as [Eo _].
    apply bool_decide_eq_true_1 in Eo. lia.
  - destruct inc eqn:Eo; [|done].
    destruct (Hc p) as (_ & -> & _); [|done].
    rewrite Hcc, Hp. unfold inc in Eo. destruct (closed s).
    + case_decide; lia.
    + cbn [orb] in Eo. apply andb_true_iff in Eo as [Eo _].
      apply bool_decide_eq_true_1 in Eo. rewrite decide_False by lia. lia.
  - destruct inc eqn:Eo; [|done].
    destruct (Hc p) as (_ & _ & _ & ->); [|done].
    rewrite Hcc, Hp. unfold inc in Eo. destruct (closed s).
    + case_decide; lia.
    + cbn [orb] in Eo. apply andb_true_iff in Eo as [Eo _].
      apply bool_decide_eq_true_1 in Eo. rewrite decide_False by lia. lia.
Qed.

Lemma smoothed_all svals cl (ctl : list Qc) n i :
  smooth_specified svals = 0%Z -> smoothed svals cl ctl n i = true.
Proof.
  intros Hsp. unfold smoothed, corner_test, angle_between.
  rewrite !decide_True by done. rewrite Hsp.
  by repeat case_match.
Qed.

Lemma third_sum (u v w : Qc) :
  (u / lit 3 + lit 2 * v / lit 3) + (lit 2 * v / lit 3 + w / lit 3)
  = (u + lit 4 * v + w) / lit 3.
Proof. lits. by field. Qed.

Lemma six_thirds (a : Qc) : lit 6 * a / lit 3 = lit 2 * a.
Proof. lits. by field. Qed.

Lemma third_diff (u v w : Qc) :
  (lit 2 * u / lit 3 + v / lit 3) - lit 2 * (u / lit 3 + lit 2 * v / lit 3)
  = (v / lit 3 + lit 2 * w / lit 3) - lit 2 * (lit 2 * v / lit 3 + w / lit 3).
Proof. lits. by field. Qed.

Lemma third_end (u v : Qc) :
  u - lit 2 * (lit 2 * u / lit 3 + v / lit 3)
  + (u / lit 3 + lit 2 * v / lit 3) = 0.
Proof. lits. by field. Qed.

Lemma third_end' (u v : Qc) :
  (lit 2 * u / lit 3 + v / lit 3)
  - lit 2 * (u / lit 3 + lit 2 * v / lit 3) + v = 0.
Proof. lits. by field. Qed.

(** X5: wherever both control points of an anchor are replaced, the anchor
    is the midpoint of its new incoming and outgoing control points, so the
    curve runs through the anchor without a break in direction or speed.
    This holds at every anchor that passes the corner test, except the two
    ends of an open stroke and anchor 0 of a closed stroke. *)
Theorem smoothed_corner_tangent svals s n i :
  (3 <= n)%nat -> num_points s = (6 * n)%nat ->
  (0 < i < n)%nat -> closed s = true \/ (i < n - 1)%nat ->
  smoothed svals (closed s) (ctlpts s) n i = true ->
  exists out, set_bezier_path svals s = Some out /\
    scalar (ctlpts out) i 0 + scalar (ctlpts out) i 4
    = lit 2 * scalar (ctlpts out) i 2 /\
    scalar (ctlpts out) i 1 + scalar (ctlpts out) i 5
    = lit 2 * scalar (ctlpts out) i 3.
Proof.
  intros Hn Hnp Hi Hcl Hq.
  destruct (output_spline svals s n Hn Hnp)
    as (out & bx & by' & E & _ & _ & Nx & Ny & Hout).
  exists out. split; [done|].
  destruct (Hout i ltac:(lia)) as (A2 & A3 & A4 & A5 & A0 & A1).
  cbn zeta in A4, A5, A0, A1. rewrite Hq in A4, A5, A0, A1.
  unfold num_points in Hnp.
  rewrite (prev_anchor (ctlpts s) n Hn Hnp) in A0, A1 by lia.
  rewrite decide_False in A0, A1 by lia.
  assert ((closed s || bool_decide (i < n - 1)%nat) = true) as B1.
  { destruct Hcl as [->|H]; [done|].
    rewrite bool_decide_eq_true_2 by done. apply orb_true_r. }
  assert ((closed s || bool_decide (0 < i)%nat) = true) as B0.
  { rewrite bool_decide_eq_true_2 by lia. apply orb_true_r. }
  rewrite B1 in A4, A5. rewrite B0 in A0, A1. cbn [andb] in A4, A5, A0, A1.
  rewrite A2, A3, A4, A5, A0, A1.
  set (k0 := (if closed s then 1 else 0)%nat) in *.
  rewrite <- (axis_values_entry (closed s) (ctlpts s) n 2 i) by (done || lia).
  rewrite <- (axis_values_entry (closed s) (ctlpts s) n 3 i) by (done || lia).
  fold k0.
  destruct Nx as (_ & _ & _ & Kx). destruct Ny as (_ & _ & _ & Ky).
  assert (forall off, length (axis_values (closed s) (ctlpts s) off)
            = if closed s then (n + 3)%nat else n) as HL.
  { intros off. rewrite axis_values_length.
    rewrite Hnp, Nat.mul_comm, Nat.div_mul by lia. done. }
  rewrite HL in Kx, Ky.
  assert (1 <= i + k0 <= (if closed s then (n + 3)%nat else n) - 2)%nat as Hk.
  { unfold k0. destruct Hcl as [->|H]; [lia|]. destruct (closed s); lia. }
  specialize (Kx _ Hk). specialize (Ky _ Hk).
  replace (i + k0 - 1)%nat with (i - 1 + k0)%nat in Kx, Ky by lia.
  replace (i + k0 + 1)%nat with (S (i + k0)) in Kx, Ky by lia.
  replace (S (i - 1 + k0)) with (i + k0)%nat by lia.
  rewrite !third_sum, Kx, Ky. by rewrite !six_thirds.
Qed.

(** X6: where an anchor and its two neighbours all pass the corner test,
    the two segments that meet at the anchor have the same second
    derivative there: the outgoing control point of the anchor before,
    minus twice the incoming control point, equals the incoming control
    point of the anchor after, minus twice the outgoing control point.
    On a closed stroke the anchor after anchor [n - 1] is anchor 0; the
    two ends of an open stroke and anchor 0 of a closed stroke are left
    out. *)
Theorem smoothed_corner_curvature svals s n i :
  (3 <= n)%nat -> num_points s = (6 * n)%nat ->
  (0 < i < n)%nat -> closed s = true \/ (i < n - 1)%nat ->
  smoothed svals (closed s) (ctlpts s) n (i - 1) = true ->
  smoothed svals (closed s) (ctlpts s) n i = true ->
  smoothed svals (closed s) (ctlpts s) n ((i + 1) mod n) = true ->
  exists out, set_bezier_path svals s = Some out /\
    scalar (ctlpts out) (i - 1) 4 - lit 2 * scalar (ctlpts out) i 0
    = scalar (ctlpts out) ((i + 1) mod n) 0
      - lit 2 * scalar (ctlpts out) i 4 /\
    scalar (ctlpts out) (i - 1) 5 - lit 2 * scalar (ctlpts out) i 1
    = scalar (ctlpts out) ((i + 1) mod n) 1
      - lit 2 * scalar (ctlpts out) i 5.
Proof.
  intros Hn Hnp Hi Hcl Hq0 Hq1 Hq2.
  destruct (output_spline svals s n Hn Hnp)
    as (out & bx & by' & E & _ & _ & _ & _ & Hout).
  exists out. split; [done|].
  unfold num_points in Hnp.
  set (q := ((i + 1) mod n)%nat) in *.
  assert (q = if decide (i = n - 1)%nat then 0%nat else (i + 1)%nat) as Eq.
  { apply (next_anchor (ctlpts s) n Hn Hnp). lia. }
  assert (q < n)%nat as Hqn by (rewrite Eq; case_decide; lia).
  assert (((q + n - 1) mod n)%nat = i) as Ep.
  { rewrite (prev_anchor (ctlpts s) n Hn Hnp) by done.
    rewrite Eq. repeat case_decide; lia. }
  destruct (Hout (i - 1)%nat ltac:(lia)) as (_ & _ & A4 & A5 & _ & _).
  destruct (Hout i ltac:(lia)) as (_ & _ & B4 & B5 & B0 & B1).
  destruct (Hout q Hqn) as (_ & _ & _ & _ & C0 & C1).
  cbn zeta in A4, A5, B4, B5, B0, B1, C0, C1.
  rewrite Hq0 in A4, A5. rewrite Hq1 in B4, B5, B0, B1.
  rewrite Hq2, Ep in C0, C1.
  rewrite (prev_anchor (ctlpts s) n Hn Hnp) in B0, B1 by lia.
  rewrite decide_False in B0, B1 by lia.
  assert ((closed s || bool_decide (i - 1 < n - 1)%nat) = true) as G1.
  { rewrite bool_decide_eq_true_2 by lia. apply orb_true_r. }
  assert ((closed s || bool_decide (i < n - 1)%nat) = true) as G2.
  { destruct Hcl as [->|H]; [done|].
    rewrite bool_decide_eq_true_2 by done. apply orb_true_r. }
  assert ((closed s || bool_decide (0 < i)%nat) = true) as G3.
  { rewrite bool_decide_eq_true_2 by lia. apply orb_true_r. }
  assert ((closed s || bool_decide (0 < q)%nat) = true) as G4.
  { destruct Hcl as [->|H]; [done|].
    rewrite bool_decide_eq_true_2; [apply orb_true_r|].
    rewrite Eq. case_decide; lia. }
  rewrite G1 in A4, A5. rewrite G2 in B4, B5. rewrite G3 in B0, B1.
  rewrite G4 in C0, C1.
  cbn [andb] in A4, A5, B4, B5, B0, B1, C0, C1.
  rewrite A4, A5, B4, B5, B0, B1, C0, C1.
  set (k0 := (if closed s then 1 else 0)%nat).
  replace (S (i - 1 + k0)) with (i + k0)%nat by lia.
  split; apply third_diff.
Qed.

(** X7: with [smooth_specified] off, the curve through an open stroke of
    at least 3 anchors has second derivative zero at both ends, as a
    natural spline has: at the first anchor, the anchor minus twice its
    outgoing control point plus the incoming control point of the second
    anchor is zero, and likewise at the last anchor. *)
Theorem open_ends_natural svals s n :
  (3 <= n)%nat -> num_points s = (6 * n)%nat -> closed s = false ->
  smooth_specified svals = 0%Z ->
  exists out, set_bezier_path svals s = Some out /\
    scalar (ctlpts out) 0 2 - lit 2 * scalar (ctlpts out) 0 4
    + scalar (ctlpts out) 1 0 = 0 /\
    scalar (ctlpts out) 0 3 - lit 2 * scalar (ctlpts out) 0 5
    + scalar (ctlpts out) 1 1 = 0 /\
    scalar (ctlpts out) (n - 2) 4 - lit 2 * scalar (ctlpts out) (n - 1) 0
    + scalar (ctlpts out) (n - 1) 2 = 0 /\
    scalar (ctlpts out) (n - 2) 5 - lit 2 * scalar (ctlpts out) (n - 1) 1
    + scalar (ctlpts out) (n - 1) 3 = 0.
Proof.
  intros Hn Hnp Hopen Hsp.
  destruct (output_spline svals s n Hn Hnp)
    as (out & bx & by' & E & _ & _ & Nx & Ny & Hout).
  exists out. split; [done|].
  unfold num_points in Hnp.
  destruct (Hout 0%nat ltac:(lia)) as (A2 & A3 & A4 & A5 & _ & _).
  destruct (Hout 1%nat ltac:(lia)) as (_ & _ & _ & _ & B0 & B1).
  destruct (Hout (n - 2)%nat ltac:(lia)) as (_ & _ & C4 & C5 & _ & _).
  destruct (Hout (n - 1)%nat ltac:(lia)) as (D2 & D3 & _ & _ & D0 & D1).
  cbn zeta in A4, A5, B0, B1, C4, C5, D0, D1.
  rewrite !smoothed_all in A4, A5, B0, B1, C4, C5, D0, D1 by done.
  rewrite (prev_anchor (ctlpts s) n Hn Hnp) in B0, B1 by lia.
  rewrite (prev_anchor (ctlpts s) n Hn Hnp) in D0, D1 by lia.
  rewrite decide_False in B0, B1 by lia.
  rewrite decide_False in D0, D1 by lia.
  rewrite Hopen in *.
  rewrite !bool_decide_eq_true_2 in A4, A5, B0, B1, C4, C5, D0, D1 by lia.
  cbn [orb andb] in A4, A5, B0, B1, C4, C5, D0, D1.
  rewrite A2, A3, A4, A5, B0, B1, C4, C5, D2, D3, D0, D1.
  rewrite <- (axis_values_entry false (ctlpts s) n 2 0) by (done || lia).
  rewrite <- (axis_values_entry false (ctlpts s) n 3 0) by (done || lia).
  rewrite <- (axis_values_entry false (ctlpts s) n 2 (n - 1)) by (done || lia).
  rewrite <- (axis_values_entry false (ctlpts s) n 3 (n - 1)) by (done || lia).
  destruct Nx as (_ & X0 & Xl & _). destruct Ny as (_ & Y0 & Yl & _).
  assert (forall off, length (axis_values false (ctlpts s) off) = n) as HL.
  { intros off. rewrite axis_values_length.
    rewrite Hnp, Nat.mul_comm, Nat.div_mul by lia. done. }
  rewrite HL in Xl, Yl.
  rewrite !Nat.add_0_r. change (1 - 1)%nat with 0%nat.
  rewrite <- X0, <- Y0, <- Xl, <- Yl.
  replace (S (n - 2)) with (n - 1)%nat by lia.
  replace (n - 1 - 1)%nat with (n - 2)%nat by lia.
  replace (S (n - 2)) with (n - 1)%nat by lia.
  split; [apply third_end|]. split; [apply third_end|].
  split; apply third_end'.
Qed.

(** ** Strokes that are left alone, and smoothing twice *)

Lemma stroke_eq (s1 s2 : Stroke) :
  ctlpts s1 = ctlpts s2 -> closed s1 = closed s2 -> s1 = s2.
Proof. destruct s1, s2. simpl. by intros -> ->. Qed.

Lemma div6_lt j n : (j < 6 * n)%nat -> (j / 6 < n)%nat.
Proof. intros H. apply Nat.Div0.div_lt_upper_bound. lia. Qed.

(** [expected] leaves alone what belongs to an anchor that is not
    smoothed. *)
Lemma expected_unsmoothed svals cl c (ctl : list Qc) n j :
  smoothed svals cl ctl n (j / 6) = false ->
  expected svals cl c ctl n j = ctl !! j.
Proof.
  intros H. unfold expected. rewrite H, !andb_false_r.
  by repeat case_decide.
Qed.

(** X8: when no anchor of a stroke of at least 3 anchors qualifies for
    smoothing ([smooth_specified] is on and no corner passes the angle
    test), [set_bezier_path] returns the stroke as it is, control points
    included. *)
Theorem no_corner_unchanged svals s n :
  (3 <= n)%nat -> num_points s = (6 * n)%nat ->
  (forall i, (i < n)%nat ->
     smoothed svals (closed s) (ctlpts s) n i = false) ->
  set_bezier_path svals s = Some s.
Proof.
  intros Hn Hnp Hq.
  destruct (set_bezier_path_spec svals s n Hn Hnp)
    as (c & out & _ & _ & _ & _ & _ & E & Hcl & HL & Hout).
  rewrite E. f_equal. apply stroke_eq; [|done].
  unfold num_points in *. apply list_eq. intros j.
  destruct (decide (j < length (ctlpts s))%nat) as [Hj|Hj].
  - rewrite Hout by done. apply expected_unsmoothed, Hq, div6_lt. lia.
  - by rewrite !lookup_ge_None_2 by lia.
Qed.

(** Strokes with the same anchors. *)
Lemma axis_values_ext cl (ctl ctl' : list Qc) n off :
  (3 <= n)%nat -> length ctl = (6 * n)%nat -> length ctl' = (6 * n)%nat ->
  (forall i, (i < n)%nat -> scalar ctl' i off = scalar ctl i off) ->
  axis_values cl ctl' off = axis_values cl ctl off.
Proof.
  intros Hn HL HL' H. unfold axis_values. rewrite HL, HL'.
  rewrite Nat.mul_comm, Nat.div_mul by lia.
  assert (map (fun i => scalar ctl' i off) (seq 0 n)
          = map (fun i => scalar ctl i off) (seq 0 n)) as ->.
  { apply map_ext_in. intros i Hi. apply in_seq in Hi. apply H. lia. }
  destruct cl; [|done].
  replace (n * 6 - 6 + off)%nat with ((n - 1) * 6 + off)%nat by lia.
  fold (scalar ctl' (n - 1) off) (scalar ctl (n - 1) off).
  by rewrite !H by lia.
Qed.

Lemma bezier_controls_ext s s' n :
  (3 <= n)%nat -> num_points s = (6 * n)%nat -> num_points s' = (6 * n)%nat ->
  closed s' = closed s ->
  (forall i, (i < n)%nat ->
     scalar (ctlpts s') i 2 = scalar (ctlpts s) i 2 /\
     scalar (ctlpts s') i 3 = scalar (ctlpts s) i 3) ->
  bezier_controls s' = bezier_controls s.
Proof.
  intros Hn Hnp Hnp' Hcl Ha.
  pose proof (bezier_controls_spec s ltac:(lia)) as H.
  pose proof (bezier_controls_spec s' ltac:(lia)) as H'.
  destruct (bezier_controls s) as [c|]; [|done].
  destruct (bezier_controls s') as [c'|]; [|done].
  destruct H as (dx & bx & x1 & x2 & cx & dy & by' & y1 & y2 & cy
                 & Ex & Ey & ->).
  destruct H' as (dx' & bx' & x1' & x2' & cx' & dy' & by'' & y1' & y2' & cy'
                 & Ex' & Ey' & ->).
  unfold num_points in *.
  rewrite Hcl in *.
  rewrite (axis_values_ext _ (ctlpts s) (ctlpts s') n 2) in Ex'
    by (done || apply Ha).
  rewrite (axis_values_ext _ (ctlpts s) (ctlpts s') n 3) in Ey'
    by (done || apply Ha).
  rewrite Ex in Ex'. injection Ex' as <- <- <- <- <-.
  rewrite Ey in Ey'. by injection Ey' as <- <- <- <- <-.
Qed.

Lemma smoothed_ext svals cl (ctl ctl' : list Qc) n i :
  (3 <= n)%nat -> (i < n)%nat ->
  (forall k, (k < n)%nat ->
     scalar ctl' k 2 = scalar ctl k 2 /\ scalar ctl' k 3 = scalar ctl k 3) ->
  smoothed svals cl ctl' n i = smoothed svals cl ctl n i.
Proof.
  intros Hn Hi Ha. unfold smoothed, corner_test.
  assert (forall k, (k mod n < n)%nat) as Hlt.
  { intros k. apply Nat.mod_upper_bound. lia. }
  destruct cl.
  - destruct (Ha _ (Hlt (i + n - 1)%nat)) as [-> ->].
    destruct (Ha _ (Hlt (i + 1)%nat)) as [-> ->].
    by destruct (Ha i Hi) as [-> ->].
  - case_decide; [done|].
    destruct (Ha (i - 1)%nat ltac:(lia)) as [-> ->].
    destruct (Ha (i + 1)%nat ltac:(lia)) as [-> ->].
    by destruct (Ha i Hi) as [-> ->].
Qed.

Lemma scalar_lookup (ctl : list Qc) i off :
  (i * 6 + off < length ctl)%nat ->
  ctl !! (i * 6 + off)%nat = Some (scalar ctl i off).
Proof. intros H. by apply lookup_default. Qed.

Lemma output_anchors svals s n out :
  (3 <= n)%nat -> num_points s = (6 * n)%nat ->
  set_bezier_path svals s = Some out ->
  forall i, (i < n)%nat ->
    scalar (ctlpts out) i 2 = scalar (ctlpts s) i 2 /\
    scalar (ctlpts out) i 3 = scalar (ctlpts s) i 3.
Proof.
  intros Hn Hnp E i Hi.
  destruct (output_spline svals s n Hn Hnp)
    as (out' & bx & by' & E' & _ & _ & _ & _ & Hout).
  rewrite E in E'. injection E' as <-.
  by destruct (Hout i Hi) as (-> & -> & _).
Qed.

(** Smoothing the output of [set_bezier_path] again changes nothing. *)
Lemma set_bezier_path_twice svals s n out :
  num_points s = (6 * n)%nat ->
  set_bezier_path svals s = Some out ->
  set_bezier_path svals out = Some out.
Proof.
  intros Hnp E.
  destruct (decide (n < 3)%nat) as [Hn|Hn].
  { rewrite set_bezier_path_guard in E by lia. injection E as <-.
    apply set_bezier_path_guard. lia. }
  assert (3 <= n)%nat as Hn' by lia.
  destruct (set_bezier_path_spec svals s n Hn' Hnp)
    as (c & out' & Ec & _ & _ & _ & _ & E' & Hcl & HL & Hout).
  rewrite E in E'. injection E' as <-.
  pose proof (output_anchors svals s n out Hn' Hnp E) as Ha.
  destruct (set_bezier_path_spec svals out n Hn' ltac:(lia))
    as (c2 & out2 & Ec2 & _ & _ & _ & _ & E2 & Hcl2 & HL2 & Hout2).
  rewrite (bezier_controls_ext s out n) in Ec2 by (done || lia).
  rewrite Ec in Ec2. injection Ec2 as <-.
  rewrite E2. f_equal. apply stroke_eq; [|done].
  unfold num_points in *. apply list_eq. intros j.
  destruct (decide (j < length (ctlpts out))%nat) as [Hj|Hj].
  2: by rewrite !lookup_ge_None_2 by lia.
  rewrite Hout2 by done. rewrite (Hout j) by lia.
  unfold expected. rewrite Hcl.
  rewrite (smoothed_ext svals (closed s) (ctlpts s) (ctlpts out) n)
    by (done || apply div6_lt; lia).
  rewrite (Hout j) by lia. unfold expected.
  repeat case_decide; repeat case_match; done.
Qed.

(** X9: smoothing is idempotent: on the stroke that [set_bezier_path]
    returns, [set_bezier_path] with the same settings returns that stroke
    again. *)
Theorem set_bezier_path_idempotent svals s n :
  num_points s = (6 * n)%nat ->
  exists out, set_bezier_path svals s = Some out /\
              set_bezier_path svals out = Some out.
Proof.
  intros Hnp.
  destruct (decide (n < 3)%nat) as [Hn|Hn].
  - exists s. rewrite set_bezier_path_guard by lia. done.
  - destruct (set_bezier_path_spec svals s n ltac:(lia) Hnp)
      as (c & out & _ & _ & _ & _ & _ & E & _).
    exists out. split; [done|]. by apply (set_bezier_path_twice svals s n).
Qed.


(** ** Every access is within bounds, on every stroke *)

Lemma ctl_angle_total svals (ctl : list Qc) i1 i2 i3 i4 i5 i6 :
  (i1 < length ctl)%nat -> (i2 < length ctl)%nat -> (i3 < length ctl)%nat ->
  (i4 < length ctl)%nat -> (i5 < length ctl)%nat -> (i6 < length ctl)%nat ->
  exists t, ctl_angle svals ctl i1 i2 i3 i4 i5 i6 = Some t.
Proof.
  intros H1 H2 H3 H4 H5 H6. unfold ctl_angle.
  rewrite (lookup_default ctl i1), (lookup_default ctl i2),
    (lookup_default ctl i3), (lookup_default ctl i4),
    (lookup_default ctl i5), (lookup_default ctl i6) by done.
  by eexists.
Qed.

Lemma store_pair_total (t : bool) (ctl : list Qc) i ax j ay k :
  (i < length ctl)%nat -> (j < length ctl)%nat -> i <> j ->
  (k < length ax)%nat -> (k < length ay)%nat ->
  exists ctl', store_pair t ctl i ax j ay k = Some ctl' /\
               length ctl' = length ctl.
Proof.
  intros Hi Hj Hne Hx Hy.
  destruct (store_pair_spec t ctl i ax j ay k Hi Hj Hne Hx Hy)
    as (ctl' & E & HL & _).
  by exists ctl'.
Qed.

Lemma update_con1_total svals cl c np n (ctl : list Qc) len :
  length ctl = np -> (3 <= len)%nat -> (6 * len <= np)%nat ->
  (n < len - 1)%nat ->
  (len - 1 <= length (aconx1 c))%nat -> (len - 1 <= length (acony1 c))%nat ->
  exists ctl', update_con1 svals cl c np n ctl = Some ctl' /\
               length ctl' = np.
Proof.
  intros HL Hlen Hnp Hn Lx Ly. unfold update_con1. subst np.
  case_decide.
  - subst n. destruct cl; cbn [c_and negb andb mbind option_bind].
    + destruct (ctl_angle_total svals ctl (length ctl - 4) (length ctl - 3)
                  2 3 8 9) as [t ->]; try lia.
      cbn [mbind option_bind]. destruct t; apply store_pair_total; lia.
    + apply store_pair_total; lia.
  - destruct (ctl_angle_total svals ctl (n * 6 - 4) (n * 6 - 3) (n * 6 + 2)
                (n * 6 + 3) (n * 6 + 8) (n * 6 + 9)) as [t ->]; try lia.
    cbn [mbind option_bind]. apply store_pair_total; lia.
Qed.

Lemma update_con2_total svals cl c np n (ctl : list Qc) len :
  length ctl = np -> (3 <= len)%nat -> (6 * len <= np)%nat ->
  (n < len - 1)%nat ->
  (len - 1 <= length (aconx2 c))%nat -> (len - 1 <= length (acony2 c))%nat ->
  exists ctl', update_con2 svals cl c np len n ctl = Some ctl' /\
               length ctl' = np.
Proof.
  intros HL Hlen Hnp Hn Lx Ly. unfold update_con2. subst np.
  case_decide.
  - destruct cl; cbn [c_and negb andb mbind option_bind].
    + destruct (ctl_angle_total svals ctl (length ctl - 10) (length ctl - 9)
                  (length ctl - 4) (length ctl - 3) 2 3) as [t ->]; try lia.
      cbn [mbind option_bind]. destruct t; apply store_pair_total; lia.
    + apply store_pair_total; lia.
  - destruct (ctl_angle_total svals ctl (n * 6 + 2) (n * 6 + 3) (n * 6 + 8)
                (n * 6 + 9) (n * 6 + 14) (n * 6 + 15)) as [t ->]; try lia.
    cbn [mbind option_bind]. apply store_pair_total; lia.
Qed.

Lemma update_ctlpts_total svals (cl : bool) c (ctl : list Qc) :
  (18 <= length ctl)%nat ->
  let k := if cl then (length ctl / 6)%nat else (length ctl / 6 - 1)%nat in
  length (aconx1 c) = k -> length (aconx2 c) = k ->
  length (acony1 c) = k -> length (acony2 c) = k ->
  exists ctl', update_ctlpts svals cl c ctl = Some ctl' /\
               length ctl' = length ctl.
Proof.
  intros Hnp k L1 L2 L3 L4. unfold update_ctlpts.
  pose proof (div6_ge3 _ Hnp) as Hlen.
  pose proof (div6_bound (length ctl)) as Hb.
  set (len := (length ctl / 6)%nat) in *.
  assert (len - 1 <= k)%nat as Hk by (unfold k; destruct cl; lia).
  assert (1 <= k)%nat as Hk1 by lia.
  assert (exists ctl1,
    (if cl then
       t ← ctl_angle svals ctl (length ctl - 4) (length ctl - 3) 2 3 8 9;
       store_pair t ctl 0 (aconx2 c) 1 (acony2 c) (length (aconx2 c) - 1)
     else Some ctl) = Some ctl1 /\ length ctl1 = length ctl)
    as (ctl1 & -> & HL1).
  { destruct cl; [|by exists ctl].
    destruct (ctl_angle_total svals ctl (length ctl - 4) (length ctl - 3)
                2 3 8 9) as [t ->]; try lia.
    cbn [mbind option_bind]. apply store_pair_total; lia. }
  cbn [mbind option_bind].
  match goal with |- context [for_range 0 (len - 1) ?body ctl1] =>
    destruct (for_range_inv (fun _ ctl' => length ctl' = length ctl)
                body 0%nat (len - 1)%nat ctl1) as (ctl2 & -> & HL2)
  end.
  - lia.
  - done.
  - intros n ctl' Hn HL'.
    destruct (update_con1_total svals cl c (length ctl) n ctl' len)
      as (ctl'' & -> & HL''); try lia.
    cbn [mbind option_bind].
    apply (update_con2_total svals cl c (length ctl) n ctl'' len); lia.
  - cbn [mbind option_bind]. destruct cl; [|by exists ctl2].
    destruct (ctl_angle_total svals ctl2 (length ctl - 10) (length ctl - 9)
                (length ctl - 4) (length ctl - 3) 2 3) as [t ->]; try lia.
    cbn [mbind option_bind].
    destruct (store_pair_total t ctl2 (length ctl - 2) (aconx1 c)
                (length ctl - 1) (acony1 c) (length (aconx1 c) - 1))
      as (ctl3 & -> & HL3); try lia.
    exists ctl3. split; [done|]. lia.
Qed.

Lemma set_bezier_path_runs svals s :
  exists out, set_bezier_path svals s = Some out /\
              num_points out = num_points s /\ closed out = closed s.
Proof.
  destruct (decide (num_points s < 18)%nat) as [H|H].
  { exists s. by rewrite set_bezier_path_guard. }
  destruct (bezier_controls_total s ltac:(lia))
    as (c & Ec & L1 & L2 & L3 & L4 & _).
  unfold control_count, num_points in *.
  destruct (update_ctlpts_total svals (closed s) c (ctlpts s) ltac:(lia)
              L1 L2 L3 L4) as (ctl' & Eu & HL).
  exists {| ctlpts := ctl'; closed := closed s |}.
  split; [|done]. unfold set_bezier_path, num_points.
  rewrite decide_False by lia. rewrite Ec. cbn [mbind option_bind].
  by rewrite Eu.
Qed.

(** X11: [set_bezier_path] runs through on every stroke, of any number
    of scalars, a multiple of 6 or not, open or closed, under any
    settings: no array is read or written outside its bounds, and the
    stroke it returns has the number of points and the closed flag of the
    input. *)
Theorem set_bezier_path_total svals s :
  exists out, set_bezier_path svals s = Some out /\
              num_points out = num_points s /\ closed out = closed s.
Proof. apply set_bezier_path_runs. Qed.

(** ** Moving a stroke *)


Lemma even_record i off : Nat.even (i * 6 + off) = Nat.even off.
Proof.
  rewrite Nat.even_add, Nat.even_mul. change (Nat.even 6) with true.
  rewrite orb_true_r. by destruct (Nat.even off).
Qed.












(** ** The solver and its arrays *)

(** X13: the solver undoes the multiplication by the matrix: run on the
    right-hand side [A y], it returns [y], whatever [asb] holds on entry.
    So the system has no other solution than the one the solver finds. *)
Theorem triagonal_solve_inverse (asb y : list Qc) :
  (1 <= length y)%nat -> length asb = length y ->
  exists d, triagonal_solve asb (mat_vec tridiag_entry y) = Some (y, d).
Proof. apply triagonal_solve_product. Qed.

Lemma for_up_fail {St : Type} (P : nat -> St -> Prop) body k :
  forall lo st j,
    P lo st -> (lo <= j < lo + k)%nat ->
    (forall i s, (lo <= i < j)%nat -> P i s ->
                 exists s', body i s = Some s' /\ P (S i) s') ->
    (forall s, P j s -> body j s = None) ->
    for_up k lo body st = None.
Proof.
  induction k as [|k IH]; intros lo st j H0 Hj Hstep Hfail; [lia|].
  simpl. destruct (decide (j = lo)) as [->|Hne].
  - by rewrite Hfail.
  - destruct (Hstep lo st) as (s1 & -> & P1); [lia|done|]. simpl.
    apply (IH (S lo) s1 j); [done|lia| |done].
    intros i s Hi. apply Hstep. lia.
Qed.

Lemma triagonal_solve_runs (asb asd : list Qc) :
  (1 <= length asb <= length asd)%nat ->
  exists x d, triagonal_solve asb asd = Some (x, d) /\
              length x = length asb /\ length d = length asd.
Proof.
  intros Hn. unfold triagonal_solve.
  remember (length asb) as n eqn:En.
  rewrite fill_ones. cbn [mbind option_bind].
  unfold g_array_index.
  rewrite lookup_replicate_2 by lia. cbn [mbind option_bind].
  rewrite g_array_store_lt by (rewrite length_replicate; lia).
  cbn [mbind option_bind].
  destruct (lookup_lt_is_Some_2 asd 0) as [r0 Hr0]; [lia|].
  rewrite Hr0. cbn [mbind option_bind].
  rewrite g_array_store_lt by lia. cbn [mbind option_bind].
  match goal with |- context [for_range 1 n ?body ?st] =>
    destruct (for_range_inv (fun _ '(asc, asd') =>
       length asc = n /\ length asd' = length asd)
      body 1%nat n st) as ([asc asd'] & E & HLc & HLd)
  end.
  - lia.
  - by rewrite !length_insert, length_replicate.
  - intros i [asc asd'] Hi (HLc & HLd).
    destruct (lookup_lt_is_Some_2 asc (i - 1)) as [cp ->]; [lia|].
    destruct (lookup_lt_is_Some_2 asc i) as [ci ->]; [lia|].
    cbn [mbind option_bind].
    rewrite g_array_store_lt by lia. cbn [mbind option_bind].
    destruct (lookup_lt_is_Some_2 asd' i) as [di ->]; [lia|].
    destruct (lookup_lt_is_Some_2 asd' (i - 1)) as [dp ->]; [lia|].
    cbn [mbind option_bind].
    rewrite g_array_store_lt by lia. cbn [mbind option_bind].
    eexists. split; [done|]. cbn beta iota.
    by rewrite !length_insert.
  - rewrite E. cbn [mbind option_bind].
    destruct (lookup_lt_is_Some_2 asd' (n - 1)) as [dl ->]; [lia|].
    cbn [mbind option_bind].
    rewrite g_array_store_lt by lia. cbn [mbind option_bind].
    rewrite length_insert, <- En.
    match goal with |- context [for_downto0 (n - 1) ?body ?st] =>
      destruct (for_downto0_inv (fun _ x => length x = n)
        body (n - 1)%nat st) as (x & -> & HLx)
    end.
    + by rewrite length_insert.
    + intros i x Hi HLx.
      destruct (lookup_lt_is_Some_2 asd' i) as [di ->]; [lia|].
      destruct (lookup_lt_is_Some_2 asc i) as [ci ->]; [lia|].
      destruct (lookup_lt_is_Some_2 x (i + 1)) as [bn ->]; [lia|].
      cbn [mbind option_bind].
      rewrite g_array_store_lt by lia.
      eexists. split; [done|]. by rewrite length_insert.
    + cbn [mbind option_bind]. by exists x, asd'.
Qed.

Lemma triagonal_solve_overrun (asb asd : list Qc) :
  (length asb = 0 \/ length asd < length asb)%nat ->
  triagonal_solve asb asd = None.
Proof.
  intros H. unfold triagonal_solve.
  remember (length asb) as n eqn:En.
  rewrite fill_ones. cbn [mbind option_bind].
  unfold g_array_index.
  destruct (decide (n = 0)%nat) as [->|Hn]; [done|].
  rewrite lookup_replicate_2 by lia. cbn [mbind option_bind].
  rewrite g_array_store_lt by (rewrite length_replicate; lia).
  cbn [mbind option_bind].
  destruct (decide (length asd = 0)%nat) as [H0|H0].
  { by rewrite (lookup_ge_None_2 asd 0) by lia. }
  destruct (lookup_lt_is_Some_2 asd 0) as [r0 Hr0]; [lia|].
  rewrite Hr0. cbn [mbind option_bind].
  rewrite g_array_store_lt by lia. cbn [mbind option_bind].
  unfold for_range.
  match goal with |- context [for_up (n - 1) 1 ?body ?st] =>
    rewrite (for_up_fail (fun _ '(asc, asd') =>
       length asc = n /\ length asd' = length asd)
      body (n - 1)%nat 1%nat st (length asd))
  end.
  - done.
  - by rewrite !length_insert, length_replicate.
  - lia.
  - intros i [asc asd'] Hi (HLc & HLd).
    destruct (lookup_lt_is_Some_2 asc (i - 1)) as [cp ->]; [lia|].
    destruct (lookup_lt_is_Some_2 asc i) as [ci ->]; [lia|].
    cbn [mbind option_bind].
    rewrite g_array_store_lt by lia. cbn [mbind option_bind].
    destruct (lookup_lt_is_Some_2 asd' i) as [di ->]; [lia|].
    destruct (lookup_lt_is_Some_2 asd' (i - 1)) as [dp ->]; [lia|].
    cbn [mbind option_bind].
    rewrite g_array_store_lt by lia. cbn [mbind option_bind].
    eexists. split; [done|]. cbn beta iota.
    by rewrite !length_insert.
  - intros [asc asd'] (HLc & HLd).
    destruct (lookup_lt_is_Some_2 asc (length asd - 1)) as [cp ->]; [lia|].
    destruct (lookup_lt_is_Some_2 asc (length asd)) as [ci ->]; [lia|].
    cbn [mbind option_bind].
    rewrite g_array_store_lt by lia. cbn [mbind option_bind].
    by rewrite (lookup_ge_None_2 asd' (length asd)) by lia.
Qed.

(** X14: the solver stays within its arrays exactly when [asb] is not
    empty and [asd] is at least as long as [asb]: then it returns, and
    both arrays keep their lengths; on an empty [asb], or on an [asd]
    shorter than [asb], it reads outside an array. *)
Theorem triagonal_solve_bounds (asb asd : list Qc) :
  (exists x d, triagonal_solve asb asd = Some (x, d) /\
               length x = length asb /\ length d = length asd)
  <-> (1 <= length asb <= length asd)%nat.
Proof.
  split.
  - intros (x & d & E & _).
    destruct (decide (1 <= length asb <= length asd)%nat) as [H|H]; [done|].
    rewrite triagonal_solve_overrun in E by lia. done.
  - apply triagonal_solve_runs.
Qed.

(** ** The strokes of a path *)

Lemma smooth_path_runs svals (strokes : list Stroke) :
  exists out,
    smooth_path svals strokes = Some out /\
    length out = length strokes /\
    forall n s, strokes !! n = Some s ->
      exists o, out !! n = Some o /\ set_bezier_path svals s = Some o /\
                num_points o = num_points s /\ closed o = closed s.
Proof.
  unfold smooth_path.
  match goal with |- context [for_range 0 _ ?body []] =>
    destruct (for_range_inv (fun k (new : list Stroke) =>
       length new = k /\
       forall n s, (n < k)%nat -> strokes !! n = Some s ->
         exists o, new !! n = Some o /\ set_bezier_path svals s = Some o /\
                   num_points o = num_points s /\ closed o = closed s)
      body 0%nat (length strokes) []) as (out & E & HL & H)
  end.
  - lia.
  - split; [done|]. intros n s Hn. lia.
  - intros k new Hk (HL & H).
    destruct (lookup_lt_is_Some_2 strokes k) as [s Hs]; [lia|].
    rewrite Hs. cbn [mbind option_bind].
    destruct (set_bezier_path_runs svals s) as (o & Eo & Ho).
    rewrite Eo. cbn [mbind option_bind].
    eexists. split; [done|]. rewrite length_app. simpl.
    split; [lia|]. intros n s' Hn Hs'.
    destruct (decide (n = k)) as [->|Hne].
    + rewrite Hs in Hs'. injection Hs' as <-. exists o.
      rewrite lookup_app_r by lia. rewrite HL, Nat.sub_diag. done.
    + destruct (H n s') as (o' & E1 & E2); [lia|done|].
      exists o'. by rewrite lookup_app_l by lia.
  - exists out. split; [done|]. split; [done|].
    intros n s Hs. apply H; [|done]. by apply lookup_lt_Some in Hs.
Qed.

(** X15: [smooth_path] runs through on every list of strokes and hands
    on as many strokes as it was given, in the same order: stroke [n] of
    the output is what [set_bezier_path] makes of stroke [n] of the input,
    with the number of points and the closed flag of that stroke. *)
Theorem smooth_path_strokes svals (strokes : list Stroke) :
  exists out,
    smooth_path svals strokes = Some out /\
    length out = length strokes /\
    forall n s, strokes !! n = Some s ->
      exists o, out !! n = Some o /\ set_bezier_path svals s = Some o /\
                num_points o = num_points s /\ closed o = closed s.
Proof. apply smooth_path_runs. Qed.

(** ** Equal angles *)


(** ** run *)

Lemma run_finish_runs run_mode status st :
  exists st', run_finish run_mode status st = Some (status, st') /\
    length (pi_strokes st') = length (pi_strokes st) /\
    pi_svals st' = pi_svals st /\
    (status <> GIMP_PDB_SUCCESS -> st' = st) /\
    (status = GIMP_PDB_SUCCESS ->
     smooth_path (pi_svals st) (pi_strokes st) = Some (pi_strokes st') /\
     pi_flushes st'
     = (if decide (run_mode <> GIMP_RUN_NONINTERACTIVE)
        then S (pi_flushes st) else pi_flushes st) /\
     pi_data st'
     = (if decide (run_mode = GIMP_RUN_INTERACTIVE)
        then Some (pi_svals st) else pi_data st)).
Proof.
  unfold run_finish.
  destruct (smooth_path_runs (pi_svals st) (pi_strokes st))
    as (new & E & HL & _).
  destruct status; try (exists st; by repeat split).
  rewrite E. cbn [mbind option_bind]. eexists. split; [done|].
  cbn [pi_strokes pi_svals pi_flushes pi_data]. by repeat split.
Qed.

(** X17: a non-interactive call.  With a number of parameters other
    than 6, [run] reports a calling error and changes nothing.  With 6
    parameters it reports success, takes the settings from the parameters
    whatever the settings were before, and replaces the strokes of the
    path by what [smooth_path] makes of them under these settings, as
    many as before; it does not flush the displays and does not store
    the settings for later runs. *)
Theorem run_noninteractive dialog nparams param st :
  p_run_mode param = GIMP_RUN_NONINTERACTIVE ->
  exists status st',
    run dialog nparams param st = Some (status, st') /\
    pi_data st' = pi_data st /\ pi_flushes st' = pi_flushes st /\
    (nparams <> 6%Z -> status = GIMP_PDB_CALLING_ERROR /\ st' = st) /\
    (nparams = 6%Z ->
     status = GIMP_PDB_SUCCESS /\
     pi_svals st' = {| smooth_specified := p_smooth param;
                       ang_min := p_angle_min param;
                       ang_max := p_angle_max param |} /\
     smooth_path (pi_svals st') (pi_strokes st) = Some (pi_strokes st') /\
     length (pi_strokes st') = length (pi_strokes st)).
Proof.
  intros Hmode. unfold run. rewrite Hmode.
  rewrite decide_False by done. rewrite decide_True by done.
  destruct (decide (nparams <> 6%Z)) as [Hn|Hn].
  - exists GIMP_PDB_CALLING_ERROR, st. by repeat split.
  - match goal with |- context [run_finish ?m ?s ?t] =>
      destruct (run_finish_runs m s t) as (st' & E & HL & Hsv & _ & Hok)
    end.
    destruct (Hok eq_refl) as (Hsm & Hfl & Hd).
    rewrite decide_False in Hfl by (intros H; by apply H).
    rewrite decide_False in Hd by done.
    cbn [pi_svals pi_strokes pi_flushes pi_data] in *.
    exists GIMP_PDB_SUCCESS, st'. split; [done|].
    split; [done|]. split; [done|]. split; [done|].
    intros _. split; [done|]. split; [done|]. by rewrite Hsv.
Qed.

(** X18: whatever the run mode, the parameters and the outcome of the
    dialog, [run] returns, and the path has as many strokes as before.
    The status is success, calling error or pass-through; unless it is
    success, nothing has changed: not the strokes, not the settings, not
    what is stored for later runs.  Running with the last values always
    ends in pass-through, so it never smooths.  A dialog that is
    cancelled ends in success all the same, with the strokes, the stored
    settings and the displays left alone. *)
Theorem run_status dialog nparams param st :
  exists status st',
    run dialog nparams param st = Some (status, st') /\
    length (pi_strokes st') = length (pi_strokes st) /\
    (status = GIMP_PDB_SUCCESS \/ status = GIMP_PDB_CALLING_ERROR \/
     status = GIMP_PDB_PASS_THROUGH) /\
    (status <> GIMP_PDB_SUCCESS -> st' = st) /\
    (p_run_mode param = GIMP_RUN_WITH_LAST_VALS ->
     status = GIMP_PDB_PASS_THROUGH) /\
    (p_run_mode param = GIMP_RUN_INTERACTIVE ->
     (dialog (pi_svals (gimp_get_data st))).2 = false ->
     status = GIMP_PDB_SUCCESS /\ pi_strokes st' = pi_strokes st /\
     pi_data st' = pi_data st /\ pi_flushes st' = pi_flushes st).
Proof.
  unfold run.
  destruct (decide (p_run_mode param = GIMP_RUN_INTERACTIVE)) as [H0|H0].
  { destruct (dialog (pi_svals (gimp_get_data st))) as [sv ok].
    assert (pi_strokes (gimp_get_data st) = pi_strokes st /\
            pi_data (gimp_get_data st) = pi_data st /\
            pi_flushes (gimp_get_data st) = pi_flushes st) as (Hs & Hd & Hf).
    { unfold gimp_get_data. destruct (pi_data st) eqn:Ed; [done|].
      by rewrite Ed. }
    destruct ok; cbn [negb snd].
    - match goal with |- context [run_finish ?m ?s ?t] =>
        destruct (run_finish_runs m s t) as (st' & E & HL & _)
      end.
      exists GIMP_PDB_SUCCESS, st'. split; [done|].
      cbn [pi_strokes] in HL. rewrite Hs in HL.
      split; [done|]. split; [by left|]. split; [done|].
      rewrite H0. done.
    - eexists _, _. split; [done|].
      cbn [pi_strokes pi_data pi_flushes]. rewrite Hs, Hd, Hf.
      split; [done|]. split; [by left|]. split; [done|].
      rewrite H0. done. }
  destruct (decide (p_run_mode param = GIMP_RUN_NONINTERACTIVE)) as [H1|H1].
  { destruct (decide (nparams <> 6%Z)) as [Hn|Hn].
    - exists GIMP_PDB_CALLING_ERROR, st. split; [done|]. split; [done|].
      split; [right; by left|]. split; [done|]. rewrite H1. done.
    - match goal with |- context [run_finish ?m ?s ?t] =>
        destruct (run_finish_runs m s t) as (st' & E & HL & _)
      end.
      exists GIMP_PDB_SUCCESS, st'. split; [done|]. split; [done|].
      split; [by left|]. split; [done|]. rewrite H1. done. }
  destruct (decide (p_run_mode param = GIMP_RUN_WITH_LAST_VALS)) as [H2|H2].
  { exists GIMP_PDB_PASS_THROUGH, st. split; [done|]. split; [done|].
    split; [right; by right|]. done. }
  match goal with |- context [run_finish ?m ?s ?t] =>
    destruct (run_finish_runs m s t) as (st' & E & HL & _)
  end.
  exists GIMP_PDB_SUCCESS, st'. split; [done|]. split; [done|].
  split; [by left|]. done.
Qed.

(** ** Affine maps of the plane *)

Lemma affine_map_length m (ctl : list Qc) :
  length (affine_map m ctl) = length ctl.
Proof. apply length_imap. Qed.

Lemma scalar_affine_x m (ctl : list Qc) i off :
  (off = 0 \/ off = 2 \/ off = 4)%nat -> (i * 6 + off < length ctl)%nat ->
  scalar (affine_map m ctl) i off
  = m_xx m * scalar ctl i off + m_xy m * scalar ctl i (S off) + m_tx m.
Proof.
  intros Hoff H. unfold scalar, affine_map. rewrite list_lookup_imap.
  destruct (lookup_lt_is_Some_2 ctl (i * 6 + off)) as [v ->]; [done|].
  simpl. rewrite even_record.
  replace (Nat.even off) with true by (by destruct Hoff as [->|[->| ->]]).
  unfold entry. by replace (S (i * 6 + off)) with (i * 6 + S off)%nat by lia.
Qed.

Lemma scalar_affine_y m (ctl : list Qc) i off :
  (off = 0 \/ off = 2 \/ off = 4)%nat -> (i * 6 + S off < length ctl)%nat ->
  scalar (affine_map m ctl) i (S off)
  = m_yx m * scalar ctl i off + m_yy m * scalar ctl i (S off) + m_ty m.
Proof.
  intros Hoff H. unfold scalar, affine_map. rewrite list_lookup_imap.
  destruct (lookup_lt_is_Some_2 ctl (i * 6 + S off)) as [v ->]; [done|].
  simpl. rewrite even_record.
  replace (Nat.even (S off)) with false by (by destruct Hoff as [->|[->| ->]]).
  unfold entry.
  by replace (i * 6 + S off - 1)%nat with (i * 6 + off)%nat by lia.
Qed.

Lemma entry_zip_with (f : Qc -> Qc -> Qc) (l l' : list Qc) i :
  (i < length l)%nat -> (i < length l')%nat ->
  entry (zip_with f l l') i = f (entry l i) (entry l' i).
Proof.
  intros H H'. unfold entry. rewrite lookup_zip_with.
  destruct (lookup_lt_is_Some_2 l i H) as [v ->].
  destruct (lookup_lt_is_Some_2 l' i H') as [v' ->]. done.
Qed.

Lemma spline_nodes_combine (a b t : Qc) ac ac' n n' :
  (3 <= length ac)%nat -> length ac' = length ac ->
  spline_nodes ac n -> spline_nodes ac' n' ->
  spline_nodes (zip_with (fun u v => a * u + b * v + t) ac ac')
    (zip_with (fun u v => a * u + b * v + t) n n').
Proof.
  intros Hm HL (L & H0 & Hl & Hk) (L' & H0' & Hl' & Hk').
  unfold spline_nodes. rewrite !length_zip_with.
  rewrite L, L', HL, Nat.min_id in *.
  split; [done|].
  rewrite !entry_zip_with by lia. rewrite H0, H0', Hl, Hl'.
  split; [done|]. split; [done|].
  intros j Hj. rewrite !entry_zip_with by lia.
  transitivity
    (a * (entry n (j - 1) + lit 4 * entry n j + entry n (j + 1))
     + b * (entry n' (j - 1) + lit 4 * entry n' j + entry n' (j + 1))
     + lit 6 * t).
  - lits. ring.
  - rewrite (Hk j Hj), (Hk' j Hj). ring.
Qed.

Lemma map_zip_with (g : Qc -> Qc -> Qc) (f f1 f2 : nat -> Qc) (l : list nat) :
  (forall i, In i l -> f i = g (f1 i) (f2 i)) ->
  map f l = zip_with g (map f1 l) (map f2 l).
Proof.
  induction l as [|i l IH]; intros H; [done|]. simpl.
  rewrite (H i) by (by left). f_equal. apply IH. intros j Hj. apply H.
  by right.
Qed.

Lemma axis_values_zip (g : Qc -> Qc -> Qc) cl (ctl ctl' : list Qc) n o o1 o2 :
  (3 <= n)%nat -> length ctl = (6 * n)%nat -> length ctl' = (6 * n)%nat ->
  (o < 6)%nat -> (o1 < 6)%nat -> (o2 < 6)%nat ->
  (forall i, (i < n)%nat ->
     scalar ctl' i o = g (scalar ctl i o1) (scalar ctl i o2)) ->
  axis_values cl ctl' o
  = zip_with g (axis_values cl ctl o1) (axis_values cl ctl o2).
Proof.
  intros Hn HL HL' Ho Ho1 Ho2 H. unfold axis_values.
  rewrite HL, HL', Nat.mul_comm, Nat.div_mul by lia.
  assert (map (fun i => scalar ctl' i o) (seq 0 n)
          = zip_with g (map (fun i => scalar ctl i o1) (seq 0 n))
              (map (fun i => scalar ctl i o2) (seq 0 n))) as Hmap.
  { apply map_zip_with. intros i Hi. apply in_seq in Hi. apply H. lia. }
  destruct cl; [|done].
  replace (n * 6 - 6 + o)%nat with ((n - 1) * 6 + o)%nat by lia.
  replace (n * 6 - 6 + o1)%nat with ((n - 1) * 6 + o1)%nat by lia.
  replace (n * 6 - 6 + o2)%nat with ((n - 1) * 6 + o2)%nat by lia.
  fold (scalar ctl' (n - 1) o) (scalar ctl (n - 1) o1)
    (scalar ctl (n - 1) o2).
  cbn [zip_with]. rewrite zip_with_app by (by rewrite !length_map).
  rewrite Hmap. cbn [zip_with app].
  by rewrite !H by lia.
Qed.

Lemma axis_values_affine m cl (ctl : list Qc) n :
  (3 <= n)%nat -> length ctl = (6 * n)%nat ->
  axis_values cl (affine_map m ctl) 2
  = zip_with (fun u v => m_xx m * u + m_xy m * v + m_tx m)
      (axis_values cl ctl 2) (axis_values cl ctl 3) /\
  axis_values cl (affine_map m ctl) 3
  = zip_with (fun u v => m_yx m * u + m_yy m * v + m_ty m)
      (axis_values cl ctl 2) (axis_values cl ctl 3).
Proof.
  intros Hn HL. split.
  - apply (axis_values_zip _ _ _ _ n); try (done || lia).
    { by rewrite affine_map_length. }
    intros i Hi. apply (scalar_affine_x m ctl i 2); [auto|lia].
  - apply (axis_values_zip _ _ _ _ n); try (done || lia).
    { by rewrite affine_map_length. }
    intros i Hi. apply (scalar_affine_y m ctl i 2); [auto|lia].
Qed.

Lemma combined_con1 (q : bool) (b b' : list Qc) k (a c t u u' : Qc) :
  (q = true -> (S k < length b)%nat) -> length b' = length b ->
  (if q
   then lit 2 * entry (zip_with (fun x y => a * x + c * y + t) b b') k / lit 3
        + entry (zip_with (fun x y => a * x + c * y + t) b b') (S k) / lit 3
   else a * u + c * u' + t)
  = a * (if q then lit 2 * entry b k / lit 3 + entry b (S k) / lit 3 else u)
    + c * (if q then lit 2 * entry b' k / lit 3 + entry b' (S k) / lit 3
           else u')
    + t.
Proof.
  intros H HL. destruct q; [|done]. specialize (H eq_refl).
  rewrite !entry_zip_with by lia. lits. by field.
Qed.

Lemma combined_con2 (q : bool) (b b' : list Qc) k (a c t u u' : Qc) :
  (q = true -> (S k < length b)%nat) -> length b' = length b ->
  (if q
   then entry (zip_with (fun x y => a * x + c * y + t) b b') k / lit 3
        + lit 2 * entry (zip_with (fun x y => a * x + c * y + t) b b') (S k)
          / lit 3
   else a * u + c * u' + t)
  = a * (if q then entry b k / lit 3 + lit 2 * entry b (S k) / lit 3 else u)
    + c * (if q then entry b' k / lit 3 + lit 2 * entry b' (S k) / lit 3
           else u')
    + t.
Proof.
  intros H HL. destruct q; [|done]. specialize (H eq_refl).
  rewrite !entry_zip_with by lia. lits. by field.
Qed.

Lemma set_bezier_path_affine_map svals m s n out :
  (3 <= n)%nat -> num_points s = (6 * n)%nat ->
  (forall i, (i < n)%nat ->
     smoothed svals (closed s) (affine_map m (ctlpts s)) n i
     = smoothed svals (closed s) (ctlpts s) n i) ->
  set_bezier_path svals s = Some out ->
  set_bezier_path svals (affine_stroke m s) = Some (affine_stroke m out).
Proof.
  intros Hn Hnp Hsm E.
  destruct (output_spline svals s n Hn Hnp)
    as (out0 & bx & by' & E0 & Hcl & HL & Nx & Ny & Hout).
  rewrite E in E0. injection E0 as <-.
  assert (num_points (affine_stroke m s) = (6 * n)%nat) as Hnp'.
  { unfold num_points, affine_stroke. cbn [ctlpts].
    by rewrite affine_map_length. }
  destruct (output_spline svals (affine_stroke m s) n Hn Hnp')
    as (out' & bx' & by'' & E' & Hcl' & HL' & Nx' & Ny' & Hout').
  rewrite E'. f_equal. unfold num_points in *.
  cbn [affine_stroke ctlpts closed] in *.
  destruct (axis_values_affine m (closed s) (ctlpts s) n Hn Hnp) as [Ax Ay].
  rewrite Ax in Nx'. rewrite Ay in Ny'.
  assert (forall off, length (axis_values (closed s) (ctlpts s) off)
            = if closed s then (n + 3)%nat else n) as HLa.
  { intros off. rewrite axis_values_length.
    rewrite Hnp, Nat.mul_comm, Nat.div_mul by lia. done. }
  assert (forall a c t,
    (3 <= length (zip_with (fun u v : Qc => (a * u + c * v + t)%Qc)
                    (axis_values (closed s) (ctlpts s) 2)
                    (axis_values (closed s) (ctlpts s) 3)))%nat) as HLz.
  { intros a c t. rewrite length_zip_with, !HLa. destruct (closed s); lia. }
  assert (forall a c t,
    spline_nodes (zip_with (fun u v => a * u + c * v + t)
                    (axis_values (closed s) (ctlpts s) 2)
                    (axis_values (closed s) (ctlpts s) 3))
      (zip_with (fun u v => a * u + c * v + t) bx by')) as Hz.
  { intros a c t. apply spline_nodes_combine; try done.
    - rewrite HLa. destruct (closed s); lia.
    - by rewrite !HLa. }
  pose proof (spline_nodes_unique _ _ _ (HLz _ _ _) Nx' (Hz _ _ _)) as ->.
  pose proof (spline_nodes_unique _ _ _ (HLz _ _ _) Ny' (Hz _ _ _)) as ->.
  destruct Nx as (Lbx & _). destruct Ny as (Lby & _).
  rewrite HLa in Lbx, Lby.
  unfold affine_stroke.
  apply stroke_eq; [|cbn [closed]; congruence]. cbn [ctlpts].
  apply list_eq. intros j.
  destruct (decide (j < 6 * n)%nat) as [Hj|Hj].
  2: { rewrite !lookup_ge_None_2; [done| |]; rewrite ?affine_map_length; lia. }
  pose proof (Nat.div_mod_eq j 6) as Ej.
  pose proof (Nat.mod_upper_bound j 6 ltac:(lia)) as Hr.
  set (i := (j / 6)%nat) in *. set (r := (j mod 6)%nat) in *.
  assert (i < n)%nat as Hi by (unfold i; by apply div6_lt).
  replace j with (i * 6 + r)%nat by lia.
  rewrite !scalar_lookup by (rewrite ?affine_map_length; lia). f_equal.
  destruct (Hout i Hi) as (A2 & A3 & A4 & A5 & A0 & A1).
  destruct (Hout' i Hi) as (B2 & B3 & B4 & B5 & B0 & B1).
  cbn zeta in A4, A5, A0, A1, B4, B5, B0, B1.
  rewrite Hsm in B4, B5, B0, B1 by done.
  rewrite (scalar_affine_x m _ i 2) in B2 by (auto || lia).
  rewrite (scalar_affine_y m _ i 2) in B3 by (auto || lia).
  rewrite (scalar_affine_x m _ i 4) in B4 by (auto || lia).
  rewrite (scalar_affine_y m _ i 4) in B5 by (auto || lia).
  rewrite (scalar_affine_x m _ i 0) in B0 by (auto || lia).
  rewrite (scalar_affine_y m _ i 0) in B1 by (auto || lia).
  set (k0 := (if closed s then 1 else 0)%nat) in *.
  assert (forall q : bool,
            (closed s || bool_decide (i < n - 1)%nat) && q = true ->
            (S (i + k0) < if closed s then n + 3 else n)%nat) as Ho.
  { intros q Hq. apply andb_true_iff in Hq as [Hq _]. unfold k0.
    destruct (closed s); [lia|]. apply bool_decide_eq_true_1 in Hq. lia. }
  assert (forall q : bool,
            (closed s || bool_decide (0 < i)%nat) && q = true ->
            (S ((i + n - 1) mod n + k0) < if closed s then n + 3 else n)%nat)
    as Hin.
  { intros q Hq. apply andb_true_iff in Hq as [Hq _]. unfold k0.
    destruct (closed s); [|apply bool_decide_eq_true_1 in Hq].
    - pose proof (Nat.mod_upper_bound (i + n - 1) n ltac:(lia)). lia.
    - rewrite (prev_anchor (ctlpts s) n Hn Hnp) by done.
      rewrite decide_False by lia. lia. }
  rewrite combined_con1 in B4 by (rewrite ?Lbx, ?Lby; done || apply Ho).
  rewrite combined_con1 in B5 by (rewrite ?Lbx, ?Lby; done || apply Ho).
  rewrite combined_con2 in B0 by (rewrite ?Lbx, ?Lby; done || apply Hin).
  rewrite combined_con2 in B1 by (rewrite ?Lbx, ?Lby; done || apply Hin).
  rewrite <- A4, <- A5 in B4, B5. rewrite <- A0, <- A1 in B0, B1.
  rewrite <- A2, <- A3 in B2, B3.
  assert (r = 0 \/ r = 1 \/ r = 2 \/ r = 3 \/ r = 4 \/ r = 5)%nat
    as [->|[->|[->|[->|[->| ->]]]]] by lia.
  - rewrite B0. symmetry. apply scalar_affine_x; [auto|lia].
  - rewrite B1. symmetry. apply (scalar_affine_y m _ i 0); [auto|lia].
  - rewrite B2. symmetry. apply scalar_affine_x; [auto|lia].
  - rewrite B3. symmetry. apply (scalar_affine_y m _ i 2); [auto|lia].
  - rewrite B4. symmetry. apply scalar_affine_x; [auto|lia].
  - rewrite B5. symmetry. apply (scalar_affine_y m _ i 4); [auto|lia].
Qed.

(** X19: with [smooth_specified] off, smoothing commutes with every
    affine map of the plane (translation, scaling, rotation, reflection,
    shear): the output for the mapped stroke is the mapped output, on open
    and on closed strokes.  The node values depend linearly on the anchor
    values, through the same system on both axes. *)
Theorem set_bezier_path_affine svals m s n :
  num_points s = (6 * n)%nat -> smooth_specified svals = 0%Z ->
  exists out,
    set_bezier_path svals s = Some out /\
    set_bezier_path svals (affine_stroke m s) = Some (affine_stroke m out).
Proof.
  intros Hnp Hsp.
  destruct (decide (n < 3)%nat) as [Hn|Hn].
  - exists s. rewrite !set_bezier_path_guard; [done| |lia].
    unfold num_points, affine_stroke in *. cbn [ctlpts].
    rewrite affine_map_length. lia.
  - destruct (set_bezier_path_spec svals s n ltac:(lia) Hnp)
      as (c & out & _ & _ & _ & _ & _ & E & _).
    exists out. split; [done|].
    apply (set_bezier_path_affine_map svals m s n); try (done || lia).
    intros i Hi. by rewrite !smoothed_all.
Qed.

(** ** The direction of an open stroke *)

Lemma reverse_points_length (ctl : list Qc) :
  length (reverse_points ctl) = length ctl.
Proof. apply length_imap. Qed.

(** The scalar that stands at offset [r] of a record after the points are
    put in the opposite order. *)
Lemma scalar_reverse (ctl : list Qc) n i r :
  length ctl = (6 * n)%nat -> (i < n)%nat -> (r < 6)%nat ->
  scalar (reverse_points ctl) i r
  = scalar ctl (n - 1 - i)
      (if Nat.even r then 4 - r else 6 - r)%nat.
Proof.
  intros HL Hi Hr. unfold scalar at 1. unfold reverse_points.
  rewrite list_lookup_imap.
  destruct (lookup_lt_is_Some_2 ctl (i * 6 + r)) as [v ->]; [lia|].
  simpl. rewrite even_record. unfold scalar.
  assert (r = 0 \/ r = 1 \/ r = 2 \/ r = 3 \/ r = 4 \/ r = 5)%nat
    as [->|[->|[->|[->|[->| ->]]]]] by lia; cbn [Nat.even];
    rewrite entry_reverse by lia; unfold entry; do 2 f_equal; lia.
Qed.

Lemma axis_values_reverse (ctl : list Qc) n off :
  (3 <= n)%nat -> length ctl = (6 * n)%nat -> (off = 2 \/ off = 3)%nat ->
  axis_values false (reverse_points ctl) off
  = reverse (axis_values false ctl off).
Proof.
  intros Hn HL Hoff.
  assert (forall ctl', length ctl' = (6 * n)%nat ->
            length (axis_values false ctl' off) = n) as HLa.
  { intros ctl' HL'. rewrite axis_values_length.
    rewrite HL', Nat.mul_comm, Nat.div_mul by lia. done. }
  apply entry_eq_ext.
  { rewrite length_reverse, !HLa by (by rewrite ?reverse_points_length).
    done. }
  rewrite HLa by (by rewrite reverse_points_length). intros i Hi.
  rewrite entry_reverse by (rewrite HLa by done; lia). rewrite HLa by done.
  pose proof (axis_values_entry false (reverse_points ctl) n off i Hn) as E1.
  pose proof (axis_values_entry false ctl n off (n - 1 - i) Hn HL) as E2.
  rewrite Nat.add_0_r in E1, E2.
  rewrite E1, E2 by (rewrite ?reverse_points_length; done || lia).
  rewrite (scalar_reverse ctl n) by (done || lia).
  by destruct Hoff as [->| ->].
Qed.

Lemma ABS_opp (a : Qc) : ABS (- a) = ABS a.
Proof.
  unfold ABS, double_lt.
  destruct (decide (a < 0)) as [H|H], (decide (- a < 0)) as [H'|H'].
  - exfalso. qc_order.
  - rewrite (bool_decide_eq_true_2 _ H), (bool_decide_eq_false_2 _ H'). done.
  - rewrite (bool_decide_eq_false_2 _ H), (bool_decide_eq_true_2 _ H'). ring.
  - rewrite (bool_decide_eq_false_2 _ H), (bool_decide_eq_false_2 _ H').
    assert (a = 0) as ->; [|done].
    apply Qc_not_lt_eq; [done|]. intros H0. apply H'. qc_order.
Qed.

Lemma ABS_eq (a b : Qc) : ABS a = ABS b -> a = b \/ a = - b.
Proof.
  unfold ABS. destruct (double_lt a 0), (double_lt b 0); intros E.
  - left. rewrite <- (Qcopp_involutive a), E. apply Qcopp_involutive.
  - right. by rewrite <- (Qcopp_involutive a), E.
  - by right.
  - by left.
Qed.

(** The stand-in for [atan2] changes at most its sign when the sign of
    its first argument changes. *)
Lemma atan2_approx_even y x :
  ABS (atan2_approx (- y) x) = ABS (atan2_approx y x).
Proof.
  unfold atan2_approx. cbn zeta. rewrite ABS_opp.
  assert (bool_decide (- y = 0) = bool_decide (y = 0)) as ->.
  { apply bool_decide_ext. split; intros H.
    - rewrite <- (Qcopp_involutive y), H. done.
    - by rewrite H. }
  set (phi := if bool_decide (x = 0) && bool_decide (y = 0) then 0
              else if double_lt (ABS x) (ABS y)
                   then G_PI_double / lit 2
                        - G_PI_double / lit 4 * (ABS x / ABS y)
                   else G_PI_double / lit 4 * (ABS y / ABS x)).
  unfold double_lt at 2 3 5 6.
  destruct (decide (y < 0)) as [H|H], (decide (- y < 0)) as [H'|H'].
  - exfalso. qc_order.
  - rewrite (bool_decide_eq_true_2 _ H), (bool_decide_eq_false_2 _ H').
    destruct (double_lt x 0); by rewrite ABS_opp.
  - rewrite (bool_decide_eq_false_2 _ H), (bool_decide_eq_true_2 _ H').
    destruct (double_lt x 0); by rewrite ABS_opp.
  - by rewrite (bool_decide_eq_false_2 _ H), (bool_decide_eq_false_2 _ H').
Qed.

(** ** Corners between distinct anchors

    Where two of the three points of a corner coincide, both arguments of
    [atan2] are zero, and in the source the value of [atan2] then depends
    on the signs of the two zeros.  The properties below that compare the
    corner test on two strokes assume nothing on [atan2] at the origin;
    they are stated for strokes in which no two neighbouring anchors
    coincide, or for [smooth_specified] off, when no corner is tested. *)

Lemma Q_sum_sq_zero (a b : Q) : (a * a + b * b == 0)%Q -> (a == 0)%Q.
Proof.
  intros H.
  destruct (Qlt_le_dec a 0), (Qlt_le_dec 0 a); try lra; nra.
Qed.

Lemma sum_sq_zero (a b : Qc) : a * a + b * b = 0 -> a = 0 /\ b = 0.
Proof.
  intros H.
  assert ((this a * this a + this b * this b == 0)%Q) as HQ.
  { apply (f_equal this) in H. cbn in H.
    rewrite <- (Qred_correct (this a * this a)),
      <- (Qred_correct (this b * this b)), <- Qred_correct.
    by rewrite H. }
  split; apply Qc_is_canon; cbn.
  - by apply (Q_sum_sq_zero _ (this b)).
  - apply (Q_sum_sq_zero _ (this a)). by rewrite Qplus_comm.
Qed.

Lemma corner_args_nonzero vax vay vbx vby vcx vcy :
  ~ (vax = vbx /\ vay = vby) -> ~ (vbx = vcx /\ vby = vcy) ->
  - (vby - vay) * (vcx - vbx) + (vbx - vax) * (vcy - vby) <> 0 \/
  (vbx - vax) * (vcx - vbx) + (vby - vay) * (vcy - vby) <> 0.
Proof.
  intros H1 H2.
  set (cr := - (vby - vay) * (vcx - vbx) + (vbx - vax) * (vcy - vby)).
  set (dt := (vbx - vax) * (vcx - vbx) + (vby - vay) * (vcy - vby)).
  destruct (decide (cr = 0)) as [Ec|Nc]; [|by left].
  destruct (decide (dt = 0)) as [Ed|Nd]; [|by right].
  exfalso.
  assert (((vbx - vax) * (vbx - vax) + (vby - vay) * (vby - vay))
          * ((vcx - vbx) * (vcx - vbx) + (vcy - vby) * (vcy - vby)) = 0) as H.
  { transitivity (cr * cr + dt * dt); [unfold cr, dt; ring|].
    rewrite Ec, Ed. ring. }
  apply Qcmult_integral in H as [H|H]; apply sum_sq_zero in H as [Hx Hy].
  - apply H1. split.
    + rewrite <- (Qcplus_0_r vax), <- Hx. ring.
    + rewrite <- (Qcplus_0_r vay), <- Hy. ring.
  - apply H2. split.
    + rewrite <- (Qcplus_0_r vbx), <- Hx. ring.
    + rewrite <- (Qcplus_0_r vby), <- Hy. ring.
Qed.

Lemma distinct_neighbours_spec (cl : bool) (ctl : list Qc) n i :
  distinct_neighbours cl ctl n = true ->
  (i < if cl then n else n - 1)%nat ->
  ~ (scalar ctl i 2 = scalar ctl ((i + 1) mod n) 2 /\
     scalar ctl i 3 = scalar ctl ((i + 1) mod n) 3).
Proof.
  unfold distinct_neighbours. intros H Hi [E2 E3].
  rewrite forallb_forall in H. specialize (H i).
  rewrite in_seq in H. specialize (H ltac:(lia)).
  rewrite (bool_decide_eq_true_2 _ E2), (bool_decide_eq_true_2 _ E3) in H.
  done.
Qed.

Section Reverse.

Hypothesis atan2_even :
  forall y x, y <> 0 \/ x <> 0 -> ABS (atan2 (- y) x) = ABS (atan2 y x).

Lemma corner_angle_reverse vax vay vbx vby vcx vcy :
  ~ (vax = vbx /\ vay = vby) -> ~ (vbx = vcx /\ vby = vcy) ->
  corner_angle vcx vcy vbx vby vax vay = corner_angle vax vay vbx vby vcx vcy.
Proof.
  intros H1 H2. unfold corner_angle. cbn zeta. f_equal.
  replace (- (vby - vcy) * (vax - vbx) + (vbx - vcx) * (vay - vby))
    with (- (- (vby - vay) * (vcx - vbx) + (vbx - vax) * (vcy - vby)))
    by ring.
  replace ((vbx - vcx) * (vax - vbx) + (vby - vcy) * (vay - vby))
    with ((vbx - vax) * (vcx - vbx) + (vby - vay) * (vcy - vby)) by ring.
  unfold rad_to_deg.
  destruct (ABS_eq _ _ (atan2_even _ _
              (corner_args_nonzero vax vay vbx vby vcx vcy H1 H2)))
    as [->| ->]; [done|].
  rewrite <- ABS_opp. f_equal. unfold Qcdiv. ring.
Qed.

Lemma smoothed_reverse svals (ctl : list Qc) n i :
  smooth_specified svals = 0%Z \/ distinct_neighbours false ctl n = true ->
  (3 <= n)%nat -> length ctl = (6 * n)%nat -> (i < n)%nat ->
  smoothed svals false (reverse_points ctl) n i
  = smoothed svals false ctl n (n - 1 - i).
Proof.
  intros [Hsp|Hd] Hn HL Hi; [by rewrite !smoothed_all|].
  unfold smoothed.
  destruct (decide (i = 0 \/ i = n - 1)%nat) as [H|H].
  { by rewrite decide_True by lia. }
  rewrite decide_False by lia. unfold corner_test, angle_between.
  rewrite !(scalar_reverse ctl n) by (done || lia). cbn [Nat.even].
  change (4 - 2)%nat with 2%nat. change (6 - 3)%nat with 3%nat.
  replace (n - 1 - (i - 1))%nat with (n - 1 - i + 1)%nat by lia.
  replace (n - 1 - (i + 1))%nat with (n - 1 - i - 1)%nat by lia.
  assert (exists k, k = (n - 1 - i)%nat) as [k Ek] by eauto.
  rewrite <- Ek.
  assert (k - 1 < n - 1)%nat as L1 by lia.
  assert (k < n - 1)%nat as L2 by lia.
  pose proof (distinct_neighbours_spec false ctl n (k - 1) Hd L1) as D1.
  pose proof (distinct_neighbours_spec false ctl n k Hd L2) as D2.
  rewrite (Nat.mod_small (k - 1 + 1) n) in D1 by lia.
  rewrite (Nat.mod_small (k + 1) n) in D2 by lia.
  replace (k - 1 + 1)%nat with k in D1 by lia.
  by rewrite corner_angle_reverse.
Qed.

End Reverse.

Lemma set_bezier_path_reversed svals s n out :
  (3 <= n)%nat -> num_points s = (6 * n)%nat -> closed s = false ->
  (forall i, (i < n)%nat ->
     smoothed svals false (reverse_points (ctlpts s)) n i
     = smoothed svals false (ctlpts s) n (n - 1 - i)) ->
  set_bezier_path svals s = Some out ->
  set_bezier_path svals (reverse_stroke s) = Some (reverse_stroke out).
Proof.
  intros Hn Hnp Hopen Hsm E.
  destruct (output_spline svals s n Hn Hnp)
    as (out0 & bx & by' & E0 & Hcl & HL & Nx & Ny & Hout).
  rewrite E in E0. injection E0 as <-.
  assert (num_points (reverse_stroke s) = (6 * n)%nat) as Hnp'.
  { unfold num_points, reverse_stroke. cbn [ctlpts].
    by rewrite reverse_points_length. }
  destruct (output_spline svals (reverse_stroke s) n Hn Hnp')
    as (out' & bx' & by'' & E' & Hcl' & HL' & Nx' & Ny' & Hout').
  rewrite E'. f_equal. unfold num_points in *.
  cbn [reverse_stroke ctlpts closed] in *. rewrite Hopen in *.
  rewrite (axis_values_reverse _ n) in Nx', Ny' by (done || auto).
  assert (forall off, length (axis_values false (ctlpts s) off) = n) as HLa.
  { intros off. rewrite axis_values_length.
    rewrite Hnp, Nat.mul_comm, Nat.div_mul by lia. done. }
  assert (forall off,
            (3 <= length (reverse (axis_values false (ctlpts s) off)))%nat)
    as HLr.
  { intros off. rewrite length_reverse, HLa. lia. }
  pose proof (spline_nodes_unique _ _ _ (HLr 2%nat) Nx'
    (spline_nodes_reverse _ _ ltac:(rewrite HLa; lia) Nx)) as ->.
  pose proof (spline_nodes_unique _ _ _ (HLr 3%nat) Ny'
    (spline_nodes_reverse _ _ ltac:(rewrite HLa; lia) Ny)) as ->.
  destruct Nx as (Lbx & _). destruct Ny as (Lby & _).
  rewrite HLa in Lbx, Lby.
  unfold reverse_stroke.
  apply stroke_eq; [|cbn [closed]; congruence]. cbn [ctlpts].
  apply list_eq. intros j.
  destruct (decide (j < 6 * n)%nat) as [Hj|Hj].
  2: { rewrite !lookup_ge_None_2; [done| |];
       rewrite ?reverse_points_length; lia. }
  pose proof (Nat.div_mod_eq j 6) as Ej.
  pose proof (Nat.mod_upper_bound j 6 ltac:(lia)) as Hr.
  set (i := (j / 6)%nat) in *. set (r := (j mod 6)%nat) in *.
  assert (i < n)%nat as Hi by (unfold i; by apply div6_lt).
  replace j with (i * 6 + r)%nat by lia.
  rewrite !scalar_lookup by (rewrite ?reverse_points_length; lia). f_equal.
  rewrite (scalar_reverse (ctlpts out) n) by (done || lia).
  destruct (Hout (n - 1 - i)%nat ltac:(lia)) as (A2 & A3 & A4 & A5 & A0 & A1).
  destruct (Hout' i Hi) as (B2 & B3 & B4 & B5 & B0 & B1).
  cbn zeta in A4, A5, A0, A1, B4, B5, B0, B1.
  cbn [orb] in A4, A5, A0, A1, B4, B5, B0, B1.
  rewrite Hsm in B4, B5, B0, B1 by done.
  rewrite !(scalar_reverse (ctlpts s) n) in B2, B3, B4, B5, B0, B1
    by (done || lia).
  cbn [Nat.even Nat.sub] in B2, B3, B4, B5, B0, B1.
  rewrite !Nat.add_0_r in A4, A5, A0, A1, B4, B5, B0, B1.
  set (q := smoothed svals false (ctlpts s) n (n - 1 - i)) in *.
  assert (r = 0 \/ r = 1 \/ r = 2 \/ r = 3 \/ r = 4 \/ r = 5)%nat
    as [->|[->|[->|[->|[->| ->]]]]] by lia; cbn [Nat.even Nat.sub].
  - rewrite B0, A4.
    destruct (decide (0 < i)%nat) as [H0|H0].
    + rewrite !bool_decide_eq_true_2 by lia. destruct q; [|done].
      cbn [andb].
      rewrite (prev_anchor (ctlpts s) n Hn Hnp) by done.
      rewrite decide_False by lia.
      rewrite !entry_reverse by lia. rewrite Lbx.
      replace (n - 1 - (i - 1))%nat with (S (n - 1 - i)) by lia.
      replace (n - 1 - S (i - 1))%nat with (n - 1 - i)%nat by lia.
      ring.
    + by rewrite !bool_decide_eq_false_2 by lia.
  - rewrite B1, A5.
    destruct (decide (0 < i)%nat) as [H0|H0].
    + rewrite !bool_decide_eq_true_2 by lia. destruct q; [|done].
      cbn [andb].
      rewrite (prev_anchor (ctlpts s) n Hn Hnp) by done.
      rewrite decide_False by lia.
      rewrite !entry_reverse by lia. rewrite Lby.
      replace (n - 1 - (i - 1))%nat with (S (n - 1 - i)) by lia.
      replace (n - 1 - S (i - 1))%nat with (n - 1 - i)%nat by lia.
      ring.
    + by rewrite !bool_decide_eq_false_2 by lia.
  - by rewrite B2, A2.
  - by rewrite B3, A3.
  - rewrite B4, A0.
    destruct (decide (i < n - 1)%nat) as [H0|H0].
    + rewrite !bool_decide_eq_true_2 by lia. destruct q; [|done].
      cbn [andb].
      rewrite (prev_anchor (ctlpts s) n Hn Hnp) by lia.
      rewrite decide_False by lia.
      rewrite !entry_reverse by lia. rewrite Lbx.
      replace (n - 1 - S i)%nat with (n - 1 - i - 1)%nat by lia.
      replace (S (n - 1 - i - 1)) with (n - 1 - i)%nat by lia.
      ring.
    + by rewrite !bool_decide_eq_false_2 by lia.
  - rewrite B5, A1.
    destruct (decide (i < n - 1)%nat) as [H0|H0].
    + rewrite !bool_decide_eq_true_2 by lia. destruct q; [|done].
      cbn [andb].
      rewrite (prev_anchor (ctlpts s) n Hn Hnp) by lia.
      rewrite decide_False by lia.
      rewrite !entry_reverse by lia. rewrite Lby.
      replace (n - 1 - S i)%nat with (n - 1 - i - 1)%nat by lia.
      replace (S (n - 1 - i - 1)) with (n - 1 - i)%nat by lia.
      ring.
    + by rewrite !bool_decide_eq_false_2 by lia.
Qed.


(** X20: smoothing an open stroke does not depend on the direction in
    which the stroke is run through: for the stroke with its anchors in
    the opposite order, and the incoming and outgoing control point of
    each anchor exchanged, [set_bezier_path] returns the output for the
    stroke as given, turned around in the same way.  This is for strokes
    in which no two neighbouring anchors coincide, or for
    [smooth_specified] off.  The corner test takes the absolute value of
    the angle, so this needs of [atan2] only that, away from the origin,
    changing the sign of its first argument changes at most the sign of
    its value. *)
Theorem set_bezier_path_reverse svals s n :
  (forall y x, y <> 0 \/ x <> 0 -> ABS (atan2 (- y) x) = ABS (atan2 y x)) ->
  num_points s = (6 * n)%nat -> closed s = false ->
  smooth_specified svals = 0%Z
  \/ distinct_neighbours false (ctlpts s) n = true ->
  exists out,
    set_bezier_path svals s = Some out /\
    set_bezier_path svals (reverse_stroke s) = Some (reverse_stroke out).
Proof.
  intros Heven Hnp Hopen Hd.
  destruct (decide (n < 3)%nat) as [Hn|Hn].
  - exists s. rewrite !set_bezier_path_guard; [done| |lia].
    unfold num_points, reverse_stroke in *. cbn [ctlpts].
    rewrite reverse_points_length. lia.
  - destruct (set_bezier_path_spec svals s n ltac:(lia) Hnp)
      as (c & out & _ & _ & _ & _ & _ & E & _).
    exists out. split; [done|].
    apply (set_bezier_path_reversed svals s n); try (done || lia).
    intros i Hi. apply smoothed_reverse; (done || lia).
Qed.

(** The stand-in for [atan2] depends on the direction of its argument
    vector only. *)
Lemma scale_neg (k x : Qc) : 0 < k -> (k * x < 0 <-> x < 0).
Proof.
  intros Hk. split; intros H.
  - destruct (Qclt_le_dec x 0) as [|Hx]; [done|]. exfalso.
    assert (0 * k <= x * k) as H0.
    { apply Qcmult_le_compat_r; [done|]. by apply Qclt_le_weak. }
    rewrite Qcmult_0_l, (Qcmult_comm x) in H0.
    by apply Qcle_not_lt in H0.
  - rewrite <- (Qcmult_0_r k). rewrite !(Qcmult_comm k).
    by apply Qcmult_lt_compat_r.
Qed.

Lemma scale_lt (k u v : Qc) : 0 < k -> (k * u < k * v <-> u < v).
Proof.
  intros Hk. split; intros H.
  - destruct (Qclt_le_dec u v) as [|Hx]; [done|]. exfalso.
    assert (k * v <= k * u) as H0.
    { rewrite !(Qcmult_comm k). apply Qcmult_le_compat_r; [done|].
      by apply Qclt_le_weak. }
    by apply Qcle_not_lt in H0.
  - rewrite !(Qcmult_comm k). by apply Qcmult_lt_compat_r.
Qed.

Lemma scale_zero (k x : Qc) : 0 < k -> (k * x = 0 <-> x = 0).
Proof.
  intros Hk. split; intros H.
  - apply Qcmult_integral in H as [H|H]; [|done].
    by apply Qc_pos_neq0 in Hk.
  - rewrite H. ring.
Qed.

Lemma ABS_scale (k x : Qc) : 0 < k -> ABS (k * x) = k * ABS x.
Proof.
  intros Hk. unfold ABS, double_lt.
  rewrite (bool_decide_ext _ _ (scale_neg k x Hk)).
  destruct (bool_decide (x < 0)); ring.
Qed.

Lemma ratio_scale (k u v : Qc) : 0 < k -> k * u / (k * v) = u / v.
Proof.
  intros Hk. apply Qc_pos_neq0 in Hk.
  destruct (decide (v = 0)) as [->|Hv].
  - rewrite Qcmult_0_r. unfold Qcdiv.
    replace (/ 0) with (Q2Qc 0) by (by apply Qc_is_canon). ring.
  - by field.
Qed.

Lemma atan2_approx_scale k y x :
  0 < k -> atan2_approx (k * y) (k * x) = atan2_approx y x.
Proof.
  intros Hk. unfold atan2_approx. cbn zeta.
  rewrite !ABS_scale by done. rewrite !ratio_scale by done.
  unfold double_lt.
  rewrite (bool_decide_ext _ _ (scale_neg k x Hk)).
  rewrite (bool_decide_ext _ _ (scale_neg k y Hk)).
  rewrite (bool_decide_ext _ _ (scale_zero k x Hk)).
  rewrite (bool_decide_ext _ _ (scale_zero k y Hk)).
  by rewrite (bool_decide_ext _ _ (scale_lt k (ABS x) (ABS y) Hk)).
Qed.

(** ** Similarities of the plane *)

Section Similar.

Hypothesis atan2_scale :
  forall k y x, 0 < k -> y <> 0 \/ x <> 0 ->
    atan2 (k * y) (k * x) = atan2 y x.
Hypothesis atan2_even :
  forall y x, y <> 0 \/ x <> 0 -> ABS (atan2 (- y) x) = ABS (atan2 y x).

Lemma corner_angle_similar a b sg tx ty vax vay vbx vby vcx vcy :
  0 < a * a + b * b -> sg = 1 \/ sg = - (1) ->
  ~ (vax = vbx /\ vay = vby) -> ~ (vbx = vcx /\ vby = vcy) ->
  corner_angle (a * vax + - (sg * b) * vay + tx) (b * vax + sg * a * vay + ty)
    (a * vbx + - (sg * b) * vby + tx) (b * vbx + sg * a * vby + ty)
    (a * vcx + - (sg * b) * vcy + tx) (b * vcx + sg * a * vcy + ty)
  = corner_angle vax vay vbx vby vcx vcy.
Proof.
  intros HK Hsg H1 H2. unfold corner_angle. cbn zeta. f_equal.
  pose proof (corner_args_nonzero vax vay vbx vby vcx vcy H1 H2) as Hnz.
  set (cr := - (vby - vay) * (vcx - vbx) + (vbx - vax) * (vcy - vby)) in *.
  set (dt := (vbx - vax) * (vcx - vbx) + (vby - vay) * (vcy - vby)) in *.
  destruct Hsg as [->| ->].
  - match goal with |- ABS (rad_to_deg (atan2 ?y ?x)) = _ =>
      replace y with ((a * a + b * b) * cr) by (unfold cr; ring);
      replace x with ((a * a + b * b) * dt) by (unfold dt; ring)
    end.
    by rewrite atan2_scale.
  - match goal with |- ABS (rad_to_deg (atan2 ?y ?x)) = _ =>
      replace y with ((a * a + b * b) * - cr) by (unfold cr; ring);
      replace x with ((a * a + b * b) * dt) by (unfold dt; ring)
    end.
    rewrite atan2_scale; [|done|].
    2:{ destruct Hnz as [Hc|Hd]; [left|by right].
        intros E. apply Hc. rewrite <- (Qcopp_involutive cr), E. ring. }
    unfold rad_to_deg.
    destruct (ABS_eq _ _ (atan2_even cr dt Hnz)) as [->| ->]; [done|].
    rewrite <- ABS_opp. f_equal. unfold Qcdiv. ring.
Qed.

Lemma smoothed_similar svals a b sg tx ty cl (ctl : list Qc) n i :
  0 < a * a + b * b -> sg = 1 \/ sg = - (1) ->
  smooth_specified svals = 0%Z \/ distinct_neighbours cl ctl n = true ->
  (3 <= n)%nat -> length ctl = (6 * n)%nat -> (i < n)%nat ->
  smoothed svals cl (affine_map (similarity a b sg tx ty) ctl) n i
  = smoothed svals cl ctl n i.
Proof.
  intros HK Hsg [Hsp|Hd] Hn HL Hi; [by rewrite !smoothed_all|].
  unfold smoothed, corner_test, angle_between.
  assert (forall k, (k mod n < n)%nat) as Hlt.
  { intros k. apply Nat.mod_upper_bound. lia. }
  assert (forall k, (k < n)%nat ->
    scalar (affine_map (similarity a b sg tx ty) ctl) k 2
    = a * scalar ctl k 2 + - (sg * b) * scalar ctl k 3 + tx /\
    scalar (affine_map (similarity a b sg tx ty) ctl) k 3
    = b * scalar ctl k 2 + sg * a * scalar ctl k 3 + ty) as Hs.
  { intros k Hk. split.
    - rewrite (scalar_affine_x _ ctl k 2) by (auto || lia). done.
    - rewrite (scalar_affine_y _ ctl k 2) by (auto || lia). done. }
  destruct cl.
  - destruct (Hs _ (Hlt (i + n - 1)%nat)) as [-> ->].
    destruct (Hs _ (Hlt (i + 1)%nat)) as [-> ->].
    destruct (Hs i Hi) as [-> ->].
    pose proof (distinct_neighbours_spec true ctl n _ Hd
                  (Hlt (i + n - 1)%nat)) as D1.
    pose proof (distinct_neighbours_spec true ctl n i Hd Hi) as D2.
    replace (((i + n - 1) mod n + 1) mod n)%nat with i in D1.
    2:{ destruct (decide (i = 0)%nat) as [->|Hi0].
        - replace (0 + n - 1)%nat with (n - 1)%nat by lia.
          rewrite (Nat.mod_small (n - 1) n) by lia.
          replace (n - 1 + 1)%nat with n by lia.
          by rewrite Nat.Div0.mod_same.
        - replace (i + n - 1)%nat with (i - 1 + 1 * n)%nat by lia.
          rewrite Nat.Div0.mod_add, (Nat.mod_small (i - 1) n) by lia.
          replace (i - 1 + 1)%nat with i by lia.
          by rewrite Nat.mod_small. }
    by rewrite corner_angle_similar.
  - case_decide; [done|].
    destruct (Hs (i - 1)%nat ltac:(lia)) as [-> ->].
    destruct (Hs (i + 1)%nat ltac:(lia)) as [-> ->].
    destruct (Hs i Hi) as [-> ->].
    assert (i - 1 < n - 1)%nat as L1 by lia.
    assert (i < n - 1)%nat as L2 by lia.
    pose proof (distinct_neighbours_spec false ctl n (i - 1) Hd L1) as D1.
    pose proof (distinct_neighbours_spec false ctl n i Hd L2) as D2.
    rewrite (Nat.mod_small (i - 1 + 1) n) in D1 by lia.
    rewrite (Nat.mod_small (i + 1) n) in D2 by lia.
    replace (i - 1 + 1)%nat with i in D1 by lia.
    by rewrite corner_angle_similar.
Qed.

End Similar.

(** X21: the result of smoothing does not depend on where the path lies
    in the plane, how it is turned, how large it is, or whether it is
    mirrored: smoothing commutes with every similarity (rotation and
    uniform scaling by [a + b i], reflection when [sg] is [-1], shift by
    [(tx, ty)]), on open and on closed strokes.  This is for strokes in
    which no two neighbouring anchors coincide, or for [smooth_specified]
    off.  It needs of [atan2] that, away from the origin, it depends on
    the direction of its argument vector only, and that changing the sign
    of its first argument changes at most the sign of its value. *)
Theorem set_bezier_path_similarity svals a b sg tx ty s n :
  (forall k y x, 0 < k -> y <> 0 \/ x <> 0 ->
     atan2 (k * y) (k * x) = atan2 y x) ->
  (forall y x, y <> 0 \/ x <> 0 -> ABS (atan2 (- y) x) = ABS (atan2 y x)) ->
  0 < a * a + b * b -> sg = 1 \/ sg = - (1) ->
  num_points s = (6 * n)%nat ->
  smooth_specified svals = 0%Z
  \/ distinct_neighbours (closed s) (ctlpts s) n = true ->
  exists out,
    set_bezier_path svals s = Some out /\
    set_bezier_path svals (affine_stroke (similarity a b sg tx ty) s)
    = Some (affine_stroke (similarity a b sg tx ty) out).
Proof.
  intros Hscale Heven HK Hsg Hnp Hd.
  destruct (decide (n < 3)%nat) as [Hn|Hn].
  - exists s. rewrite !set_bezier_path_guard; [done| |lia].
    unfold num_points, affine_stroke in *. cbn [ctlpts].
    rewrite affine_map_length. lia.
  - destruct (set_bezier_path_spec svals s n ltac:(lia) Hnp)
      as (c & out & _ & _ & _ & _ & _ & E & _).
    exists out. split; [done|].
    apply (set_bezier_path_affine_map svals _ s n); try (done || lia).
    intros i Hi. apply smoothed_similar; (done || lia).
Qed.

End Smoothing.

(** * Signed zeros in the corner test

    The properties of this part are about [Binary64.angle_between], the
    corner test on IEEE doubles.  [is_finite], [is_zero] and [get_sign]
    are those of the library of primitive floats: neither NaN nor an
    infinity, one of the two zeros, the sign bit. *)

Section Binary64_corner.

Import Binary64.
Local Open Scope float_scope.

(** ** Zeros, signs and finite doubles *)


Lemma is_finite_spec (x : float) :
  is_finite x = match Prim2SF x with
                | S754_zero _ | S754_finite _ _ _ => true
                | _ => false
                end.
Proof.
  unfold is_finite, is_nan, is_infinity.
  rewrite !eqb_spec, abs_spec.
  change (Prim2SF infinity) with (S754_infinity false).
  destruct (Prim2SF x) as [s|s| |s m e]; try done; try (by destruct s).
  unfold SFeqb, SFcompare, SFabs.
  rewrite Z.compare_refl, Pos.compare_cont_refl. by destruct s.
Qed.





(** The difference of a finite double and itself is the positive zero. *)
Lemma sub_diag (x : float) : is_finite x = true -> x - x = zero.
Proof.
  rewrite is_finite_spec. intros H. apply Prim2SF_inj. rewrite sub_spec.
  change (Prim2SF zero) with (S754_zero false).
  destruct (Prim2SF x) as [s|s| |s m e]; try done.
  - by destruct s.
  - unfold SF64sub, SFsub. cbv zeta. by rewrite Z.sub_diag.
Qed.






(** ** The corner test where two neighbouring points coincide *)



End Binary64_corner.

(** * Sample runs *)

(** The zig-zag of four open anchors, every corner smoothed: the anchors
    stay and the inner control points move. *)
Example zigzag_smoothed :
  scalars (set_bezier_path atan2_approx G_PI_double svals_default zigzag)
  = Some [0; 0; 0; 0; 4; -10 # 9;
          8; -20 # 9; 10; 0; 12; 20 # 9;
          12; 70 # 9; 10; 10; 8; 110 # 9;
          4; 100 # 9; 0; 10; 0; 10]%Q.
Proof. by vm_compute. Qed.

(** The same zig-zag when only corners between 170 and 180 degrees are
    smoothed: its corners have 90 degrees and nothing changes. *)
Example zigzag_blunt_only :
  set_bezier_path atan2_approx G_PI_double svals_blunt zigzag = Some zigzag.
Proof. by vm_compute. Qed.

(** The closed triangle, every corner smoothed. *)
Example triangle_smoothed :
  scalars (set_bezier_path atan2_approx G_PI_double svals_default triangle)
  = Some [10 # 19; 1780 # 627; 0; 0; 10 # 19; -1450 # 627;
          130 # 19; -1940 # 627; 10; 0; 250 # 19; 1940 # 627;
          250 # 19; 6310 # 627; 10; 10; 130 # 19; 6230 # 627]%Q.
Proof. by vm_compute. Qed.

(** The same triangle with its anchor list starting at (10, 0): the control
    points are not those of [triangle_smoothed] in rotated order. *)
Example triangle_rotated_smoothed :
  scalars (set_bezier_path atan2_approx G_PI_double svals_default
             (rotate_anchors triangle))
  = Some [4490 # 627; -1450 # 627; 10; 0; 7720 # 627; 1780 # 627;
          8210 # 627; 6230 # 627; 10; 10; 4330 # 627; 6310 # 627;
          -40 # 627; 1940 # 627; 0; 0; 40 # 627; -1940 # 627]%Q.
Proof. by vm_compute. Qed.

(** An index outside an array stops the computation: on empty arrays the
    solver reads [asc[0]]. *)
Example triagonal_solve_empty : triagonal_solve [] [] = None.
Proof. reflexivity. Qed.

(** A straight corner has the angle 180, which the strict comparison with
    [ang_max = 180] excludes. *)
Example straight_corner_excluded :
  corner_angle atan2_approx G_PI_double 0 0 (lit 10) 0 (lit 20) 0 = lit 180 /\
  angle_between atan2_approx G_PI_double svals_blunt
    0 0 (lit 10) 0 (lit 20) 0 = 0%Z.
Proof. split; by vm_compute. Qed.

(** * The theorems at sample inputs *)


Lemma short_stroke_unchanged_witness :
  (num_points two_anchors < 18)%nat /\
  set_bezier_path atan2_approx G_PI_double svals_default two_anchors
  = Some two_anchors.
Proof.
  split; [vm_compute; lia|].
  apply short_stroke_unchanged. vm_compute; lia.
Defined.

Lemma anchors_unchanged_witness :
  (3 <= 4)%nat /\ num_points zigzag = (6 * 4)%nat /\
  exists out,
    set_bezier_path atan2_approx G_PI_double svals_default zigzag = Some out /\
    num_points out = num_points zigzag /\
    closed out = closed zigzag /\
    forall i, (i < 4)%nat ->
      ctlpts out !! (i * 6 + 2)%nat = ctlpts zigzag !! (i * 6 + 2)%nat /\
      ctlpts out !! (i * 6 + 3)%nat = ctlpts zigzag !! (i * 6 + 3)%nat.
Proof.
  split; [lia|]. split; [reflexivity|].
  apply anchors_unchanged; [lia|reflexivity].
Defined.

Lemma closed_wrap_corners_witness :
  (3 <= 3)%nat /\ num_points triangle = (6 * 3)%nat /\
  closed triangle = true /\
  exists c out,
    bezier_controls triangle = Some c /\
    set_bezier_path atan2_approx G_PI_double svals_blunt triangle = Some out /\
    (forall i, (i < 3)%nat ->
       let p := ((i + 3 - 1) mod 3)%nat in
       let q := ((i + 1) mod 3)%nat in
       let t := corner_test atan2_approx G_PI_double svals_blunt
                  (ctlpts triangle) p i q in
       ctlpts out !! (i * 6 + 4)%nat
       = (if t then aconx1 c !! i else ctlpts triangle !! (i * 6 + 4)%nat) /\
       ctlpts out !! (i * 6 + 5)%nat
       = (if t then acony1 c !! i else ctlpts triangle !! (i * 6 + 5)%nat) /\
       ctlpts out !! (i * 6 + 0)%nat
       = (if t then aconx2 c !! p else ctlpts triangle !! (i * 6 + 0)%nat) /\
       ctlpts out !! (i * 6 + 1)%nat
       = (if t then acony2 c !! p else ctlpts triangle !! (i * 6 + 1)%nat)) /\
    (forall i, (i < 3)%nat ->
       let i' := ((i + 1) mod 3)%nat in
       corner_test atan2_approx G_PI_double svals_blunt
         (ctlpts (rotate_anchors triangle))
         ((i + 3 - 1) mod 3) i ((i + 1) mod 3)
       = corner_test atan2_approx G_PI_double svals_blunt (ctlpts triangle)
           ((i' + 3 - 1) mod 3) i' ((i' + 1) mod 3)).
Proof.
  split; [lia|]. split; [reflexivity|]. split; [reflexivity|].
  apply closed_wrap_corners; [lia|reflexivity|reflexivity].
Defined.

(** C4 as stated fails: on the closed triangle with every corner smoothed,
    the result for the rotated anchor list and the rotated result differ
    by more than 0.3 in some scalar (the anchors lie in a square of side
    10). *)
Lemma rotation_changes_controls :
  rotation_consistent atan2_approx G_PI_double svals_default (lit 0.3) triangle
  = Some false.
Proof. by vm_compute. Qed.


Lemma open_endpoints_witness :
  (3 <= 4)%nat /\ num_points zigzag = (6 * 4)%nat /\ closed zigzag = false /\
  exists c out x1 y1 x2 y2,
    bezier_controls zigzag = Some c /\
    set_bezier_path atan2_approx G_PI_double svals_default zigzag = Some out /\
    aconx1 c !! 0%nat = Some x1 /\ acony1 c !! 0%nat = Some y1 /\
    aconx2 c !! (4 - 2)%nat = Some x2 /\ acony2 c !! (4 - 2)%nat = Some y2 /\
    (smooth_specified svals_default = 0%Z ->
       ctlpts out !! 4%nat = Some x1 /\
       ctlpts out !! 5%nat = Some y1 /\
       ctlpts out !! ((4 - 1) * 6)%nat = Some x2 /\
       ctlpts out !! ((4 - 1) * 6 + 1)%nat = Some y2) /\
    (smooth_specified svals_default <> 0%Z ->
       ctlpts out !! 4%nat = ctlpts zigzag !! 4%nat /\
       ctlpts out !! 5%nat = ctlpts zigzag !! 5%nat /\
       ctlpts out !! ((4 - 1) * 6)%nat = ctlpts zigzag !! ((4 - 1) * 6)%nat /\
       ctlpts out !! ((4 - 1) * 6 + 1)%nat
       = ctlpts zigzag !! ((4 - 1) * 6 + 1)%nat).
Proof.
  split; [lia|]. split; [reflexivity|]. split; [reflexivity|].
  apply open_endpoints; [lia|reflexivity|reflexivity].
Defined.

Lemma linear_controls_witness :
  (3 <= 4)%nat /\ num_points on_a_line = (6 * 4)%nat /\
  closed on_a_line = false /\
  (forall i, (i < 4)%nat ->
     ctlpts on_a_line !! (i * 6 + 2)%nat
     = Some (lit 1 + nat_to_double i * lit 2) /\
     ctlpts on_a_line !! (i * 6 + 3)%nat
     = Some (lit 2 + nat_to_double i * lit 3)) /\
  exists c,
    bezier_controls on_a_line = Some c /\
    length (aconx1 c) = (4 - 1)%nat /\ length (aconx2 c) = (4 - 1)%nat /\
    length (acony1 c) = (4 - 1)%nat /\ length (acony2 c) = (4 - 1)%nat /\
    forall j, (j < 4 - 1)%nat ->
      aconx1 c !! j = Some (lit 1 + nat_to_double j * lit 2 + lit 2 / lit 3) /\
      aconx2 c !! j
      = Some (lit 1 + nat_to_double j * lit 2 + lit 2 * lit 2 / lit 3) /\
      acony1 c !! j = Some (lit 2 + nat_to_double j * lit 3 + lit 3 / lit 3) /\
      acony2 c !! j
      = Some (lit 2 + nat_to_double j * lit 3 + lit 2 * lit 3 / lit 3).
Proof.
  assert (forall i, (i < 4)%nat ->
     ctlpts on_a_line !! (i * 6 + 2)%nat
     = Some (lit 1 + nat_to_double i * lit 2) /\
     ctlpts on_a_line !! (i * 6 + 3)%nat
     = Some (lit 2 + nat_to_double i * lit 3)) as Hline.
  { intros i Hi.
    destruct i as [|[|[|[|i]]]]; [| | | |lia];
      split; apply (f_equal Some); by apply Qc_is_canon. }
  split; [lia|]. split; [reflexivity|]. split; [reflexivity|].
  split; [exact Hline|].
  apply linear_controls; [lia|reflexivity|reflexivity|exact Hline].
Defined.

Lemma solver_calls_in_bounds_witness :
  (18 <= num_points triangle)%nat /\
  exists c, bezier_controls triangle = Some c /\
            Forall (fun k => 2 <= k)%nat (solver_calls c).
Proof.
  split; [vm_compute; lia|].
  apply solver_calls_in_bounds. vm_compute; lia.
Defined.

Lemma open_dangling_controls_witness :
  num_points zigzag = (6 * 4)%nat /\ closed zigzag = false /\
  exists out,
    set_bezier_path atan2_approx G_PI_double svals_default zigzag = Some out /\
    ctlpts out !! 0%nat = ctlpts zigzag !! 0%nat /\
    ctlpts out !! 1%nat = ctlpts zigzag !! 1%nat /\
    ctlpts out !! (num_points zigzag - 2)%nat
    = ctlpts zigzag !! (num_points zigzag - 2)%nat /\
    ctlpts out !! (num_points zigzag - 1)%nat
    = ctlpts zigzag !! (num_points zigzag - 1)%nat.
Proof.
  split; [reflexivity|]. split; [reflexivity|].
  apply (open_dangling_controls atan2_approx G_PI_double svals_default
           zigzag 4); reflexivity.
Defined.

(** * Further sample runs *)

(** Two records in the opposite order: the last record comes first and
    the two control points of each record change places. *)
Example reverse_points_records :
  map this (reverse_points (map lit [1; 2; 3; 4; 5; 6;
                                     7; 8; 9; 10; 11; 12]%Q))
  = [11; 12; 9; 10; 7; 8; 5; 6; 3; 4; 1; 2]%Q.
Proof. by vm_compute. Qed.

(** A right-hand side shorter than [asb]: the forward sweep reads
    [asd[2]]. *)
Example triagonal_solve_short_rhs :
  triagonal_solve (map lit [0; 0; 0]%Q) (map lit [5; 6]%Q) = None.
Proof. by vm_compute. Qed.

(** Running with the last values passes through and smooths nothing. *)
Example run_last_vals :
  run atan2_approx G_PI_double dialog_ok 6
    {| p_run_mode := GIMP_RUN_WITH_LAST_VALS; p_smooth := 0;
       p_angle_min := lit 60; p_angle_max := lit 120 |} plug_in_start
  = Some (GIMP_PDB_PASS_THROUGH, plug_in_start).
Proof. reflexivity. Qed.

(** A cancelled dialog: the status is success, the settings are those
    the dialog left, the strokes are untouched. *)
Example run_cancelled :
  run atan2_approx G_PI_double (fun _ => (svals_corners, false)) 6
    {| p_run_mode := GIMP_RUN_INTERACTIVE; p_smooth := 0;
       p_angle_min := lit 60; p_angle_max := lit 120 |} plug_in_start
  = Some (GIMP_PDB_SUCCESS,
          {| pi_svals := svals_corners; pi_data := None;
             pi_strokes := [zigzag; two_anchors]; pi_flushes := 0 |}).
Proof. reflexivity. Qed.

(** * The further properties at sample inputs *)

Lemma axis_pass_spline_witness :
  (3 <= length zigzag_x)%nat /\
  exists d b c1 c2 calls,
    axis_pass zigzag_x [] [] = Some (d, b, c1, c2, calls) /\
    spline_nodes zigzag_x b /\ bezier_of_nodes b c1 c2.
Proof.
  split; [simpl; lia|]. apply axis_pass_spline. simpl; lia.
Defined.

Lemma axis_pass_work_arrays_witness :
  (3 <= length zigzag_x)%nat /\
  exists d d' b c1 c2 calls,
    axis_pass zigzag_x [] [] = Some (d, b, c1, c2, calls) /\
    axis_pass zigzag_x (map lit [7; 7; 7]%Q) (map lit [1; 2]%Q)
    = Some (d', b, c1, c2, calls).
Proof.
  split; [simpl; lia|]. apply axis_pass_work_arrays. simpl; lia.
Defined.

Lemma axis_pass_reverse_witness :
  (3 <= length zigzag_x)%nat /\
  exists d d' b c1 c2 calls,
    axis_pass zigzag_x [] [] = Some (d, b, c1, c2, calls) /\
    axis_pass (reverse zigzag_x) [] []
    = Some (d', reverse b, reverse c2, reverse c1, calls).
Proof.
  split; [simpl; lia|]. apply axis_pass_reverse. simpl; lia.
Defined.

Lemma axis_pass_affine_witness :
  (3 <= length zigzag_x)%nat /\
  exists d d' b c1 c2 calls,
    axis_pass zigzag_x [] [] = Some (d, b, c1, c2, calls) /\
    axis_pass ((fun v => lit 2 * v + lit 3) <$> zigzag_x) [] []
    = Some (d', (fun v => lit 2 * v + lit 3) <$> b,
            (fun v => lit 2 * v + lit 3) <$> c1,
            (fun v => lit 2 * v + lit 3) <$> c2, calls).
Proof.
  split; [simpl; lia|]. apply axis_pass_affine. simpl; lia.
Defined.

Lemma smoothed_corner_tangent_witness :
  (3 <= 4)%nat /\ num_points zigzag = (6 * 4)%nat /\ (0 < 1 < 4)%nat /\
  (closed zigzag = true \/ (1 < 4 - 1)%nat) /\
  smoothed atan2_approx G_PI_double svals_corners (closed zigzag)
    (ctlpts zigzag) 4 1 = true /\
  exists out,
    set_bezier_path atan2_approx G_PI_double svals_corners zigzag = Some out /\
    scalar (ctlpts out) 1 0 + scalar (ctlpts out) 1 4
    = lit 2 * scalar (ctlpts out) 1 2 /\
    scalar (ctlpts out) 1 1 + scalar (ctlpts out) 1 5
    = lit 2 * scalar (ctlpts out) 1 3.
Proof.
  split; [lia|]. split; [reflexivity|]. split; [lia|].
  split; [right; lia|]. split; [by vm_compute|].
  apply (smoothed_corner_tangent atan2_approx G_PI_double svals_corners
           zigzag 4 1);
    [lia|reflexivity|lia|right; lia|by vm_compute].
Defined.

Lemma smoothed_corner_curvature_witness :
  (3 <= 3)%nat /\ num_points triangle = (6 * 3)%nat /\ (0 < 2 < 3)%nat /\
  (closed triangle = true \/ (2 < 3 - 1)%nat) /\
  smoothed atan2_approx G_PI_double svals_default (closed triangle)
    (ctlpts triangle) 3 (2 - 1) = true /\
  smoothed atan2_approx G_PI_double svals_default (closed triangle)
    (ctlpts triangle) 3 2 = true /\
  smoothed atan2_approx G_PI_double svals_default (closed triangle)
    (ctlpts triangle) 3 ((2 + 1) mod 3) = true /\
  exists out,
    set_bezier_path atan2_approx G_PI_double svals_default triangle
    = Some out /\
    scalar (ctlpts out) (2 - 1) 4 - lit 2 * scalar (ctlpts out) 2 0
    = scalar (ctlpts out) ((2 + 1) mod 3) 0
      - lit 2 * scalar (ctlpts out) 2 4 /\
    scalar (ctlpts out) (2 - 1) 5 - lit 2 * scalar (ctlpts out) 2 1
    = scalar (ctlpts out) ((2 + 1) mod 3) 1
      - lit 2 * scalar (ctlpts out) 2 5.
Proof.
  split; [lia|]. split; [reflexivity|]. split; [lia|].
  split; [by left|]. do 3 (split; [by vm_compute|]).
  apply (smoothed_corner_curvature atan2_approx G_PI_double svals_default
           triangle 3 2);
    [lia|reflexivity|lia|by left|by vm_compute..].
Defined.

Lemma open_ends_natural_witness :
  (3 <= 4)%nat /\ num_points zigzag = (6 * 4)%nat /\ closed zigzag = false /\
  smooth_specified svals_default = 0%Z /\
  exists out,
    set_bezier_path atan2_approx G_PI_double svals_default zigzag = Some out /\
    scalar (ctlpts out) 0 2 - lit 2 * scalar (ctlpts out) 0 4
    + scalar (ctlpts out) 1 0 = 0 /\
    scalar (ctlpts out) 0 3 - lit 2 * scalar (ctlpts out) 0 5
    + scalar (ctlpts out) 1 1 = 0 /\
    scalar (ctlpts out) (4 - 2) 4 - lit 2 * scalar (ctlpts out) (4 - 1) 0
    + scalar (ctlpts out) (4 - 1) 2 = 0 /\
    scalar (ctlpts out) (4 - 2) 5 - lit 2 * scalar (ctlpts out) (4 - 1) 1
    + scalar (ctlpts out) (4 - 1) 3 = 0.
Proof.
  split; [lia|]. do 3 (split; [reflexivity|]).
  apply (open_ends_natural atan2_approx G_PI_double svals_default zigzag 4);
    [lia|reflexivity..].
Defined.

Lemma no_corner_unchanged_witness :
  (3 <= 4)%nat /\ num_points zigzag = (6 * 4)%nat /\
  (forall i, (i < 4)%nat ->
     smoothed atan2_approx G_PI_double svals_blunt (closed zigzag)
       (ctlpts zigzag) 4 i = false) /\
  set_bezier_path atan2_approx G_PI_double svals_blunt zigzag = Some zigzag.
Proof.
  assert (forall i, (i < 4)%nat ->
     smoothed atan2_approx G_PI_double svals_blunt (closed zigzag)
       (ctlpts zigzag) 4 i = false) as Hq.
  { intros i Hi. destruct i as [|[|[|[|i]]]]; [| | | |lia]; by vm_compute. }
  split; [lia|]. split; [reflexivity|]. split; [exact Hq|].
  apply (no_corner_unchanged atan2_approx G_PI_double svals_blunt zigzag 4);
    [lia|reflexivity|exact Hq].
Defined.

Lemma set_bezier_path_idempotent_witness :
  num_points triangle = (6 * 3)%nat /\
  exists out,
    set_bezier_path atan2_approx G_PI_double svals_corners triangle
    = Some out /\
    set_bezier_path atan2_approx G_PI_double svals_corners out = Some out.
Proof.
  split; [reflexivity|].
  apply (set_bezier_path_idempotent atan2_approx G_PI_double svals_corners
           triangle 3). reflexivity.
Defined.



Lemma triagonal_solve_inverse_witness :
  (1 <= length (map lit [1; 2; 3]%Q))%nat /\
  length (map lit [0; 0; 0]%Q) = length (map lit [1; 2; 3]%Q) /\
  exists d,
    triagonal_solve (map lit [0; 0; 0]%Q)
      (mat_vec tridiag_entry (map lit [1; 2; 3]%Q))
    = Some (map lit [1; 2; 3]%Q, d).
Proof.
  split; [simpl; lia|]. split; [reflexivity|].
  apply triagonal_solve_inverse; [simpl; lia|reflexivity].
Defined.


Lemma run_noninteractive_witness :
  p_run_mode call_noninteractive = GIMP_RUN_NONINTERACTIVE /\
  exists status st',
    run atan2_approx G_PI_double dialog_ok 6 call_noninteractive plug_in_start
    = Some (status, st') /\
    pi_data st' = pi_data plug_in_start /\
    pi_flushes st' = pi_flushes plug_in_start /\
    (6 <> 6 -> status = GIMP_PDB_CALLING_ERROR /\ st' = plug_in_start)%Z /\
    (6 = 6 ->
     status = GIMP_PDB_SUCCESS /\
     pi_svals st' = {| smooth_specified := p_smooth call_noninteractive;
                       ang_min := p_angle_min call_noninteractive;
                       ang_max := p_angle_max call_noninteractive |} /\
     smooth_path atan2_approx G_PI_double (pi_svals st')
       (pi_strokes plug_in_start) = Some (pi_strokes st') /\
     length (pi_strokes st') = length (pi_strokes plug_in_start))%Z.
Proof.
  split; [reflexivity|].
  apply (run_noninteractive atan2_approx G_PI_double dialog_ok 6
           call_noninteractive plug_in_start). reflexivity.
Defined.

Lemma set_bezier_path_affine_witness :
  num_points triangle = (6 * 3)%nat /\ smooth_specified svals_default = 0%Z /\
  exists out,
    set_bezier_path atan2_approx G_PI_double svals_default triangle
    = Some out /\
    set_bezier_path atan2_approx G_PI_double svals_default
      (affine_stroke quarter_turn triangle)
    = Some (affine_stroke quarter_turn out).
Proof.
  split; [reflexivity|]. split; [reflexivity|].
  apply (set_bezier_path_affine atan2_approx G_PI_double svals_default
           quarter_turn triangle 3); reflexivity.
Defined.

Lemma set_bezier_path_reverse_witness :
  (forall y x, y <> 0 \/ x <> 0 ->
     ABS (atan2_approx (- y) x) = ABS (atan2_approx y x)) /\
  num_points zigzag_handles = (6 * 4)%nat /\ closed zigzag_handles = false /\
  (smooth_specified svals_corners = 0%Z
   \/ distinct_neighbours false (ctlpts zigzag_handles) 4 = true) /\
  exists out,
    set_bezier_path atan2_approx G_PI_double svals_corners zigzag_handles
    = Some out /\
    set_bezier_path atan2_approx G_PI_double svals_corners
      (reverse_stroke zigzag_handles)
    = Some (reverse_stroke out).
Proof.
  split; [intros y x _; exact (atan2_approx_even y x)|].
  split; [reflexivity|]. split; [reflexivity|].
  split; [right; vm_compute; reflexivity|].
  apply (set_bezier_path_reverse atan2_approx G_PI_double svals_corners
           zigzag_handles 4);
    [intros y x _; exact (atan2_approx_even y x)|reflexivity|reflexivity
    |right; vm_compute; reflexivity].
Defined.

Lemma set_bezier_path_similarity_witness :
  (forall k y x, 0 < k -> y <> 0 \/ x <> 0 ->
     atan2_approx (k * y) (k * x) = atan2_approx y x) /\
  (forall y x, y <> 0 \/ x <> 0 ->
     ABS (atan2_approx (- y) x) = ABS (atan2_approx y x)) /\
  0 < lit 3 * lit 3 + lit 4 * lit 4 /\ (- (1) = 1 \/ - (1) = - (1)) /\
  num_points zigzag_handles = (6 * 4)%nat /\
  (smooth_specified svals_corners = 0%Z
   \/ distinct_neighbours (closed zigzag_handles) (ctlpts zigzag_handles) 4
      = true) /\
  exists out,
    set_bezier_path atan2_approx G_PI_double svals_corners zigzag_handles
    = Some out /\
    set_bezier_path atan2_approx G_PI_double svals_corners
      (affine_stroke (similarity (lit 3) (lit 4) (- (1)) (lit 1) (lit 2))
         zigzag_handles)
    = Some (affine_stroke (similarity (lit 3) (lit 4) (- (1)) (lit 1) (lit 2))
              out).
Proof.
  split; [intros k y x Hk _; exact (atan2_approx_scale k y x Hk)|].
  split; [intros y x _; exact (atan2_approx_even y x)|].
  split; [reflexivity|]. split; [by right|]. split; [reflexivity|].
  split; [right; vm_compute; reflexivity|].
  apply (set_bezier_path_similarity atan2_approx G_PI_double svals_corners
           (lit 3) (lit 4) (- (1)) (lit 1) (lit 2) zigzag_handles 4);
    [intros k y x Hk _; exact (atan2_approx_scale k y x Hk)
    |intros y x _; exact (atan2_approx_even y x)|reflexivity|by right
    |reflexivity|right; vm_compute; reflexivity].
Defined.

(** * Doubles at sample inputs *)

Section Binary64_samples.

Import Binary64.
Local Open Scope float_scope.

(** The stand-in for [atan2] has the values of C99 at the four pairs of
    zeros. *)
Example atan2_approx_zeros :
  atan2_approx zero zero = zero /\ atan2_approx neg_zero zero = neg_zero /\
  atan2_approx zero neg_zero = G_PI /\
  atan2_approx neg_zero neg_zero = - G_PI.
Proof. by vm_compute. Qed.

(** Half a turn in radians is 180 degrees, without rounding error. *)
Example rad_to_deg_pi : rad_to_deg G_PI = 180 /\ rad_to_deg (- G_PI) = -180.
Proof. by vm_compute. Qed.

(** On [6, 12, 14] the solver returns [1, 2, 3] but for the last bit of
    the third entry, and the product with the matrix is within the
    tolerance. *)
Example triagonal_solve_binary64_run :
  fst <$> triagonal_solve [0; 0; 0] [6; 12; 14]
  = Some [1; 2; 0x1.7ffffffffffffp+1] /\
  mat_vec tridiag_entry [1; 2; 0x1.7ffffffffffffp+1]
  = [6; 12; 0x1.bffffffffffffp+3] /\
  solves_within tolerance [6; 12; 14] = Some true.
Proof. by vm_compute. Qed.

(** A corner whose first two points coincide and whose third point lies
    to the upper right has the angle 180. *)
Example corner_angle_upper_right :
  corner_angle atan2_approx 0 0 0 0 1 1 = 180 /\
  angle_between atan2_approx svals_sharp 0 0 0 0 1 1 = 0%Z.
Proof. by vm_compute. Qed.




End Binary64_samples.
